(** * Time-series reconciliation pipeline of the monitoring dashboard

    A shallow embedding of [fetchMonitor] (the Raw Record Adapter and the
    Series Assembler) and of the chart pipeline of [NetworkChart.tsx]
    (packet-loss estimator, timeline reconciler, formatter, peak-cut filter),
    and the properties of these functions.

    Conventions of the embedding.
    - Timestamps are epoch milliseconds.  [Date.parse] and [Date.now] only
      produce integers (or [NaN]), so a timestamp is a [Z], and a possibly
      [NaN] timestamp is an [option Z].
    - Every other JavaScript number is an exact rational ([Q], compared with
      [==]): rounding of IEEE doubles is not modelled.  Where the source tests
      [Number.isFinite], the type [number] adds [NaN] and the infinities.
    - [null] is [None]; a missing object property is a missing map key.
    - Objects used as dictionaries are [gmap]s, the insertion-ordered [Map] of
      [fetchMonitor] is an association list in insertion order.
    - What the source obtains from its environment ([Date.parse],
      [Math.sqrt], [uuidToNumber], the node listing and the [getRecords]
      remote call, the clock) is a field of the classes [Runtime] and
      [Upstream]. *)

From Stdlib Require Import ZArith QArith Qround Qabs Lia Lqa Sorted Permutation.
From stdpp Require Import base option list strings pretty sorting gmap.

Set Warnings "-clear-no-such-hyp".

Local Open Scope Z_scope.

(* ===================================================================== *)
(** * Part I: definitions                                                  *)
(* ===================================================================== *)

(** ** JavaScript values used by the sources *)

(** A JavaScript [number]. *)
Inductive number :=
  | Num (q : Q)
  | NaN
  | PosInfinity
  | NegInfinity.

(** [Number.isFinite]. *)
Definition Number_isFinite (n : number) : bool :=
  match n with Num _ => true | _ => false end.

(** [Number(x)] for [x : number | undefined]. *)
Definition Number_of (x : option number) : number :=
  match x with Some n => n | None => NaN end.

(** The environment of the JavaScript runtime. *)
Class Runtime := {
  (** [Date.parse]: [None] is [NaN]. *)
  Date_parse : string → option Z;
  (** [Math.sqrt] on the rationals of the model. *)
  Math_sqrt : Q → Q;
  (** [Date.now()]: the value of the [k]-th reading of the clock. *)
  Date_now : nat → Z;
}.

(** ** Array.prototype.sort with a numeric comparator

    [xs.sort((a, b) => key(a) - key(b))] is a stable sort by [key]; the
    insertion sort below is stable: an element is put in front of the first
    element whose key is not smaller, and elements are inserted from the
    last to the first. *)

Section sort_by.
Context {A : Type} (leb : A → A → bool).

Fixpoint insert_sorted (x : A) (l : list A) : list A :=
  match l with
  | [] => [x]
  | y :: l' => if leb x y then x :: y :: l' else y :: insert_sorted x l'
  end.

Definition sort_by (l : list A) : list A := foldr insert_sorted [] l.
End sort_by.

Definition sort_Z : list Z → list Z := sort_by Z.leb.
Definition sort_Q : list Q → list Q := sort_by Qle_bool.

(** ** nezha-api: [fetchMonitor] *)

(** Modelled from the spec: the types [NezhaMonitor] and [MonitorResponse] of
    [@/types/nezha-api], which is not among the sources.  [NezhaMonitor] is
    the MonitorSeries of the specification, with the fields [fetchMonitor]
    writes and the optional [packet_loss] that [NetworkChart] reads;
    [MonitorResponse] has the optional [from] and [to] that [NetworkChart]
    passes to [getTimeRange]. *)
Record NezhaMonitor := {
  monitor_id : Z;
  monitor_name : string;
  server_id : Z;
  server_name : string;
  created_at : list Z;
  avg_delay : list (option Q);
  packet_loss : option (list Q);
}.

Record MonitorResponse := {
  success : bool;
  data : list NezhaMonitor;
  from : option string;
  to : option string;
}.

(** [type MonitorRecord = { task_id?: number; time?: string; value?: number;
    name?: string }] *)
Record MonitorRecord := {
  task_id : option Z;
  time : option string;
  value : option number;
  name : option string;
}.

Record MonitorTask := { id : Z; task_name : string }.

(** The reply of [common:getRecords], typed [any] in the source: what the
    source can tell apart.  In [PayloadObject] a field is [None] when the
    property is absent or, for [tasks] and [records], is not an array. *)
Inductive Payload :=
  | PayloadObject (error : option string) (tasks : option (list MonitorTask))
      (records : option (list MonitorRecord))
  | PayloadArray (recs : list MonitorRecord)
  | PayloadOther.

(** A property of the node listing [Record<string, any>]: a node object with
    its optional [name], or a string (the [error] property). *)
Inductive NodeValue :=
  | NodeObject (node_name : option string)
  | NodeString (s : string).

Definition KomariNodes := list (string * NodeValue).

Record RecordsRequest := {
  req_type : string;
  req_uuid : string;
  req_maxCount : Z;
  req_hours : Z;
}.

(** The upstream collaborators of [fetchMonitor]: [uuidToNumber] and
    [getKomariNodes] of [./utils] and the remote call
    [SharedClient().call("common:getRecords", ...)], none of which is among
    the sources. *)
Class Upstream := {
  uuidToNumber : string → Z;
  getKomariNodes : KomariNodes;
  getRecords : RecordsRequest → Payload;
}.

(** *** The effects of an [async] function

    [fetchMonitor] awaits two remote calls, reads the clock and may throw.
    The world records every remote call made and counts the clock readings. *)

Inductive Event :=
  | EvGetKomariNodes
  | EvGetRecords (req : RecordsRequest).

Record World := { ticks : nat; calls : list Event }.

Inductive Outcome (A : Type) :=
  | Returned (a : A)
  | Thrown (msg : string).
Arguments Returned {A} a.
Arguments Thrown {A} msg.

Definition Async (A : Type) : Type := World → Outcome A * World.

Global Instance Async_ret : MRet Async := λ A a w, (Returned a, w).
Global Instance Async_bind : MBind Async := λ A B k m w,
  match m w with
  | (Returned a, w') => k a w'
  | (Thrown msg, w') => (Thrown msg, w')
  end.

Definition throw {A} (msg : string) : Async A := λ w, (Thrown msg, w).

Definition emit (e : Event) : Async () := λ w,
  (Returned (), {| ticks := ticks w; calls := calls w ++ [e] |}).

Section nezha_api.
Context `{Runtime} `{Upstream}.

Definition await_getKomariNodes : Async KomariNodes :=
  emit EvGetKomariNodes;; mret getKomariNodes.

(** [SharedClient().call("common:getRecords", req)] *)
Definition await_getRecords (req : RecordsRequest) : Async Payload :=
  emit (EvGetRecords req);; mret (getRecords req).

Definition now : Async Z := λ w,
  (Returned (Date_now (ticks w)), {| ticks := S (ticks w); calls := calls w |}).

(** [km_nodes[key]] *)
Definition nodes_get (km_nodes : KomariNodes) (key : string) : option NodeValue :=
  snd <$> List.find (λ kv, String.eqb (fst kv) key) km_nodes.

(** [km_nodes?.error], when truthy, with the message thrown. *)
Definition nodes_error (km_nodes : KomariNodes) : option string :=
  match nodes_get km_nodes "error" with
  | Some (NodeString s) => if String.eqb s EmptyString then None else Some s
  | Some (NodeObject _) => Some "[object Object]"%string
  | None => None
  end.

(** [km_nodes[uuid]?.name || String(server_id)] *)
Definition serverName_of (km_nodes : KomariNodes) (uuid : string) (server_id : Z) : string :=
  match nodes_get km_nodes uuid with
  | Some (NodeObject (Some n)) => if String.eqb n EmptyString then pretty server_id else n
  | _ => pretty server_id
  end.

Definition payload_error (km_monitors : Payload) : option string :=
  match km_monitors with
  | PayloadObject (Some e) _ _ => if String.eqb e EmptyString then None else Some e
  | _ => None
  end.

(** [seriesByTask: Map<number, NezhaMonitor>], in insertion order. *)
Definition SeriesMap := list (Z * NezhaMonitor).

Definition series_has (id : Z) (m : SeriesMap) : bool :=
  existsb (λ kv, fst kv =? id) m.

Definition series_get (id : Z) (m : SeriesMap) : option NezhaMonitor :=
  snd <$> List.find (λ kv, fst kv =? id) m.

(** [{ ...s, created_at: ts, avg_delay: vs }] *)
Definition with_points (s : NezhaMonitor) (ts : list Z) (vs : list (option Q)) : NezhaMonitor :=
  {| monitor_id := monitor_id s;
     monitor_name := monitor_name s;
     server_id := server_id s;
     server_name := server_name s;
     created_at := ts;
     avg_delay := vs;
     packet_loss := packet_loss s |}.

Section with_server.
(** [server_id] and [serverName] of the enclosing [fetchMonitor]. *)
Variables (srv_id : Z) (serverName : string).

Definition ensureSeries (id : Z) (name : string) (m : SeriesMap) : SeriesMap :=
  if series_has id m then m
  else m ++ [(id, {| monitor_id := id;
                     monitor_name := name;
                     server_id := srv_id;
                     server_name := serverName;
                     created_at := [];
                     avg_delay := [];
                     packet_loss := None |})].

(** [s.created_at.push(ts); s.avg_delay.push(v)] on the series [id]. *)
Definition push_point (id : Z) (ts : Z) (v : option Q) (m : SeriesMap) : SeriesMap :=
  map (λ kv,
         if fst kv =? id then
           (fst kv,
            with_points (snd kv) (created_at (snd kv) ++ [ts]) (avg_delay (snd kv) ++ [v]))
         else kv) m.

Definition appendRecord (rec : MonitorRecord) (nameOverride : option string)
    (m : SeriesMap) : SeriesMap :=
  let id := match task_id rec with Some n => n | None => 0 end in
  let name :=
    match nameOverride with
    | Some n => n
    | None => match name rec with
              | Some n => n
              | None => ("task_" +:+ pretty id)%string
              end
    end in
  let m := ensureSeries id name m in
  match Date_parse (default EmptyString (time rec)) with
  | None => m
  | Some ts =>
      match Number_of (value rec) with
      | Num val =>
          push_point id ts (if Qeq_bool val (-1) then None else Some val) m
      | _ => m
      end
  end.

(** The three accepted shapes, first match wins. *)
Definition collectSeries (km_monitors : Payload) : SeriesMap :=
  match km_monitors with
  | PayloadObject _ (Some tasks) (Some records) =>
      let m := foldl (λ m task, ensureSeries (id task) (task_name task) m) [] tasks in
      foldl (λ m rec, appendRecord rec None m) m records
  | PayloadObject _ _ (Some records) =>
      foldl (λ m rec, appendRecord rec None m) [] records
  | PayloadArray recs =>
      foldl (λ m rec, appendRecord rec None m) [] recs
  | _ => []
  end.
End with_server.

(** [zip.sort((a, b) => a.t - b.t)] on the paired entries of a series. *)
Definition sortSeries (s : NezhaMonitor) : NezhaMonitor :=
  let zip := imap (λ i t, (t, default None (avg_delay s !! i))) (created_at s) in
  let zip := sort_by (λ a b, fst a <=? fst b) zip in
  with_points s (map fst zip) (map snd zip).

(** [for (const s of data) if (s.avg_delay.length == 0) { ... }] *)
Fixpoint padEmpty (data : list NezhaMonitor) : Async (list NezhaMonitor) :=
  match data with
  | [] => mret []
  | s :: rest =>
      s' ← (if Nat.eqb (length (avg_delay s)) 0 then
              t ← now;
              mret (with_points s [t] [None])
            else mret s);
      rest' ← padEmpty rest;
      mret (s' :: rest')
  end.

Definition empty_response : MonitorResponse :=
  {| success := true; data := []; from := None; to := None |}.

Definition fetchMonitor (server_id : Z) (hours : Q) : Async MonitorResponse :=
  km_nodes ← await_getKomariNodes;
  match nodes_error km_nodes with
  | Some msg => throw msg
  | None =>
      match List.find (λ id, uuidToNumber id =? server_id) (map fst km_nodes) with
      | None => mret empty_response
      | Some uuid =>
          if String.eqb uuid EmptyString then mret empty_response
          else
            let serverName := serverName_of km_nodes uuid server_id in
            let safeHours := Z.max 1 (Qfloor hours) in
            km_monitors ← await_getRecords
              {| req_type := "ping"; req_uuid := uuid;
                 req_maxCount := 4000; req_hours := safeHours |};
            match payload_error km_monitors with
            | Some msg => throw msg
            | None =>
                let seriesByTask := collectSeries server_id serverName km_monitors in
                let data := map (λ kv, sortSeries (snd kv)) seriesByTask in
                data ← padEmpty data;
                mret {| success := true; data := data; from := None; to := None |}
            end
      end
  end.
End nezha_api.

(** ** NetworkChart: numeric helpers *)

Local Open Scope Q_scope.

(** [Math.round]: the nearest integer, ties towards positive infinity. *)
Definition Math_round (x : Q) : Z := Qfloor (x + (1 # 2)).

(** [Number(x.toFixed(2))]: [toFixed] picks the integer [n] with
    [n / 100] nearest to [|x|], the larger one on a tie, and keeps the sign. *)
Definition toFixed2 (x : Q) : Q :=
  if Qle_bool 0 x then inject_Z (Qfloor (x * 100 + (1 # 2))) / 100
  else - (inject_Z (Qfloor (- x * 100 + (1 # 2))) / 100).

(** [a > b] on numbers. *)
Definition Qgt_bool (a b : Q) : bool := negb (Qle_bool a b).

(** [Math.min] and [Math.max]. *)
Definition Math_min (a b : Q) : Q := if Qle_bool a b then a else b.
Definition Math_max (a b : Q) : Q := if Qle_bool a b then b else a.

(** [xs.reduce((sum, d) => sum + f(d), 0)] *)
Definition reduce_sum {A} (f : A → Q) (xs : list A) : Q :=
  foldl (λ sum d, sum + f d) 0 xs.

(** [xs.slice(start, end)] for [0 <= start] and [0 <= end]. *)
Definition slice {A} (start end_ : nat) (xs : list A) : list A :=
  take (end_ - start) (drop start xs).

(** ** NetworkChart: [calculatePacketLoss] *)

Section calculatePacketLoss.
Context `{Runtime}.

Definition timeoutThreshold : Q := 3000.
Definition extremeDelayThreshold : Q := 10000.

Definition windowSize_of (n : nat) : nat := Nat.min 10 (Nat.max 3 (n / 10)).

(** The last branch of the loop body: the estimate from the statistics of
    the window around [i]. *)
Definition windowLossRate (delays : list (option Q)) (windowSize i : nat)
    (currentDelay : Q) : Q :=
  let start := Nat.max 0 (i - windowSize / 2) in
  let end_ := Nat.min (length delays) (i + (windowSize + 1) / 2) in
  let windowDelays :=
    omap (λ d, match d with
               | Some d => if Qgt_bool d 0 then Some d else None
               | None => None
               end) (slice start end_ delays) in
  if (2 <? length windowDelays)%nat then
    let n := inject_Z (Z.of_nat (length windowDelays)) in
    let mean := reduce_sum (λ d, d) windowDelays / n in
    let variance := reduce_sum (λ d, (d - mean) ^ 2) windowDelays / n in
    let standardDeviation := Math_sqrt variance in
    let coefficientOfVariation := standardDeviation / mean in
    let lossRate :=
      if Qgt_bool coefficientOfVariation 0.8 then Math_min 25 (coefficientOfVariation * 15)
      else if Qgt_bool coefficientOfVariation 0.5 then Math_min 10 (coefficientOfVariation * 8)
      else if Qgt_bool coefficientOfVariation 0.3 then Math_min 5 (coefficientOfVariation * 5)
      else 0 in
    if Qgt_bool currentDelay (mean * 2.5) then
      lossRate + Math_min 15 ((currentDelay / mean - 2.5) * 10)
    else lossRate
  else 0.

(** [lossRate] of index [i] before the smoothing step. *)
Definition rawLossRate (delays : list (option Q)) (windowSize i : nat) : Q :=
  match delays !! i with
  | Some (Some currentDelay) =>
      if Qeq_bool currentDelay 0 then 100
      else if Qle_bool extremeDelayThreshold currentDelay then
        Math_min 95 (60 + (currentDelay - extremeDelayThreshold) / 1000)
      else if Qle_bool timeoutThreshold currentDelay then
        Math_min 50 ((currentDelay - timeoutThreshold) / 200)
      else windowLossRate delays windowSize i currentDelay
  | _ => 100
  end.

(** One iteration of the [for] loop, on the rates pushed so far. *)
Definition packetLoss_step (delays : list (option Q)) (windowSize : nat)
    (packetLossRates : list Q) (i : nat) : list Q :=
  let lossRate := rawLossRate delays windowSize i in
  let lossRate :=
    if (0 <? i)%nat then
      let alpha := 0.3 in
      alpha * lossRate + (1 - alpha) * default 0 (packetLossRates !! (i - 1)%nat)
    else lossRate in
  packetLossRates ++ [Math_max 0 (Math_min 100 lossRate)].

(** The array [packetLossRates] at the end of the loop. *)
Definition packetLossRates_of (delays : list (option Q)) : list Q :=
  let windowSize := windowSize_of (length delays) in
  foldl (packetLoss_step delays windowSize) [] (seq 0 (length delays)).

Definition calculatePacketLoss (delays : list (option Q)) : list Q :=
  match delays with
  | [] => []
  | _ => map toFixed2 (packetLossRates_of delays)
  end.
End calculatePacketLoss.

(** ** NetworkChart: the time range *)

Section getTimeRange.
Context `{Runtime}.

(** [typeof s === "string" ? Date.parse(s) : Number.NaN] *)
Definition parse_optional (s : option string) : option Z :=
  match s with Some s => Date_parse s | None => None end.

(** [!Number.isFinite(rangeStart) || !Number.isFinite(rangeEnd) ||
    rangeStart >= rangeEnd] *)
Definition range_unusable (rangeStart rangeEnd : option Z) : bool :=
  match rangeStart, rangeEnd with
  | Some a, Some b => (b <=? a)%Z
  | _, _ => true
  end.

(** The scan for [minTime] and [maxTime]; [None] is the initial infinity. *)
Definition scan_min_max (data : list NezhaMonitor) : option Z * option Z :=
  foldl (λ acc item,
           foldl (λ '(minTime, maxTime) time,
                    (match minTime with
                     | Some m => if (time <? m)%Z then Some time else minTime
                     | None => Some time
                     end,
                     match maxTime with
                     | Some m => if (m <? time)%Z then Some time else maxTime
                     | None => Some time
                     end))
                 acc (created_at item))
        (None, None) data.

(** [now] is the value [Date.now()] has if it is read. *)
Definition getTimeRange (data : list NezhaMonitor) (rangeHours : Q)
    (from to : option string) (now : Z) : Z * Z :=
  let parsedFrom := parse_optional from in
  let parsedTo := parse_optional to in
  let rangeStart := parsedFrom in
  let rangeEnd := parsedTo in
  let '(rangeStart, rangeEnd) :=
    if range_unusable rangeStart rangeEnd then
      let '(minTime, maxTime) := scan_min_max data in
      (match rangeStart, minTime with
       | None, Some m => Some m
       | _, _ => rangeStart
       end,
       match rangeEnd, maxTime with
       | None, Some m => Some m
       | _, _ => rangeEnd
       end)
    else (rangeStart, rangeEnd) in
  match rangeStart, rangeEnd with
  | Some a, Some b =>
      if (b <=? a)%Z then
        let safeHours := Z.max 1 (Qfloor rangeHours) in
        let rangeEnd := now in
        ((rangeEnd - safeHours * 60 * 60 * 1000)%Z, rangeEnd)
      else (a, b)
  | _, _ =>
      let safeHours := Z.max 1 (Qfloor rangeHours) in
      let rangeEnd := now in
      ((rangeEnd - safeHours * 60 * 60 * 1000)%Z, rangeEnd)
  end.
End getTimeRange.

(** ** NetworkChart: the sample interval *)

Definition DEFAULT_INTERVAL_MS : Z := 60 * 1000.

(** [getMedianValue]: [None] is the [NaN] obtained on the empty array (the
    index [mid - 1] is only out of range there). *)
Definition getMedianValue (values : list Z) : option Q :=
  let sorted := sort_Z values in
  let mid := (length sorted / 2)%nat in
  if Nat.odd (length sorted) then inject_Z <$> sorted !! mid
  else
    match sorted !! (mid - 1)%nat, sorted !! mid with
    | Some a, Some b => Some ((inject_Z a + inject_Z b) / 2)
    | _, _ => None
    end.

(** The positive differences [times[i] - times[i - 1]], for [i] from 1. *)
Fixpoint positive_deltas (times : list Z) : list Z :=
  match times with
  | prev :: (next :: _) as rest =>
      let delta := (next - prev)%Z in
      if (0 <? delta)%Z then delta :: positive_deltas rest else positive_deltas rest
  | _ => []
  end.

Definition all_deltas (data : list NezhaMonitor) : list Z :=
  flat_map (λ item, positive_deltas (created_at item)) data.

(** The value returned is a JavaScript number; it is shown below to be an
    integer in every case. *)
Definition getTypicalIntervalMs (data : list NezhaMonitor) : Q :=
  let deltas := all_deltas data in
  match deltas with
  | [] => inject_Z DEFAULT_INTERVAL_MS
  | _ =>
      match getMedianValue deltas with
      | Some median =>
          let rounded := (Math_round (median / 1000) * 1000)%Z in
          Math_max 1000 (if (rounded =? 0)%Z then median else inject_Z rounded)
      | None => 0
      end
  end.

(** ** NetworkChart: offline spans and the timeline *)

Definition OFFLINE_GAP_MULTIPLIER : Q := 1.5.

(** [type OfflineSpan = { start: number; end: number }] *)
Record OfflineSpan := { start : Z; end_ : Z }.

(** The [for] loop over the consecutive pairs of [sortedTimes]. *)
Fixpoint internalSpans (sortedTimes : list Z) (rangeEnd intervalMs : Z) (threshold : Q)
    : list OfflineSpan :=
  match sortedTimes with
  | prev :: (next :: _) as rest =>
      (if Qgt_bool (inject_Z (next - prev)) threshold then
         let spanStart := (prev + intervalMs)%Z in
         let spanEnd := Z.min next rangeEnd in
         if (spanStart <? spanEnd)%Z then [{| start := spanStart; end_ := spanEnd |}] else []
       else [])
      ++ internalSpans rest rangeEnd intervalMs threshold
  | _ => []
  end.

Definition buildOfflineSpans (observedTimes : list Z) (rangeStart rangeEnd intervalMs : Z)
    : list OfflineSpan :=
  if (rangeEnd <=? rangeStart)%Z || (intervalMs <=? 0)%Z then []
  else
    match observedTimes with
    | [] => [{| start := rangeStart; end_ := rangeEnd |}]
    | _ =>
        let threshold := inject_Z intervalMs * OFFLINE_GAP_MULTIPLIER in
        let sortedTimes := sort_Z observedTimes in
        match head sortedTimes, last sortedTimes with
        | Some firstTime, Some lastTime =>
            (if Qgt_bool (inject_Z (firstTime - rangeStart)) threshold then
               [{| start := rangeStart; end_ := firstTime |}]
             else [])
            ++ internalSpans sortedTimes rangeEnd intervalMs threshold
            ++ (if Qgt_bool (inject_Z (rangeEnd - lastTime)) threshold then
                  let spanStart := (lastTime + intervalMs)%Z in
                  if (spanStart <? rangeEnd)%Z then [{| start := spanStart; end_ := rangeEnd |}]
                  else []
                else [])
        | _, _ => []
        end
    end.

(** [for (let t = span.start; t < span.end; t += intervalMs) points.push(t)],
    for [intervalMs > 0]; [fuel] bounds the number of iterations. *)
Fixpoint span_points (fuel : nat) (t spanEnd intervalMs : Z) : list Z :=
  match fuel with
  | O => []
  | S fuel =>
      if (t <? spanEnd)%Z then t :: span_points fuel (t + intervalMs)%Z spanEnd intervalMs
      else []
  end.

(** The loop makes at most [span.end - span.start] iterations, since each
    one adds at least 1 to [t]. *)
Definition buildOfflinePoints (spans : list OfflineSpan) (intervalMs : Z) : list Z :=
  if (intervalMs <=? 0)%Z then []
  else
    flat_map (λ span, span_points (Z.to_nat (end_ span - start span))
                        (start span) (end_ span) intervalMs) spans.

Record TimelineData := {
  timeline : list Z;
  offlineSpans : list OfflineSpan;
  observedSet : gset Z;
  intervalMs : Z;
}.

(** [getTypicalIntervalMs] returns an integer ([getTypicalIntervalMs_integer]
    below): [Qfloor] only changes its type. *)
Definition buildTimelineData (rawData : list NezhaMonitor) (rangeStart rangeEnd : Z)
    : TimelineData :=
  let observedSet : gset Z :=
    foldl (λ observedSet item,
             foldl (λ (observedSet : gset Z) time,
                      if (rangeStart <=? time)%Z && (time <=? rangeEnd)%Z
                      then {[ time ]} ∪ observedSet else observedSet)
                   observedSet (created_at item))
          ∅ rawData in
  let observedTimes := sort_Z (elements observedSet) in
  let intervalMs := Qfloor (getTypicalIntervalMs rawData) in
  let offlineSpans := buildOfflineSpans observedTimes rangeStart rangeEnd intervalMs in
  let offlinePoints := buildOfflinePoints offlineSpans intervalMs in
  let timelineSet : gset Z :=
    foldl (λ (timelineSet : gset Z) time, {[ time ]} ∪ timelineSet)
          (list_to_set observedTimes) offlinePoints in
  let timeline := sort_Z (elements timelineSet) in
  {| timeline := timeline; offlineSpans := offlineSpans;
     observedSet := observedSet; intervalMs := intervalMs |}.

(** ** NetworkChart: [formatData] *)

(** [interface ResultItem { created_at: number; [key: string]: number | null }]:
    an object; a missing key reads as [undefined]. *)
Abbreviation ResultItem := (gmap string (option Q)).

Definition OFFLINE_KEY : string := "__offline__".

(** [x ?? null] *)
Definition or_null (x : option (option Q)) : option Q :=
  match x with Some v => v | None => None end.

Record ValidPoint := { point_time : Z; point_value : Q }.

Section formatData.
Context `{Runtime}.

(** [{ created_at: time, [OFFLINE_KEY]: observedSet.has(time) ? null : 1 }] *)
Definition new_row (observedSet : gset Z) (time : Z) : ResultItem :=
  <[OFFLINE_KEY := if decide (time ∈ observedSet) then None else Some 1]>
    {[ "created_at"%string := Some (inject_Z time) ]}.

(** [result[time][key] = v] *)
Definition set_field (time : Z) (key : string) (v : option Q)
    (result : gmap Z ResultItem) : gmap Z ResultItem :=
  alter (λ row : ResultItem, <[key := v]> row) time result.

(** What the first [for] loop of a series collects. *)
Record SeriesTables := {
  valueMap : gmap Z (option Q);
  packetLossMap : gmap Z (option Q);
  sampleTimes : gset Z;
  validPoints : list ValidPoint;
}.

Definition collect_step (created_at : list Z) (avg_delay : list (option Q))
    (packetLoss : list Q) (tb : SeriesTables) (i : nat) : SeriesTables :=
  match created_at !! i with
  | Some t =>
      {| valueMap := <[t := or_null (avg_delay !! i)]> (valueMap tb);
         packetLossMap := <[t := packetLoss !! i]> (packetLossMap tb);
         sampleTimes := {[ t ]} ∪ sampleTimes tb;
         validPoints :=
           match avg_delay !! i with
           | Some (Some v) => validPoints tb ++ [{| point_time := t; point_value := v |}]
           | _ => validPoints tb
           end |}
  | None => tb
  end.

Definition collectTables (created_at : list Z) (avg_delay : list (option Q))
    (packetLoss : list Q) : SeriesTables :=
  foldl (collect_step created_at avg_delay packetLoss)
        {| valueMap := ∅; packetLossMap := ∅; sampleTimes := ∅; validPoints := [] |}
        (seq 0 (length created_at)).

(** [while (nextIndex < validPoints.length && validPoints[nextIndex].time < time)],
    run on [rest], the points from [nextIndex] on. *)
Fixpoint advance (rest : list ValidPoint) (time : Z) (nextIndex : nat)
    (prevPoint : option ValidPoint) : nat * option ValidPoint :=
  match rest with
  | p :: rest =>
      if (point_time p <? time)%Z then advance rest time (S nextIndex) (Some p)
      else (nextIndex, prevPoint)
  | [] => (nextIndex, prevPoint)
  end.

(** The value written at a timestamp that is neither offline nor a sample. *)
Definition interpolate (prevPoint nextPoint : option ValidPoint) (intervalMs time : Z)
    : option Q :=
  match prevPoint, nextPoint with
  | Some prevPoint, Some nextPoint =>
      if (0 <? intervalMs)%Z
         && Qle_bool (inject_Z (point_time nextPoint - point_time prevPoint))
                     (inject_Z intervalMs * OFFLINE_GAP_MULTIPLIER)
      then
        let ratio := inject_Z (time - point_time prevPoint)
                     / inject_Z (point_time nextPoint - point_time prevPoint) in
        Some (point_value prevPoint + ratio * (point_value nextPoint - point_value prevPoint))
      else None
  | _, _ => None
  end.

Record Cursor := {
  result : gmap Z ResultItem;
  nextIndex : nat;
  prevPoint : option ValidPoint;
}.

(** The body of the inner [timeline.forEach]. *)
Definition formatSeries_step (monitor_name : string) (tb : SeriesTables)
    (observedSet : gset Z) (intervalMs : Z) (c : Cursor) (time : Z) : Cursor :=
  let result :=
    match result c !! time with
    | Some _ => result c
    | None => <[time := new_row observedSet time]> (result c)
    end in
  let row : ResultItem := default ∅ (result !! time) in
  let isOffline := match row !! OFFLINE_KEY with Some None => false | _ => true end in
  if isOffline then
    {| result := set_field time (monitor_name +:+ "_packet_loss") None
                   (set_field time monitor_name None result);
       nextIndex := nextIndex c; prevPoint := prevPoint c |}
  else if decide (time ∈ sampleTimes tb) then
    {| result := set_field time (monitor_name +:+ "_packet_loss")
                   (or_null (packetLossMap tb !! time))
                   (set_field time monitor_name (or_null (valueMap tb !! time)) result);
       nextIndex := nextIndex c; prevPoint := prevPoint c |}
  else
    let '(nextIndex, prevPoint) :=
      advance (drop (nextIndex c) (validPoints tb)) time (nextIndex c) (prevPoint c) in
    let nextPoint := validPoints tb !! nextIndex in
    {| result := set_field time (monitor_name +:+ "_packet_loss") None
                   (set_field time monitor_name
                      (interpolate prevPoint nextPoint intervalMs time) result);
       nextIndex := nextIndex; prevPoint := prevPoint |}.

(** The body of [rawData.forEach].  [packetLoss] is an array, which is
    truthy even when empty: the tests [if (packetLoss)] always succeed. *)
Definition formatSeries (timeline : list Z) (observedSet : gset Z) (intervalMs : Z)
    (table : gmap Z ResultItem) (item : NezhaMonitor) : gmap Z ResultItem :=
  let packetLoss := default (calculatePacketLoss (avg_delay item)) (packet_loss item) in
  let tb := collectTables (created_at item) (avg_delay item) packetLoss in
  result
    (foldl (formatSeries_step (monitor_name item) tb observedSet intervalMs)
           {| result := table; nextIndex := 0; prevPoint := None |} timeline).

(** [a.created_at] as a number in the comparator of the final sort. *)
Definition row_created_at (row : ResultItem) : Q :=
  match row !! "created_at"%string with Some (Some t) => t | _ => 0 end.

(** The table [result] before [Object.values]. *)
Definition formatTable (rawData : list NezhaMonitor) (timeline : list Z)
    (observedSet : gset Z) (intervalMs : Z) : gmap Z ResultItem :=
  let table : gmap Z ResultItem :=
    foldl (λ table time, <[time := new_row observedSet time]> table) ∅ timeline in
  foldl (formatSeries timeline observedSet intervalMs) table rawData.

Definition formatData (rawData : list NezhaMonitor) (timeline : list Z)
    (observedSet : gset Z) (intervalMs : Z) : list ResultItem :=
  sort_by (λ a b, Qle_bool (row_created_at a) (row_created_at b))
    (snd <$> map_to_list (formatTable rawData timeline observedSet intervalMs)).
End formatData.

(** ** NetworkChart: [processedData], the peak-cut filter *)

(** [getMedian] of the filter; it is only called on non-empty arrays, where
    both indices are in range ([0] stands for the out-of-range reads). *)
Definition getMedian (arr : list Q) : Q :=
  let sorted := sort_Q arr in
  let mid := (length sorted / 2)%nat in
  if Nat.odd (length sorted) then nth mid sorted 0
  else (nth (mid - 1) sorted 0 + nth mid sorted 0) / 2.

Definition peak_windowSize : nat := 11.
Definition peak_alpha : Q := 0.3.

(** [processValues]: [None] is [null]. *)
Definition processValues (values : list Q) : option Q :=
  match values with
  | [] => None
  | _ =>
      let median := getMedian values in
      let deviations := map (λ v, Qabs (v - median)) values in
      let medianDeviation := getMedian deviations * 1.4826 in
      let validValues :=
        List.filter (λ v, Qle_bool (Qabs (v - median)) (3 * medianDeviation)
                          && Qle_bool v (median * 3)) values in
      match validValues with
      | [] => Some median
      | first :: rest =>
          Some (foldl (λ ewma v, peak_alpha * v + (1 - peak_alpha) * ewma) first rest)
      end
  end.

(** The numeric values of [key] in the rows of [window]:
    [window.map((w) => w[key]).filter((v) => v !== undefined && v !== null)] *)
Definition window_values (window : list ResultItem) (key : string) : list Q :=
  omap (λ w : ResultItem, or_null (w !! key)) window.

(** The treatment of one key of one row: [ewmaHistory] and [smoothed] after
    it. *)
Definition smooth_key (window : list ResultItem) (st : gmap string Q * ResultItem)
    (key : string) : gmap string Q * ResultItem :=
  let '(ewmaHistory, smoothed) := st in
  let values := window_values window key in
  if (0 <? length values)%nat then
    match processValues values with
    | Some processed =>
        let next :=
          match ewmaHistory !! key with
          | None => processed
          | Some previous => peak_alpha * processed + (1 - peak_alpha) * previous
          end in
        (<[key := next]> ewmaHistory, <[key := Some next]> smoothed)
    | None => st
    end
  else st.

Section processedData.
Variables (isPeakEnabled : bool) (activeCharts : list string)
          (formattedData : list ResultItem) (chartDataKey : list string).

(** The rows when exactly one chart is selected. *)
Definition single_row (selectedChart : string) (item : ResultItem) : ResultItem :=
  let row : ResultItem :=
    <[OFFLINE_KEY := or_null (item !! OFFLINE_KEY)]>
      (<["packet_loss"%string := or_null (item !! (selectedChart +:+ "_packet_loss"))]>
         {[ "avg_delay"%string := or_null (item !! selectedChart) ]}) in
  match item !! "created_at"%string with
  | Some t => <["created_at"%string := t]> row
  | None => row
  end.

Definition baseData : list ResultItem :=
  match activeCharts with
  | [selectedChart] => map (single_row selectedChart) formattedData
  | _ => formattedData
  end.

(** The keys smoothed in a row. *)
Definition keysToProcess : list string :=
  match activeCharts with
  | [_] => ["avg_delay"%string]
  | [] => chartDataKey
  | _ => activeCharts
  end.

(** The callback of [data.map], with the history it reads and updates. *)
Definition peak_step (data : list ResultItem) (st : gmap string Q * list ResultItem)
    (index : nat) : gmap string Q * list ResultItem :=
  let '(ewmaHistory, out) := st in
  match data !! index with
  | None => st
  | Some point =>
      if (index <? peak_windowSize - 1)%nat then (ewmaHistory, out ++ [point])
      else
        let window := slice (index + 1 - peak_windowSize) (index + 1) data in
        let '(ewmaHistory, smoothed) :=
          foldl (smooth_key window) (ewmaHistory, point) keysToProcess in
        (ewmaHistory, out ++ [smoothed])
  end.

Definition processedData : list ResultItem :=
  if negb isPeakEnabled then baseData
  else
    let data := baseData in
    snd (foldl (peak_step data) (∅, []) (seq 0 (length data))).
End processedData.

(** ** NetworkChart: [transformData] and the chart buttons *)

Local Open Scope Z_scope.

(** The objects [transformData] pushes: [{ created_at, avg_delay,
    packet_loss }].  [avg_delay] is [item.avg_delay[i]], which is
    [undefined] ([None]) past the end of the array, [null] ([Some None]) or a
    number; [packet_loss] is [packetLoss[i]], [undefined] past the end. *)
Record ChartPoint := {
  chart_created_at : Z;
  chart_avg_delay : option (option Q);
  chart_packet_loss : option Q;
}.

Section transformData.
Context `{Runtime}.

(** The points pushed for one series, in the order of the [for] loop. *)
Definition chart_points (item : NezhaMonitor) : list ChartPoint :=
  let packetLoss := default (calculatePacketLoss (avg_delay item)) (packet_loss item) in
  imap (λ i t, {| chart_created_at := t;
                  chart_avg_delay := avg_delay item !! i;
                  chart_packet_loss := packetLoss !! i |}) (created_at item).

(** [transformData]: the object [monitorData], keyed by monitor name (the
    names are taken not to be names of properties every object inherits).  A
    name met again gets the points of the later series appended. *)
Definition transformData (data : list NezhaMonitor) : gmap string (list ChartPoint) :=
  foldl (λ (monitorData : gmap string (list ChartPoint)) item,
           let monitorName := monitor_name item in
           let monitorData :=
             match monitorData !! monitorName with
             | Some _ => monitorData
             | None => <[monitorName := []]> monitorData
             end in
           alter (λ points, points ++ chart_points item) monitorName monitorData)
        ∅ data.
End transformData.

(** [[...monitorData].reverse().find((item) => item.avg_delay !== null)
    ?.avg_delay ?? 0] *)
Definition lastValidDelay (monitorData : list ChartPoint) : Q :=
  match List.find (λ item, match chart_avg_delay item with Some None => false | _ => true end)
                  (reverse monitorData) with
  | Some item => match chart_avg_delay item with Some (Some v) => v | _ => 0%Q end
  | None => 0%Q
  end.

(** [avgPacketLoss]: the mean of the defined packet-loss values, [None]
    ([null]) when there is none. *)
Definition avgPacketLoss (monitorData : list ChartPoint) : option Q :=
  let packetLossData := omap chart_packet_loss monitorData in
  if (0 <? length packetLossData)%nat then
    Some (reduce_sum (λ loss, loss) packetLossData
          / inject_Z (Z.of_nat (length packetLossData)))%Q
  else None.

(** The updater of [handleButtonClick]: a selected chart is removed, any
    other chart is added at the end. *)
Definition handleButtonClick (chart : string) (prev : list string) : list string :=
  if existsb (String.eqb chart) prev then List.filter (λ c, negb (String.eqb c chart)) prev
  else prev ++ [chart].

(** ** NetworkChart: [buildTimeTicks] *)

(** The methods of [Date] that [buildTimeTicks] calls, on the time value
    (epoch milliseconds) of the date; they work in the local time zone of
    the browser.  A setter returns the time value after the call. *)
Class LocalDate := {
  Date_getHours : Z → Z;
  Date_getMinutes : Z → Z;
  (** [d.setSeconds(sec, ms)] *)
  Date_setSeconds : Z → Z → Z → Z;
  (** [d.setMinutes(min)] *)
  Date_setMinutes : Z → Z → Z;
  (** [d.setMinutes(min, sec, ms)] *)
  Date_setMinutes_full : Z → Z → Z → Z → Z;
  (** [d.setHours(hours)] *)
  Date_setHours : Z → Z → Z;
}.

Section buildTimeTicks.
Context `{LocalDate}.

Definition stepMinutes_of (rangeStart rangeEnd : Z) : Z :=
  let rangeMs := rangeEnd - rangeStart in
  let hours := (inject_Z rangeMs / inject_Z (1000 * 60 * 60))%Q in
  if Qle_bool hours 6 then 30
  else if Qle_bool hours 12 then 60
  else if Qle_bool hours 24 then 120
  else if Qle_bool hours 48 then 240
  else 360.

(** [start.getTime()] after the alignment of [new Date(rangeStart)] to the
    step. *)
Definition alignedStart (rangeStart stepMinutes : Z) : Z :=
  let start := rangeStart in
  let start := Date_setSeconds start 0 0 in
  if 60 <=? stepMinutes then
    let start := Date_setMinutes_full start 0 0 0 in
    let stepHours := stepMinutes / 60 in
    let hour := Date_getHours start in
    let remainder := Z.rem hour stepHours in
    if negb (remainder =? 0) then Date_setHours start (hour + (stepHours - remainder))
    else start
  else
    let minutes := Date_getMinutes start in
    let remainder := Z.rem minutes stepMinutes in
    if negb (remainder =? 0) then Date_setMinutes start (minutes + (stepMinutes - remainder))
    else start.

(** [for (let t = ...; t <= rangeEnd; t += stepMs) if (t >= rangeStart &&
    t <= rangeEnd) ticks.push(t)]; [fuel] bounds the number of iterations. *)
Fixpoint tick_loop (fuel : nat) (t rangeStart rangeEnd stepMs : Z) : list Z :=
  match fuel with
  | O => []
  | S fuel =>
      if t <=? rangeEnd then
        (if (rangeStart <=? t) && (t <=? rangeEnd) then [t] else [])
        ++ tick_loop fuel (t + stepMs) rangeStart rangeEnd stepMs
      else []
  end.

(** The loop makes [floor((rangeEnd - start) / stepMs) + 1] iterations when
    [start <= rangeEnd], and none otherwise. *)
Definition buildTimeTicks (rangeStart rangeEnd : Z) : list Z :=
  if rangeEnd <=? rangeStart then []
  else
    let stepMinutes := stepMinutes_of rangeStart rangeEnd in
    let stepMs := stepMinutes * 60 * 1000 in
    let start := alignedStart rangeStart stepMinutes in
    let ticks :=
      tick_loop (Z.to_nat ((rangeEnd - start) / stepMs + 1)) start rangeStart rangeEnd stepMs in
    match ticks with
    | [] =>
        (* [[rangeStart, rangeEnd].filter((time, index, arr) =>
           arr.indexOf(time) === index)] *)
        if rangeEnd =? rangeStart then [rangeStart] else [rangeStart; rangeEnd]
    | first :: _ =>
        let ticks := if negb (first =? rangeStart) then rangeStart :: ticks else ticks in
        if negb (default 0 (last ticks) =? rangeEnd) then ticks ++ [rangeEnd] else ticks
    end.
End buildTimeTicks.

(** ** nezha-api: [fetchServerGroup] *)

(** A property of the node listing as [fetchServerGroup] reads it: a node
    object with its [group] ([None] when absent), or a string. *)
Inductive GroupNodeValue :=
  | GroupNodeObject (node_group : option string)
  | GroupNodeString (s : string).

Definition GroupNodes := list (string * GroupNodeValue).

(** The response [fetchServerGroup] builds: [{ success, data }], where an
    entry of [data] is [{ group: { id, created_at, updated_at, name },
    servers }]. *)
Record ServerGroup := {
  group_id : Z;
  group_created_at : string;
  group_updated_at : string;
  group_name : string;
}.

Record ServerGroupItem := { group : ServerGroup; servers : list Z }.

Record ServerGroupResponse := { group_success : bool; group_data : list ServerGroupItem }.

(** What [fetchServerGroup] takes from its environment besides
    [uuidToNumber]: the node listing, and luxon's [DateTime.now().toISO()]
    at the [k]-th reading of the clock ([None] is [null]). *)
Class GroupUpstream := {
  getGroupNodes : GroupNodes;
  DateTime_now_toISO : nat → option string;
}.

Section fetchServerGroup.
Context `{Upstream} `{GroupUpstream}.

(** [value.group], when truthy. *)
Definition group_of (value : GroupNodeValue) : option string :=
  match value with
  | GroupNodeObject (Some g) => if String.eqb g EmptyString then None else Some g
  | _ => None
  end.

(** [kmNodes?.error], when truthy, with the message thrown. *)
Definition group_nodes_error (kmNodes : GroupNodes) : option string :=
  match snd <$> List.find (λ kv, String.eqb (fst kv) "error") kmNodes with
  | Some (GroupNodeString s) => if String.eqb s EmptyString then None else Some s
  | Some (GroupNodeObject _) => Some "[object Object]"%string
  | None => None
  end.

(** The [forEach] that extracts the groups. *)
Definition extractGroups (kmNodes : GroupNodes) : list string :=
  foldl (λ groups kv,
           match group_of (snd kv) with
           | Some g => if existsb (String.eqb g) groups then groups else groups ++ [g]
           | None => groups
           end) [] kmNodes.

(** [Object.entries(kmNodes).filter(([_, value]) => value.group === group)
    .map(([key, _]) => uuidToNumber(key))], for a truthy [group]. *)
Definition serversOf (kmNodes : GroupNodes) (g : string) : list Z :=
  map (λ kv, uuidToNumber (fst kv))
      (List.filter (λ kv, match snd kv with
                          | GroupNodeObject (Some g') => String.eqb g' g
                          | _ => false
                          end) kmNodes).

(** [DateTime.now().toISO() || ""] *)
Definition nowISO : Async string := λ w,
  (Returned (default EmptyString (DateTime_now_toISO (ticks w))),
   {| ticks := S (ticks w); calls := calls w |}).

(** [groups.map((group, index) => ...)], from the index [index] on. *)
Fixpoint groupItems (kmNodes : GroupNodes) (groups : list string) (index : Z)
    : Async (list ServerGroupItem) :=
  match groups with
  | [] => mret []
  | g :: rest =>
      created ← nowISO;
      updated ← nowISO;
      rest' ← groupItems kmNodes rest (index + 1);
      mret ({| group := {| group_id := index; group_created_at := created;
                           group_updated_at := updated; group_name := g |};
               servers := serversOf kmNodes g |} :: rest')
  end.

Definition fetchServerGroup : Async ServerGroupResponse :=
  kmNodes ← (emit EvGetKomariNodes;; mret getGroupNodes);
  match group_nodes_error kmNodes with
  | Some msg => throw msg
  | None =>
      let groups := extractGroups kmNodes in
      items ← groupItems kmNodes groups 0;
      mret {| group_success := true; group_data := items |}
  end.
End fetchServerGroup.

(** ** ServerDetail: the range options *)

(** [type RangeValue = number | "realtime"]; the numbers are whole hours. *)
Inductive RangeValue :=
  | Realtime
  | Hours (h : Z).

(** [a === b] on range values. *)
Definition RangeValue_eqb (a b : RangeValue) : bool :=
  match a, b with
  | Realtime, Realtime => true
  | Hours x, Hours y => x =? y
  | _, _ => false
  end.

Record RangeOption := { option_value : RangeValue; option_label : string }.

(** [safeMax] of [buildRangeOptions]. *)
Definition safeMax_of (maxHours : number) (baseHours : list Z) : Z :=
  let baseMax := match baseHours with [] => 24 | h :: hs => foldl Z.max h hs end in
  match maxHours with
  | Num q => if Qgt_bool q 0 then Qfloor q else baseMax
  | _ => baseMax
  end.

Definition buildRangeOptions (maxHours : number) (baseHours : list Z)
    (formatLabel : Z → string) (realtimeLabel : string)
    (hideMaxWhenBelowOrEqual : option Z) : list RangeOption :=
  let safeMax := safeMax_of maxHours baseHours in
  let rangeOptions := [{| option_value := Realtime; option_label := realtimeLabel |}] in
  if match hideMaxWhenBelowOrEqual with Some h => safeMax <=? h | None => false end
  then rangeOptions
  else
    let filteredBase := List.filter (λ hours, hours <=? safeMax) baseHours in
    let rangeOptions :=
      rangeOptions
      ++ map (λ hours, {| option_value := Hours hours; option_label := formatLabel hours |})
             filteredBase in
    if existsb (Z.eqb safeMax) filteredBase then rangeOptions
    else rangeOptions
         ++ [{| option_value := Hours safeMax; option_label := formatLabel safeMax |}].

(** The effect that repairs a selected range that is no longer offered:
    [if (!options.some((option) => option.value === range))
       setRange(options[options.length - 1]?.value ?? "realtime")] *)
Definition reconcileRange (options : list RangeOption) (range : RangeValue) : RangeValue :=
  if existsb (λ option, RangeValue_eqb (option_value option) range) options then range
  else match last options with
       | Some option => option_value option
       | None => Realtime
       end.

(** [networkRange === "realtime" ? 1 : networkRange] *)
Definition networkRangeHours (networkRange : RangeValue) : Z :=
  match networkRange with Realtime => 1 | Hours h => h end.

(** The options of the network tab of [ServerDetail]. *)
Definition networkOptions (maxHours : number) (formatLabel : Z → string)
    (realtimeLabel : string) : list RangeOption :=
  buildRangeOptions maxHours [6; 12; 24; 168] formatLabel realtimeLabel (Some 1).

(** ** ServerDetailChart: history records and the realtime buffers *)

Section historyRecords.
Context `{Runtime}.
(** A [NezhaLoadRecord], of which only [time] is read here. *)
Context {NezhaLoadRecord : Type} (record_time : NezhaLoadRecord → string).

(** [historyRecordsWithTs]: the records whose [time] parses, each with its
    timestamp, sorted by it. *)
Definition historyRecordsWithTs (records : list NezhaLoadRecord)
    : list (NezhaLoadRecord * Z) :=
  match records with
  | [] => []
  | _ =>
      sort_by (λ a b, snd a <=? snd b)
        (omap (λ record, (λ ts, (record, ts)) <$> Date_parse (record_time record))
              records)
  end.

(** [historyRecordsWithTs.map((item) => item.record)] *)
Definition historyRecords (records : list NezhaLoadRecord) : list NezhaLoadRecord :=
  map fst (historyRecordsWithTs records).

(** [getLastRecord]: [None] is [undefined]. *)
Definition getLastRecord (historyRecords : list NezhaLoadRecord) : option NezhaLoadRecord :=
  if (0 <? length historyRecords)%nat then historyRecords !! (length historyRecords - 1)%nat
  else None.
End historyRecords.

(** The updater every realtime chart passes to its [set...ChartData]: the
    first point is entered twice, a later point is appended and the oldest
    point dropped once the buffer holds more than 30. *)
Definition pushRealtimePoint {A} (prevData : list A) (point : A) : list A :=
  match prevData with
  | [] => [point; point]
  | _ =>
      let newData := prevData ++ [point] in
      if (30 <? length newData)%nat then tail newData else newData
  end.

Local Open Scope Q_scope.

(* ===================================================================== *)
(** * Part II: vocabulary of the properties                                *)
(* ===================================================================== *)

Local Open Scope Z_scope.

(** ** The adapter and the assembler *)

(** The timestamps and the values a series map holds for the task [id]. *)
Definition series_times (id : Z) (m : list (Z * NezhaMonitor)) : list Z :=
  match series_get id m with Some s => created_at s | None => [] end.

Definition series_values (id : Z) (m : list (Z * NezhaMonitor)) : list (option Q) :=
  match series_get id m with Some s => avg_delay s | None => [] end.

(** What [padEmpty] makes of a series: a series without values becomes one
    synthetic point at a reading of the clock, with a [null] value; any
    other series is kept. *)
Definition padded `{Runtime} (s s' : NezhaMonitor) : Prop :=
  match avg_delay s with
  | [] => avg_delay s' = [None] ∧ (∃ k, created_at s' = [Date_now k])
          ∧ monitor_id s' = monitor_id s ∧ monitor_name s' = monitor_name s
  | _ => s' = s
  end.

(** ** The sample interval *)

(** The median of a list: the middle element of its sorted rearrangement,
    or the mean of the two middle elements. *)
Definition is_median (values : list Z) (median : Q) : Prop :=
  ∃ sorted, Sorted Z.le sorted ∧ sorted ≡ₚ values ∧
    let mid := (length values / 2)%nat in
    if Nat.odd (length values) then ∃ a, sorted !! mid = Some a ∧ median = inject_Z a
    else ∃ a b, sorted !! (mid - 1)%nat = Some a ∧ sorted !! mid = Some b
                ∧ median = ((inject_Z a + inject_Z b) / 2)%Q.

(** ** Offline spans *)

(** One span ends before the other starts. *)
Definition span_before (a b : OfflineSpan) : Prop := end_ a <= start b.

(** Spans that are not empty, pairwise disjoint and in ascending order. *)
Definition spans_ordered (spans : list OfflineSpan) : Prop :=
  Forall (λ s, start s < end_ s) spans ∧ StronglySorted span_before spans.

(** ** The time range *)

(** The timestamps of all series, and their least and greatest element. *)
Definition all_times (data : list NezhaMonitor) : list Z := flat_map created_at data.

Definition min_of (times : list Z) : option Z :=
  match times with [] => None | t :: times => Some (foldl Z.min t times) end.

Definition max_of (times : list Z) : option Z :=
  match times with [] => None | t :: times => Some (foldl Z.max t times) end.

(** The last [max(1, floor(hours))] hours before [now]. *)
Definition last_resort (rangeHours : Q) (now : Z) : Z * Z :=
  (now - Z.max 1 (Qfloor rangeHours) * 3600000, now).

(** The derivation of the time range in the words of the specification:
    the reported pair when both ends are finite and in order; otherwise the
    observed least and greatest timestamp; otherwise the last hours before
    now. *)
Definition getTimeRange_spec `{Runtime} (data : list NezhaMonitor) (rangeHours : Q)
    (from to : option string) (now : Z) : Z * Z :=
  let observed :=
    match min_of (all_times data), max_of (all_times data) with
    | Some a, Some b => if a <? b then (a, b) else last_resort rangeHours now
    | _, _ => last_resort rangeHours now
    end in
  match parse_optional from, parse_optional to with
  | Some a, Some b => if a <? b then (a, b) else observed
  | _, _ => observed
  end.

(** An end of the range before the last resort: the reported one when it
    parses to a finite timestamp, otherwise the observed one. *)
Definition start_candidate `{Runtime} (data : list NezhaMonitor) (from : option string)
    : option Z :=
  match parse_optional from with
  | Some a => Some a
  | None => min_of (all_times data)
  end.

Definition end_candidate `{Runtime} (data : list NezhaMonitor) (to : option string)
    : option Z :=
  match parse_optional to with
  | Some b => Some b
  | None => max_of (all_times data)
  end.

(** ** The formatter *)

(** A valid observed point of a series: a timestamp of the series whose
    value is not [null]. *)
Definition valid_point (item : NezhaMonitor) (p : ValidPoint) : Prop :=
  ∃ i, created_at item !! i = Some (point_time p)
       ∧ avg_delay item !! i = Some (Some (point_value p)).

(** [p] is a valid point before [t], and no valid point lies between. *)
Definition nearest_preceding (item : NezhaMonitor) (t : Z) (p : ValidPoint) : Prop :=
  valid_point item p ∧ point_time p < t
  ∧ ∀ q, valid_point item q → point_time q < t → point_time q <= point_time p.

(** [p] is a valid point after [t], and no valid point lies between. *)
Definition nearest_following (item : NezhaMonitor) (t : Z) (p : ValidPoint) : Prop :=
  valid_point item p ∧ t < point_time p
  ∧ ∀ q, valid_point item q → t < point_time q → point_time p <= point_time q.

(** The points [prev] and [next] bound [t] in the series: each is a nearest
    valid point on its side, or there is no valid point on that side. *)
Definition bounds (item : NezhaMonitor) (t : Z) (prev next : option ValidPoint) : Prop :=
  match prev with
  | Some p => nearest_preceding item t p
  | None => ∀ q, valid_point item q → ¬ point_time q < t
  end
  ∧ match next with
    | Some n => nearest_following item t n
    | None => ∀ q, valid_point item q → ¬ t < point_time q
    end.

(** Points in ascending order of their time. *)
Definition point_le (p q : ValidPoint) : Prop := point_time p <= point_time q.

(** The cursor of the inner loop of [formatData] between two steps, before
    the timestamp [bound]: the points before [nextIndex] are before [bound],
    and [prevPoint] is the point before [nextIndex]. *)
Definition cursor_ok (tb : SeriesTables) (c : Cursor) (bound : Z) : Prop :=
  (nextIndex c <= length (validPoints tb))%nat
  ∧ (∀ j q, (j < nextIndex c)%nat → validPoints tb !! j = Some q → point_time q < bound)
  ∧ prevPoint c = match nextIndex c with O => None | S m => validPoints tb !! m end.

(** The two keys [formatData] writes for a series. *)
Definition keys_of (item : NezhaMonitor) : list string :=
  [monitor_name item; monitor_name item +:+ "_packet_loss"].

(** No series is named like one of the two columns every row has, and no
    series other than the one at [idx] writes one of the keys [formatData]
    writes for that one. *)
Definition keys_separate (rawData : list NezhaMonitor) (idx : nat) : Prop :=
  (∀ other, other ∈ rawData →
     monitor_name other ≠ "created_at"%string ∧ monitor_name other ≠ OFFLINE_KEY)
  ∧ ∀ item j other, rawData !! idx = Some item → rawData !! j = Some other → j ≠ idx →
      ∀ key, key ∈ keys_of item → key ∉ keys_of other.

(** ** The peak-cut filter *)

(** The window of the filter for the row [index]: the eleven rows ending at
    it. *)
Definition window_of (activeCharts : list string) (formattedData : list ResultItem)
    (index : nat) : list ResultItem :=
  slice (index + 1 - peak_windowSize) (index + 1) (baseData activeCharts formattedData).

(** ** The packet-loss estimator *)

(** A lost probe, as the element [delays[i]] of the input: [null], or a
    delay of 0. *)
Definition lost_probe (delay : option (option Q)) : Prop :=
  match delay with
  | Some None => True
  | Some (Some d) => (d == 0)%Q
  | None => False
  end.

(** ** The adapter: what a payload holds *)

Local Open Scope Z_scope.

(** The request [fetchMonitor] sends for the node [uuid]. *)
Definition ping_request (uuid : string) (hours : Q) : RecordsRequest :=
  {| req_type := "ping"; req_uuid := uuid; req_maxCount := 4000;
     req_hours := Z.max 1 (Qfloor hours) |}.

(** The tasks and the records of a payload of one of the accepted shapes. *)
Definition payload_tasks (km_monitors : Payload) : list MonitorTask :=
  match km_monitors with
  | PayloadObject _ (Some tasks) (Some _) => tasks
  | _ => []
  end.

Definition payload_records (km_monitors : Payload) : list MonitorRecord :=
  match km_monitors with
  | PayloadObject _ _ (Some records) => records
  | PayloadArray recs => recs
  | _ => []
  end.

(** The task a record belongs to, and the point it contributes when its
    time parses and its value is a finite number: the timestamp with the
    value, [null] standing for the value -1 of a lost probe. *)
Definition record_task (rec : MonitorRecord) : Z := default 0 (task_id rec).

Definition record_point `{Runtime} (rec : MonitorRecord) : option (Z * option Q) :=
  match Date_parse (default EmptyString (time rec)), Number_of (value rec) with
  | Some ts, Num val => Some (ts, if Qeq_bool val (-1) then None else Some val)
  | _, _ => None
  end.

(** The points the records contribute to the task [id], in the order of the
    records. *)
Definition points_of `{Runtime} (id : Z) (records : list MonitorRecord)
    : list (Z * option Q) :=
  omap (λ rec, if record_task rec =? id then record_point rec else None) records.

(** The distinct elements of a list, in the order of their first
    occurrence. *)
Definition first_occurrences (l : list Z) : list Z :=
  foldl (λ acc x, if bool_decide (x ∈ acc) then acc else acc ++ [x]) [] l.

(** The task ids of a payload: those of its tasks, then those of its
    records. *)
Definition payload_ids (km_monitors : Payload) : list Z :=
  map id (payload_tasks km_monitors) ++ map record_task (payload_records km_monitors).

(** ** Concrete inputs *)

Local Open Scope Z_scope.

(** A runtime for the examples: [Date.parse] on the few ISO strings used,
    [Math.sqrt] truncated to six decimals, a clock started in 2023. *)
Definition demo_runtime : Runtime :=
  {| Date_parse := λ s,
       if String.eqb s "1970-01-01T00:00:00.000Z" then Some 0
       else if String.eqb s "1970-01-01T00:00:01.000Z" then Some 1000
       else if String.eqb s "1970-01-01T00:00:02.000Z" then Some 2000
       else if String.eqb s "1970-01-01T00:02:00.000Z" then Some 120000
       else if String.eqb s "1970-01-01T00:05:00.000Z" then Some 300000
       else None;
     Math_sqrt := λ q, (inject_Z (Z.sqrt (Qfloor (q * 1000000000000))) / 1000000)%Q;
     Date_now := λ k, 1700000000000 + Z.of_nat k |}.

(** An upstream with one node, numbered 1, and two records of the task 3 at
    the same instant. *)
Definition demo_upstream : Upstream :=
  {| uuidToNumber := λ s, if String.eqb s "node-1" then 1 else 0;
     getKomariNodes := [("node-1"%string, NodeObject (Some "alpha"%string))];
     getRecords := λ _,
       PayloadObject None None
         (Some [ {| task_id := Some 3; time := Some "1970-01-01T00:00:01.000Z"%string;
                    value := Some (Num 5); name := Some "ping"%string |};
                 {| task_id := Some 3; time := Some "1970-01-01T00:00:01.000Z"%string;
                    value := Some (Num 6); name := Some "ping"%string |} ]) |}.

Definition demo_world : World := {| ticks := 0; calls := [] |}.

(** The response of [fetchMonitor] for the node 1 of the demo upstream. *)
Definition demo_fetch : Outcome MonitorResponse * World :=
  @fetchMonitor demo_runtime demo_upstream 1 24 demo_world.

Definition demo_response : MonitorResponse :=
  match fst demo_fetch with
  | Returned resp => resp
  | Thrown _ => {| success := false; data := []; from := None; to := None |}
  end.

(** The scenario of the specification: one series with the points (0, 10),
    (60000, 20), (300000, 30), displayed on the range [0, 300000]. *)
Definition scenario_series : NezhaMonitor :=
  {| monitor_id := 1; monitor_name := "ping"; server_id := 1; server_name := "server";
     created_at := [0; 60000; 300000];
     avg_delay := [Some 10%Q; Some 20%Q; Some 30%Q];
     packet_loss := None |}.

(** The columns of a formatted row the scenario is about: the timestamp, the
    value of the series and the offline marker. *)
Definition scenario_columns (row : ResultItem) :=
  (row !! "created_at"%string, row !! "ping"%string, row !! OFFLINE_KEY).

(** Two series: [series_a] has the same value at 0 and at 2000, [series_b]
    has its only sample at 1000, where [series_a] has none. *)
Definition series_a : NezhaMonitor :=
  {| monitor_id := 1; monitor_name := "a"; server_id := 1; server_name := "server";
     created_at := [0; 2000]; avg_delay := [Some 10%Q; Some 10%Q]; packet_loss := None |}.

Definition series_b : NezhaMonitor :=
  {| monitor_id := 2; monitor_name := "b"; server_id := 1; server_name := "server";
     created_at := [1000]; avg_delay := [Some 7%Q]; packet_loss := None |}.

Definition two_series : list NezhaMonitor := [series_a; series_b].

Definition two_series_timeline : TimelineData := buildTimelineData two_series 0 2000.

(** Eleven formatted rows of one monitor: ten samples of 5 ms, then an
    offline row without value. *)
Definition sample_row (t : Z) : ResultItem :=
  <["ping"%string := Some 5%Q]>
    (<[OFFLINE_KEY := None]> {[ "created_at"%string := Some (inject_Z t) ]}).

Definition offline_row (t : Z) : ResultItem :=
  <["ping"%string := None]>
    (<[OFFLINE_KEY := Some 1%Q]> {[ "created_at"%string := Some (inject_Z t) ]}).

Definition eleven_rows : list ResultItem :=
  map (λ k, sample_row (Z.of_nat k * 1000)) (seq 0 10) ++ [offline_row 10000].

Local Open Scope Q_scope.
(** An upstream whose node listing is the error object [{error: "boom"}]:
    its only key is [error], which is no node. *)
Definition failing_upstream : Upstream :=
  {| uuidToNumber := λ s, if String.eqb s "node-1" then 1%Z else 0%Z;
     getKomariNodes := [("error"%string, NodeString "boom")];
     getRecords := λ _, PayloadOther |}.


(* ===================================================================== *)
(** * Part III: properties                                                 *)
(* ===================================================================== *)

Local Open Scope Z_scope.

(** ** The stable sort *)

Section sort_by_facts.
Context {A : Type} (leb : A → A → bool).

Lemma insert_sorted_Permutation x l : insert_sorted leb x l ≡ₚ x :: l.
Proof.
  induction l as [|y l IH]; simpl; [done|].
  destruct (leb x y); [done|].
  rewrite IH. apply Permutation_swap.
Qed.

Lemma sort_by_Permutation l : sort_by leb l ≡ₚ l.
Proof.
  induction l as [|x l IH]; simpl; [done|].
  by rewrite insert_sorted_Permutation, IH.
Qed.

Lemma sort_by_length l : length (sort_by leb l) = length l.
Proof. by rewrite sort_by_Permutation. Qed.

Lemma sort_by_elem_of x l : x ∈ sort_by leb l ↔ x ∈ l.
Proof. by rewrite sort_by_Permutation. Qed.

Hypothesis leb_total : ∀ a b, leb a b = false → leb b a = true.

Lemma insert_sorted_Sorted x l :
  Sorted (λ a b, leb a b = true) l → Sorted (λ a b, leb a b = true) (insert_sorted leb x l).
Proof.
  induction l as [|y l IH]; simpl; intros Hs.
  - repeat constructor.
  - destruct (leb x y) eqn:Hxy.
    + constructor; [done|]. by constructor.
    + apply Sorted_inv in Hs as [Hs Hhd].
      constructor; [by apply IH|].
      destruct l as [|z l]; simpl.
      * constructor. by apply leb_total.
      * destruct (leb x z); constructor.
        -- by apply leb_total.
        -- by apply HdRel_inv in Hhd.
Qed.

Lemma sort_by_Sorted l : Sorted (λ a b, leb a b = true) (sort_by leb l).
Proof.
  induction l as [|x l IH]; simpl; [constructor|].
  by apply insert_sorted_Sorted.
Qed.
End sort_by_facts.

Lemma Sorted_mono {A} (R1 R2 : A → A → Prop) l :
  (∀ a b, R1 a b → R2 a b) → Sorted R1 l → Sorted R2 l.
Proof.
  intros HR. induction 1 as [|x l Hs IH Hhd]; constructor; [done|].
  destruct Hhd; constructor; auto.
Qed.

Lemma sort_Z_Sorted l : Sorted Z.le (sort_Z l).
Proof.
  apply Sorted_mono with (R1 := λ a b, Z.leb a b = true).
  - intros a b. apply Z.leb_le.
  - apply sort_by_Sorted. intros a b. rewrite Z.leb_gt, Z.leb_le. lia.
Qed.

Lemma sort_Z_StronglySorted l : StronglySorted Z.le (sort_Z l).
Proof. apply Sorted_StronglySorted; [intros ???; lia|apply sort_Z_Sorted]. Qed.

Lemma sort_Z_elem_of x l : x ∈ sort_Z l ↔ x ∈ l.
Proof. apply sort_by_elem_of. Qed.

Lemma Sorted_le_NoDup_lt (l : list Z) : Sorted Z.le l → NoDup l → Sorted Z.lt l.
Proof.
  intros Hs Hnd. apply Sorted_StronglySorted in Hs; [|intros ???; lia].
  induction Hs as [|x l Hs IH Hall]; [constructor|].
  apply NoDup_cons in Hnd as [Hx Hnd].
  constructor; [by apply IH|].
  destruct l as [|y l]; constructor.
  apply Forall_cons in Hall as [Hxy _].
  assert (x ≠ y) by (intros ->; apply Hx; left). lia.
Qed.

Lemma sort_Z_NoDup_lt l : NoDup l → Sorted Z.lt (sort_Z l).
Proof.
  intros Hnd. apply Sorted_le_NoDup_lt; [apply sort_Z_Sorted|].
  unfold sort_Z. by rewrite sort_by_Permutation.
Qed.

(** ** nezha-api: the adapter and the assembler *)


Section nezha_api_facts.
Context `{Runtime} `{Upstream}.

Lemma series_get_app id m kv :
  series_get id (m ++ [kv]) =
    match series_get id m with
    | Some s => Some s
    | None => if fst kv =? id then Some (snd kv) else None
    end.
Proof.
  unfold series_get. induction m as [|[k s] m IH]; simpl.
  - by destruct (fst kv =? id).
  - destruct (k =? id); simpl; [done|]. apply IH.
Qed.

Lemma series_has_get id m : series_has id m = bool_decide (is_Some (series_get id m)).
Proof.
  unfold series_has, series_get. induction m as [|[k s] m IH]; simpl.
  - done.
  - destruct (k =? id); simpl; done.
Qed.

Lemma ensureSeries_times srv sname id name id' m :
  series_times id' (ensureSeries srv sname id name m) = series_times id' m.
Proof.
  unfold ensureSeries, series_times. rewrite series_has_get.
  case_bool_decide as Hs; [done|].
  rewrite series_get_app. destruct (series_get id' m); [done|]. simpl.
  by destruct (id =? id').
Qed.

Lemma ensureSeries_values srv sname id name id' m :
  series_values id' (ensureSeries srv sname id name m) = series_values id' m.
Proof.
  unfold ensureSeries, series_values. rewrite series_has_get.
  case_bool_decide as Hs; [done|].
  rewrite series_get_app. destruct (series_get id' m); [done|]. simpl.
  by destruct (id =? id').
Qed.

Lemma ensureSeries_has srv sname id name m :
  is_Some (series_get id (ensureSeries srv sname id name m)).
Proof.
  unfold ensureSeries. rewrite series_has_get.
  case_bool_decide as Hs; [done|].
  rewrite series_get_app. destruct (series_get id m); [eauto|]. simpl.
  rewrite Z.eqb_refl. eauto.
Qed.

Lemma series_get_push_point id ts v id' m :
  series_get id' (push_point id ts v m) =
    if id' =? id
    then (λ s, with_points s (created_at s ++ [ts]) (avg_delay s ++ [v])) <$> series_get id' m
    else series_get id' m.
Proof.
  unfold series_get, push_point. induction m as [|[k s] m IH]; simpl.
  - by destruct (id' =? id).
  - destruct (k =? id) eqn:Hk; simpl; destruct (k =? id') eqn:Hk'; simpl.
    + apply Z.eqb_eq in Hk, Hk'. subst. by rewrite Z.eqb_refl.
    + apply IH.
    + apply Z.eqb_neq in Hk. apply Z.eqb_eq in Hk'. subst.
      destruct (id' =? id) eqn:Hid; [apply Z.eqb_eq in Hid; done|done].
    + apply IH.
Qed.

(** The effect of [appendRecord] on the points of every series. *)
Lemma appendRecord_points srv sname rec nameOverride m id' :
  let id := default 0 (task_id rec) in
  let m' := appendRecord srv sname rec nameOverride m in
  match Date_parse (default EmptyString (time rec)), Number_of (value rec) with
  | Some ts, Num val =>
      if id' =? id then
        series_times id' m' = series_times id' m ++ [ts] ∧
        series_values id' m' =
          series_values id' m ++ [if Qeq_bool val (-1) then None else Some val]
      else series_times id' m' = series_times id' m ∧
           series_values id' m' = series_values id' m
  | _, _ =>
      series_times id' m' = series_times id' m ∧
      series_values id' m' = series_values id' m
  end.
Proof.
  intros id m'. subst m'. unfold appendRecord.
  replace (match task_id rec with Some n => n | None => 0 end) with id by done.
  set (nm := match nameOverride with Some n => n | None => _ end).
  pose proof (ensureSeries_times srv sname id nm id' m) as Ht.
  pose proof (ensureSeries_values srv sname id nm id' m) as Hv.
  destruct (Date_parse _) as [ts|]; [|done].
  destruct (Number_of _) as [val| | |]; try done.
  unfold series_times, series_values in *.
  rewrite series_get_push_point.
  destruct (id' =? id) eqn:Hid; [|done].
  apply Z.eqb_eq in Hid. subst id'.
  destruct (ensureSeries_has srv sname id nm m) as [s Hs].
  rewrite Hs in Ht, Hv |- *. simpl. by rewrite Ht, Hv.
Qed.

(** C3: [appendRecord] adds a point to the series of the record's task
    exactly when the record's time parses to a finite timestamp and its
    value is a finite number; the point added carries the parsed timestamp
    and the value, a value of [-1] being stored as [null] (the point is
    kept, not dropped); the points of no other series change. *)
Theorem appendRecord_appends_iff_finite srv sname rec nameOverride m :
  let id := default 0 (task_id rec) in
  let m' := appendRecord srv sname rec nameOverride m in
  let ts := Date_parse (default EmptyString (time rec)) in
  let val := Number_of (value rec) in
  ((is_Some ts ∧ Number_isFinite val = true)
     ↔ length (series_times id m') = S (length (series_times id m)))
  ∧ ((is_Some ts ∧ Number_isFinite val = true)
     ↔ length (series_values id m') = S (length (series_values id m)))
  ∧ (¬ (is_Some ts ∧ Number_isFinite val = true) →
     series_times id m' = series_times id m ∧ series_values id m' = series_values id m)
  ∧ (∀ t v, ts = Some t → val = Num v →
     series_times id m' = series_times id m ++ [t] ∧
     series_values id m' =
       series_values id m ++ [if Qeq_bool v (-1) then None else Some v])
  ∧ (∀ t v, ts = Some t → val = Num v → (v == -1)%Q →
     series_times id m' = series_times id m ++ [t] ∧
     series_values id m' = series_values id m ++ [None])
  ∧ (∀ id', id' ≠ id →
     series_times id' m' = series_times id' m ∧ series_values id' m' = series_values id' m).
Proof.
  intros id m' ts val.
  pose proof (appendRecord_points srv sname rec nameOverride m id) as Hid.
  fold id m' ts val in Hid. simpl in Hid. rewrite Z.eqb_refl in Hid.
  assert (Hother : ∀ id', id' ≠ id →
    series_times id' m' = series_times id' m ∧ series_values id' m' = series_values id' m).
  { intros id' Hne.
    pose proof (appendRecord_points srv sname rec nameOverride m id') as Hid'.
    fold id m' ts val in Hid'. simpl in Hid'.
    apply Z.eqb_neq in Hne. rewrite Hne in Hid'.
    destruct ts; [|done]. by destruct val. }
  destruct ts as [t|]; [destruct val as [v| | |]|]; simpl;
    destruct Hid as [Ht Hv]; rewrite ?Ht, ?Hv, ?length_app; simpl;
    split_and!; try done;
    try (split; [intros [[? ?] ?]; done || lia | intros; lia || eauto]);
    try (intros [[? ?] ?]; done);
    try (intros [_ ?]; done).
  - intros Hn. destruct Hn. split; [eauto|done].
  - by intros ? ? [= <-] [= <-].
  - intros ? ? [= <-] [= <-] Hm. apply Qeq_bool_iff in Hm. by rewrite Hm.
Qed.
End nezha_api_facts.


Section assembler_facts.
Context `{Runtime} `{Upstream}.

Lemma padEmpty_spec data0 w :
  ∃ data' w', padEmpty data0 w = (Returned data', w')
              ∧ calls w' = calls w ∧ Forall2 padded data0 data'.
Proof.
  revert w. induction data0 as [|s rest IH]; intros w.
  - exists [], w. by repeat split.
  - simpl. unfold mbind, Async_bind, mret, Async_ret.
    destruct (Nat.eqb (length (avg_delay s)) 0) eqn:Hlen.
    + simpl.
      destruct (IH {| ticks := S (ticks w); calls := calls w |}) as (d' & w' & -> & Hc & Hf).
      eexists _, _. split; [done|]. split; [done|].
      constructor; [|done]. unfold padded.
      apply Nat.eqb_eq in Hlen. destruct (avg_delay s); [|done]. simpl. eauto.
    + destruct (IH w) as (d' & w' & -> & Hc & Hf).
      eexists _, _. split; [done|]. split; [done|].
      constructor; [|done]. unfold padded. by destruct (avg_delay s).
Qed.

Lemma sortSeries_wf s :
  length (created_at (sortSeries s)) = length (avg_delay (sortSeries s))
  ∧ Sorted Z.le (created_at (sortSeries s)).
Proof.
  unfold sortSeries. simpl. split; [by rewrite !length_map|].
  set (zip := imap _ _).
  pose proof (sort_by_Sorted (λ a b : Z * option Q, fst a <=? fst b)) as Hs.
  specialize (Hs ltac:(intros a b; rewrite Z.leb_gt, Z.leb_le; lia) zip).
  induction Hs as [|x l Hs IH Hhd]; simpl; constructor; [done|].
  destruct Hhd; simpl; constructor. by apply Z.leb_le.
Qed.

(** The series of a returned response: the empty list, or the padded,
    sorted series collected from a payload. *)
Lemma fetchMonitor_returned server_id hours w resp w' :
  fetchMonitor server_id hours w = (Returned resp, w') →
  data resp = []
  ∨ ∃ serverName km_monitors,
      Forall2 padded
        (map (λ kv, sortSeries (snd kv)) (collectSeries server_id serverName km_monitors))
        (data resp).
Proof.
  unfold fetchMonitor, await_getKomariNodes, await_getRecords.
  unfold mbind, Async_bind, mret, Async_ret, emit, throw. simpl.
  destruct (nodes_error getKomariNodes); [done|].
  destruct (List.find _ _) as [uuid|]; [|intros [= <- _]; by left].
  destruct (String.eqb uuid EmptyString); [intros [= <- _]; by left|].
  destruct (payload_error _); [done|].
  match goal with |- context [padEmpty ?d ?w0] =>
    destruct (padEmpty_spec d w0) as (d' & w1 & -> & _ & Hf) end.
  intros [= <- _]. right. eauto.
Qed.

(** C7 (as amended): every series of a returned response has as many
    timestamps as values, has its timestamps in ascending order (strictly
    ascending when no timestamp occurs twice in it) and is not empty; and
    padding always returns, turning a series without values into a single
    point at a reading of the clock with a [null] value. *)
Theorem fetchMonitor_series_wellformed server_id hours w resp w' :
  fetchMonitor server_id hours w = (Returned resp, w') →
  (∀ s, s ∈ data resp →
     length (created_at s) = length (avg_delay s)
     ∧ Sorted Z.le (created_at s)
     ∧ (NoDup (created_at s) → Sorted Z.lt (created_at s))
     ∧ (0 < length (avg_delay s))%nat)
  ∧ (∀ data0 w0, ∃ data' w1,
       padEmpty data0 w0 = (Returned data', w1) ∧ Forall2 padded data0 data').
Proof.
  intros Hret. split.
  - intros s Hs.
    assert (length (created_at s) = length (avg_delay s)
            ∧ Sorted Z.le (created_at s) ∧ (0 < length (avg_delay s))%nat) as (Hl & Hsort & Hne).
    { apply fetchMonitor_returned in Hret as [Hnil|(sn & km & Hf)].
      { rewrite Hnil in Hs. by apply elem_of_nil in Hs. }
      apply list_elem_of_lookup in Hs as [i Hi].
      destruct (Forall2_lookup_r _ _ _ _ _ Hf Hi) as (s0 & Hi0 & Hp).
      apply list_lookup_fmap_Some in Hi0 as (kv & -> & Hkv).
      destruct (sortSeries_wf (snd kv)) as [Hl Hsort].
      unfold padded in Hp.
      destruct (avg_delay (sortSeries (snd kv))) as [|v vs] eqn:Hav.
      - destruct Hp as (-> & [k ->] & _). simpl. repeat split; [|lia].
        repeat constructor.
      - subst s. rewrite Hl, Hav. simpl. repeat split; [done|lia]. }
    repeat split; try done. intros Hnd. by apply Sorted_le_NoDup_lt.
  - intros data0 w0. destruct (padEmpty_spec data0 w0) as (d' & w1 & Hp & _ & Hf).
    eauto.
Qed.

(** C10 (as amended): for a [server_id] that no key of the node listing
    maps to, [fetchMonitor] makes one remote call, the node listing, and
    requests no records.  The error check of the listing comes before the
    lookup: a listing that carries a truthy [error] makes [fetchMonitor]
    throw that error; only a listing without one gives the successful
    response with the empty data list. *)
Theorem fetchMonitor_unknown_server server_id hours w :
  (∀ uuid, uuid ∈ map fst getKomariNodes → uuidToNumber uuid ≠ server_id) →
  fetchMonitor server_id hours w =
    (match nodes_error getKomariNodes with
     | Some msg => Thrown msg
     | None => Returned {| success := true; data := []; from := None; to := None |}
     end,
     {| ticks := ticks w; calls := calls w ++ [EvGetKomariNodes] |}).
Proof.
  intros Hno.
  unfold fetchMonitor, await_getKomariNodes.
  unfold mbind, Async_bind, mret, Async_ret, emit, throw. simpl.
  destruct (nodes_error getKomariNodes) as [msg|]; [done|].
  destruct (List.find _ _) as [uuid|] eqn:Hfind; [|done].
  apply find_some in Hfind as [Hin Heq].
  apply Z.eqb_eq in Heq. exfalso. eapply Hno; [|done].
  by apply list_elem_of_In.
Qed.
End assembler_facts.

(** ** The sample interval *)

Local Open Scope Q_scope.

Lemma Qle_bool_inject_Z a b : Qle_bool (inject_Z a) (inject_Z b) = (a <=? b)%Z.
Proof.
  destruct (a <=? b)%Z eqn:Hab.
  - apply Qle_bool_iff. rewrite <- Zle_Qle. by apply Z.leb_le.
  - apply not_true_is_false. rewrite Qle_bool_iff, <- Zle_Qle. apply Z.leb_gt in Hab. lia.
Qed.

Lemma Math_max_inject_Z a b : Math_max (inject_Z a) (inject_Z b) = inject_Z (Z.max a b).
Proof.
  unfold Math_max. rewrite Qle_bool_inject_Z.
  destruct (a <=? b)%Z eqn:Hab.
  - apply Z.leb_le in Hab. by rewrite Z.max_r.
  - apply Z.leb_gt in Hab. by rewrite Z.max_l by lia.
Qed.

Lemma Qle_bool_false a b : Qle_bool a b = false ↔ b < a.
Proof.
  rewrite <- not_true_iff_false, Qle_bool_iff. split; [apply Qnot_le_lt|apply Qlt_not_le].
Qed.

(** [Math.round] returns a nearest integer. *)
Lemma Math_round_nearest x :
  inject_Z (Math_round x) - (1 # 2) <= x ∧ x < inject_Z (Math_round x) + (1 # 2).
Proof.
  unfold Math_round.
  pose proof (Qfloor_le (x + (1 # 2))) as Hlo.
  pose proof (Qlt_floor (x + (1 # 2))) as Hhi.
  rewrite inject_Z_plus in Hhi. change (inject_Z 1) with 1 in Hhi.
  split; lra.
Qed.

(** The deltas collected are the positive differences of neighbours. *)
Lemma elem_of_positive_deltas d times :
  d ∈ positive_deltas times ↔
  ∃ i a b, times !! i = Some a ∧ times !! S i = Some b ∧ d = (b - a)%Z ∧ (0 < d)%Z.
Proof.
  induction times as [|prev [|next rest] IH].
  - simpl. split; [by intros ?%elem_of_nil|by intros (? & ? & ? & ? & _)].
  - simpl. split; [by intros ?%elem_of_nil|].
    intros (i & a & b & _ & Hb & _). by destruct i.
  - change (positive_deltas (prev :: next :: rest)) with
      (let delta := (next - prev)%Z in
       if (0 <? delta)%Z then delta :: positive_deltas (next :: rest)
       else positive_deltas (next :: rest)).
    simpl. destruct (0 <? next - prev)%Z eqn:Hpos.
    + rewrite elem_of_cons, IH. split.
      * intros [->|(i & a & b & Ha & Hb & Hd)].
        -- exists 0%nat, prev, next. apply Z.ltb_lt in Hpos. done.
        -- exists (S i), a, b. done.
      * intros (i & a & b & Ha & Hb & Hd).
        destruct i as [|i]; [left|right; by exists i, a, b].
        simpl in Ha, Hb. destruct Hd. congruence.
    + rewrite IH. split.
      * intros (i & a & b & Ha & Hb & Hd). exists (S i), a, b. done.
      * intros (i & a & b & Ha & Hb & Hd & Hp).
        destruct i as [|i]; [|by exists i, a, b].
        simpl in Ha, Hb. apply Z.ltb_ge in Hpos.
        assert (a = prev) by congruence. assert (b = next) by congruence. lia.
Qed.

Lemma elem_of_all_deltas d data :
  d ∈ all_deltas data ↔
  ∃ item i a b, item ∈ data ∧ created_at item !! i = Some a
                ∧ created_at item !! S i = Some b ∧ d = (b - a)%Z ∧ (0 < d)%Z.
Proof.
  unfold all_deltas. rewrite list_elem_of_In, in_flat_map. split.
  - intros (item & Hin & Hd). apply list_elem_of_In in Hin, Hd.
    apply elem_of_positive_deltas in Hd as (i & a & b & ?). by exists item, i, a, b.
  - intros (item & i & a & b & Hin & Hd). exists item.
    rewrite <- !list_elem_of_In. split; [done|].
    apply elem_of_positive_deltas. by exists i, a, b.
Qed.


Lemma getMedianValue_is_median values :
  values ≠ [] → ∃ median, getMedianValue values = Some median ∧ is_median values median.
Proof.
  intros Hne. unfold getMedianValue, is_median.
  assert (length (sort_Z values) = length values) as Hlen by apply sort_by_length.
  rewrite Hlen.
  assert (0 < length values)%nat as Hpos by (destruct values; [done|simpl; lia]).
  assert (length values / 2 < length values)%nat as Hmid
    by (apply Nat.div_lt; lia).
  destruct (lookup_lt_is_Some_2 (sort_Z values) (length values / 2)%nat) as [b Hb]; [lia|].
  destruct (lookup_lt_is_Some_2 (sort_Z values) (length values / 2 - 1)%nat) as [a Ha]; [lia|].
  destruct (Nat.odd (length values)) eqn:Hodd.
  - exists (inject_Z b). rewrite Hb. split; [done|].
    exists (sort_Z values).
    split; [apply sort_Z_Sorted|]. split; [apply sort_by_Permutation|]. eauto.
  - exists ((inject_Z a + inject_Z b) / 2). rewrite Ha, Hb. split; [done|].
    exists (sort_Z values).
    split; [apply sort_Z_Sorted|]. split; [apply sort_by_Permutation|]. eauto.
Qed.

(** The value of [getTypicalIntervalMs] in terms of the median. *)
Lemma getTypicalIntervalMs_median data median :
  all_deltas data ≠ [] → getMedianValue (all_deltas data) = Some median →
  getTypicalIntervalMs data = inject_Z (Z.max 1000 (Math_round (median / 1000) * 1000)).
Proof.
  intros Hne Hmed. unfold getTypicalIntervalMs.
  destruct (all_deltas data) as [|d ds] eqn:Hd; [done|]. rewrite Hmed.
  destruct (Math_round (median / 1000) * 1000 =? 0)%Z eqn:Hz.
  - apply Z.eqb_eq in Hz. rewrite Hz.
    assert (Math_round (median / 1000) = 0%Z) as Hr by lia.
    destruct (Math_round_nearest (median / 1000)) as [_ Hhi]. rewrite Hr in Hhi.
    unfold Math_max.
    assert (Qle_bool 1000 median = false) as ->; [|done].
    apply Qle_bool_false.
    assert (median == median / 1000 * 1000) as -> by (field; done).
    change (inject_Z 0) with 0 in Hhi. lra.
  - change 1000 with (inject_Z 1000) at 2. apply Math_max_inject_Z.
Qed.

(** The interval is an integer, at least one second. *)
Lemma getTypicalIntervalMs_integer data :
  ∃ z : Z, getTypicalIntervalMs data = inject_Z z ∧ (1000 <= z)%Z.
Proof.
  destruct (all_deltas data) as [|d ds] eqn:Hd.
  - exists DEFAULT_INTERVAL_MS. unfold getTypicalIntervalMs. rewrite Hd. done.
  - destruct (getMedianValue_is_median (all_deltas data)) as (median & Hm & _);
      [by rewrite Hd|].
    eexists. split; [apply getTypicalIntervalMs_median; [by rewrite Hd|done]|lia].
Qed.

(** C6: the interval is 60000 ms when no positive delta exists; otherwise it
    is the median of the positive differences of neighbouring timestamps of
    all series, rounded to a nearest multiple of 1000 ms, and at least
    1000 ms. *)
Theorem getTypicalIntervalMs_spec data :
  let deltas := all_deltas data in
  (∀ d, d ∈ deltas ↔
     ∃ item i a b, item ∈ data ∧ created_at item !! i = Some a
                   ∧ created_at item !! S i = Some b ∧ d = (b - a)%Z ∧ (0 < d)%Z)
  ∧ (deltas = [] → getTypicalIntervalMs data = 60000)
  ∧ (deltas ≠ [] →
     ∃ (median : Q) (seconds : Z),
       is_median deltas median
       ∧ inject_Z (seconds * 1000) - 500 <= median
       ∧ median < inject_Z (seconds * 1000) + 500
       ∧ getTypicalIntervalMs data = inject_Z (Z.max 1000 (seconds * 1000))).
Proof.
  intros deltas. split_and!.
  - intros d. apply elem_of_all_deltas.
  - intros Hd. unfold getTypicalIntervalMs. fold deltas. by rewrite Hd.
  - intros Hne.
    destruct (getMedianValue_is_median deltas Hne) as (median & Hm & Hmed).
    exists median, (Math_round (median / 1000)). split; [done|].
    destruct (Math_round_nearest (median / 1000)) as [Hlo Hhi].
    rewrite inject_Z_mult. change (inject_Z 1000) with 1000.
    assert (median == median / 1000 * 1000) as Heq by (field; done).
    split_and!; [lra|lra|by apply getTypicalIntervalMs_median].
Qed.

(** ** Offline spans and the timeline *)

Local Open Scope Z_scope.

Lemma Qgt_bool_threshold (gap intervalMs : Z) :
  Qgt_bool (inject_Z gap) (inject_Z intervalMs * OFFLINE_GAP_MULTIPLIER) = true
  ↔ 3 * intervalMs < 2 * gap.
Proof.
  unfold Qgt_bool. rewrite negb_true_iff, Qle_bool_false.
  unfold OFFLINE_GAP_MULTIPLIER, Qlt, Qmult, inject_Z. simpl. lia.
Qed.

Lemma spans_ordered_lt spans i j a b :
  spans_ordered spans → spans !! i = Some a → spans !! j = Some b → (i < j)%nat →
  start a < end_ a ∧ end_ a <= start b ∧ start a < start b.
Proof.
  intros [Hne Hss] Ha Hb Hij.
  assert (start a < end_ a) as Hna.
  { rewrite Forall_forall in Hne. apply Hne.
    by apply list_elem_of_lookup_2 in Ha. }
  assert (span_before a b) as Hab; [|unfold span_before in Hab; lia].
  rewrite <- (take_drop_middle spans i a Ha) in Hss, Hb.
  apply StronglySorted_app_1_r in Hss. apply StronglySorted_inv in Hss as [_ Hall].
  rewrite Forall_forall in Hall. apply Hall.
  rewrite lookup_app_r in Hb by (rewrite length_take; lia).
  rewrite length_take_le in Hb by (apply lookup_lt_Some in Ha; lia).
  destruct (j - i)%nat as [|n] eqn:Hn; [lia|]. simpl in Hb.
  by apply list_elem_of_lookup_2 in Hb.
Qed.

Section internalSpans_facts.
Variables (rangeEnd intervalMs : Z) (threshold : Q).
Hypothesis interval_pos : 0 < intervalMs.

Lemma internalSpans_bounds times first s :
  StronglySorted Z.le (first :: times) →
  s ∈ internalSpans (first :: times) rangeEnd intervalMs threshold →
  first < start s ∧ start s < end_ s ∧ end_ s <= rangeEnd
  ∧ ∃ next, next ∈ times ∧ end_ s <= next.
Proof.
  revert first. induction times as [|next rest IH]; intros first Hs Hin.
  - by apply elem_of_nil in Hin.
  - apply StronglySorted_inv in Hs as [Hs Hall].
    change (internalSpans (first :: next :: rest) rangeEnd intervalMs threshold) with
      ((if Qgt_bool (inject_Z (next - first)) threshold then
          let spanStart := first + intervalMs in
          let spanEnd := Z.min next rangeEnd in
          if spanStart <? spanEnd then [{| start := spanStart; end_ := spanEnd |}] else []
        else []) ++ internalSpans (next :: rest) rangeEnd intervalMs threshold) in Hin.
    apply elem_of_app in Hin as [Hin|Hin].
    + destruct (Qgt_bool _ _); [|by apply elem_of_nil in Hin]. simpl in Hin.
      destruct (first + intervalMs <? Z.min next rangeEnd) eqn:Hlt;
        [|by apply elem_of_nil in Hin].
      apply list_elem_of_singleton in Hin as ->. simpl. apply Z.ltb_lt in Hlt.
      split_and!; [lia|lia|lia|]. exists next. split; [left|lia].
    + destruct (IH next Hs Hin) as (H1 & H2 & H3 & nx & Hnx & H4).
      apply Forall_cons in Hall as [Hfn _].
      split_and!; [lia|lia|lia|]. exists nx. split; [by right|done].
Qed.

Lemma internalSpans_sorted times :
  StronglySorted Z.le times →
  StronglySorted span_before (internalSpans times rangeEnd intervalMs threshold).
Proof.
  induction times as [|first [|next rest] IH]; intros Hs; [constructor|constructor|].
  change (internalSpans (first :: next :: rest) rangeEnd intervalMs threshold) with
    ((if Qgt_bool (inject_Z (next - first)) threshold then
        let spanStart := first + intervalMs in
        let spanEnd := Z.min next rangeEnd in
        if spanStart <? spanEnd then [{| start := spanStart; end_ := spanEnd |}] else []
      else []) ++ internalSpans (next :: rest) rangeEnd intervalMs threshold).
  pose proof (StronglySorted_inv Hs) as [Hs' _].
  apply StronglySorted_app_2; [|destruct (Qgt_bool _ _); simpl;
    [destruct (_ <? _)|]; repeat constructor|by apply IH].
  intros a b Ha Hb.
  destruct (Qgt_bool _ _); [|by apply elem_of_nil in Ha]. simpl in Ha.
  destruct (_ <? _); [|by apply elem_of_nil in Ha].
  apply list_elem_of_singleton in Ha as ->.
  destruct (internalSpans_bounds _ _ _ Hs' Hb) as (Hlo & _).
  unfold span_before. simpl. lia.
Qed.
End internalSpans_facts.

Lemma StronglySorted_le_last (l : list Z) b x :
  StronglySorted Z.le l → last l = Some b → x ∈ l → x <= b.
Proof.
  induction 1 as [|a l Hs IH Hall]; intros Hb Hx; [by apply elem_of_nil in Hx|].
  rewrite last_cons in Hb. rewrite Forall_forall in Hall.
  destruct (last l) as [b'|] eqn:Hl.
  - injection Hb as ->.
    apply elem_of_cons in Hx as [->|Hx]; [|by apply IH].
    apply Hall. apply last_Some in Hl as [l' ->]. apply elem_of_app. right. left.
  - apply last_None in Hl as ->. injection Hb as ->.
    apply list_elem_of_singleton in Hx as ->. lia.
Qed.

Lemma StronglySorted_head_last (l : list Z) a b :
  StronglySorted Z.le l → head l = Some a → last l = Some b →
  ∀ x, x ∈ l → a <= x <= b.
Proof.
  intros Hs Ha Hb x Hx. split; [|by eapply StronglySorted_le_last].
  destruct l as [|a' l]; [done|]. simpl in Ha. injection Ha as ->.
  apply StronglySorted_inv in Hs as [Hs Hall]. rewrite Forall_forall in Hall.
  apply elem_of_cons in Hx as [->|Hx]; [lia|]. by apply Hall.
Qed.

(** The spans of [buildOfflineSpans] are never empty, pairwise disjoint and
    ascending, for any list of observed times. *)
Lemma buildOfflineSpans_ordered observedTimes rangeStart rangeEnd intervalMs :
  spans_ordered (buildOfflineSpans observedTimes rangeStart rangeEnd intervalMs).
Proof.
  unfold buildOfflineSpans, spans_ordered.
  destruct (rangeEnd <=? rangeStart) eqn:Hr; simpl; [by split; constructor|].
  destruct (intervalMs <=? 0) eqn:Hi; simpl; [by split; constructor|].
  apply Z.leb_gt in Hr, Hi.
  destruct observedTimes as [|o os] eqn:Hobs; [split; repeat constructor; simpl; lia|].
  rewrite <- Hobs. clear Hobs o os.
  pose proof (sort_Z_StronglySorted observedTimes) as Hss.
  destruct (head (sort_Z observedTimes)) as [firstTime|] eqn:Hhd; [|by split; constructor].
  destruct (last (sort_Z observedTimes)) as [lastTime|] eqn:Hla; [|by split; constructor].
  pose proof (StronglySorted_head_last _ _ _ Hss Hhd Hla) as Hbounds.
  set (threshold := (inject_Z intervalMs * OFFLINE_GAP_MULTIPLIER)%Q).
  assert (∀ s, s ∈ internalSpans (sort_Z observedTimes) rangeEnd intervalMs threshold →
            firstTime < start s ∧ start s < end_ s ∧ end_ s <= lastTime) as Hint.
  { intros s Hs. destruct (sort_Z observedTimes) as [|f rest] eqn:Hsorted; [done|].
    simpl in Hhd. injection Hhd as ->.
    destruct (internalSpans_bounds rangeEnd intervalMs threshold Hi _ _ _ Hss Hs)
      as (H1 & H2 & _ & nx & Hnx & H4).
    split_and!; [done|done|]. specialize (Hbounds nx ltac:(by right)). lia. }
  assert (firstTime <= lastTime) as Hfl.
  { apply Hbounds. destruct (sort_Z observedTimes); [done|]. simpl in Hhd.
    injection Hhd as ->. left. }
  split.
  - rewrite !Forall_app. split_and!.
    + destruct (Qgt_bool _ _) eqn:Hg; [|constructor].
      apply Qgt_bool_threshold in Hg. repeat constructor. simpl. lia.
    + apply Forall_forall. intros s Hs. by apply Hint.
    + destruct (Qgt_bool _ _); [|constructor]. simpl.
      destruct (lastTime + intervalMs <? rangeEnd) eqn:Hlt; [|constructor].
      apply Z.ltb_lt in Hlt. by repeat constructor.
  - apply StronglySorted_app_2; [|destruct (Qgt_bool _ _); repeat constructor|].
    + intros a b Ha Hb.
      destruct (Qgt_bool _ _); [|by apply elem_of_nil in Ha].
      apply list_elem_of_singleton in Ha as ->. unfold span_before. simpl.
      apply elem_of_app in Hb as [Hb|Hb].
      * apply Hint in Hb. lia.
      * destruct (Qgt_bool _ _); [|by apply elem_of_nil in Hb]. simpl in Hb.
        destruct (_ <? _); [|by apply elem_of_nil in Hb].
        apply list_elem_of_singleton in Hb as ->. simpl. lia.
    + apply StronglySorted_app_2; [|by apply internalSpans_sorted|
        destruct (Qgt_bool _ _); simpl; [destruct (_ <? _)|]; repeat constructor].
      intros a b Ha Hb. apply Hint in Ha.
      destruct (Qgt_bool _ _); [|by apply elem_of_nil in Hb]. simpl in Hb.
      destruct (_ <? _); [|by apply elem_of_nil in Hb].
      apply list_elem_of_singleton in Hb as ->. unfold span_before. simpl. lia.
Qed.

(** The loop of [buildOfflinePoints] stops because [t] reaches the end of the
    span, not for lack of fuel: the points are exactly the multiples of the
    interval from the start of the span, below its end. *)
Lemma elem_of_span_points fuel t spanEnd intervalMs x :
  0 < intervalMs → (Z.to_nat (spanEnd - t) <= fuel)%nat →
  x ∈ span_points fuel t spanEnd intervalMs
  ↔ ∃ k, 0 <= k ∧ x = t + k * intervalMs ∧ x < spanEnd.
Proof.
  intros Hpos. revert t. induction fuel as [|fuel IH]; intros t Hfuel; simpl.
  - split; [by intros ?%elem_of_nil|]. intros (k & Hk & -> & Hlt). nia.
  - destruct (t <? spanEnd) eqn:Hlt.
    + apply Z.ltb_lt in Hlt. rewrite elem_of_cons, IH by lia. split.
      * intros [->|(k & Hk & -> & Hx)]; [exists 0; lia|exists (k + 1); lia].
      * intros (k & Hk & -> & Hx).
        destruct (decide (k = 0)) as [->|Hne]; [left; lia|right].
        exists (k - 1). lia.
    + apply Z.ltb_ge in Hlt. split; [by intros ?%elem_of_nil|].
      intros (k & Hk & -> & Hx). nia.
Qed.

Lemma elem_of_buildOfflinePoints spans intervalMs x :
  0 < intervalMs →
  x ∈ buildOfflinePoints spans intervalMs
  ↔ ∃ span k, span ∈ spans ∧ 0 <= k ∧ x = start span + k * intervalMs ∧ x < end_ span.
Proof.
  intros Hpos. unfold buildOfflinePoints.
  destruct (intervalMs <=? 0) eqn:Hle; [apply Z.leb_le in Hle; lia|].
  rewrite list_elem_of_In, in_flat_map. split.
  - intros (span & Hin & Hx). apply list_elem_of_In in Hin, Hx.
    apply elem_of_span_points in Hx as (k & ?); [|done|lia]. by exists span, k.
  - intros (span & k & Hin & Hx). exists span. rewrite <- !list_elem_of_In.
    split; [done|]. apply elem_of_span_points; [done|lia|]. by exists k.
Qed.

Section buildTimelineData_facts.
Variables (rawData : list NezhaMonitor) (rangeStart rangeEnd : Z).

Lemma elem_of_observedSet t :
  t ∈ observedSet (buildTimelineData rawData rangeStart rangeEnd)
  ↔ rangeStart <= t <= rangeEnd ∧ ∃ item, item ∈ rawData ∧ t ∈ created_at item.
Proof.
  unfold buildTimelineData. simpl.
  set (inner := λ (observedSet : gset Z) (item : NezhaMonitor), foldl _ observedSet (created_at item)).
  assert (∀ times (acc : gset Z),
    t ∈ foldl (λ (observedSet : gset Z) time,
                 if (rangeStart <=? time) && (time <=? rangeEnd)
                 then {[ time ]} ∪ observedSet else observedSet) acc times
    ↔ t ∈ acc ∨ (rangeStart <= t <= rangeEnd ∧ t ∈ times)) as Hinner.
  { induction times as [|x times IH]; intros acc; simpl.
    - set_solver.
    - rewrite IH.
      destruct (rangeStart <=? x) eqn:H1; destruct (x <=? rangeEnd) eqn:H2; simpl;
        try apply Z.leb_le in H1; try apply Z.leb_le in H2;
        try apply Z.leb_gt in H1; try apply Z.leb_gt in H2;
        set_solver by lia. }
  assert (∀ (items : list NezhaMonitor) (acc : gset Z),
    t ∈ foldl inner acc items
    ↔ t ∈ acc ∨ (rangeStart <= t <= rangeEnd ∧ ∃ item, item ∈ items ∧ t ∈ created_at item))
    as Houter.
  { induction items as [|item items IH]; intros acc; simpl.
    - set_solver.
    - rewrite IH. unfold inner. rewrite Hinner. set_solver. }
  rewrite Houter. set_solver.
Qed.

Lemma elem_of_timeline t :
  t ∈ timeline (buildTimelineData rawData rangeStart rangeEnd)
  ↔ t ∈ observedSet (buildTimelineData rawData rangeStart rangeEnd)
    ∨ t ∈ buildOfflinePoints (offlineSpans (buildTimelineData rawData rangeStart rangeEnd))
                             (intervalMs (buildTimelineData rawData rangeStart rangeEnd)).
Proof.
  unfold buildTimelineData at 1. simpl timeline.
  rewrite sort_Z_elem_of, elem_of_elements.
  set (pts := buildOfflinePoints _ _).
  assert (∀ points (acc : gset Z),
    t ∈ foldl (λ (timelineSet : gset Z) time, {[ time ]} ∪ timelineSet) acc points
    ↔ t ∈ acc ∨ t ∈ points) as Hfold.
  { induction points as [|x points IH]; intros acc; simpl.
    - set_solver.
    - rewrite IH. set_solver. }
  rewrite Hfold, elem_of_list_to_set, sort_Z_elem_of, elem_of_elements. done.
Qed.

Lemma timeline_Sorted : Sorted Z.lt (timeline (buildTimelineData rawData rangeStart rangeEnd)).
Proof. apply sort_Z_NoDup_lt, NoDup_elements. Qed.

Lemma intervalMs_pos : 1000 <= intervalMs (buildTimelineData rawData rangeStart rangeEnd).
Proof.
  simpl. destruct (getTypicalIntervalMs_integer rawData) as (z & -> & Hz).
  by rewrite Qfloor_Z.
Qed.

Lemma intervalMs_exact :
  inject_Z (intervalMs (buildTimelineData rawData rangeStart rangeEnd))
  = getTypicalIntervalMs rawData.
Proof.
  simpl. destruct (getTypicalIntervalMs_integer rawData) as (z & -> & Hz).
  by rewrite Qfloor_Z.
Qed.
End buildTimelineData_facts.

(** C2: the offline spans are non-empty, pairwise non-overlapping and in
    ascending order of their start, for every list of observed times, range
    and interval, and in particular in the result of [buildTimelineData];
    the timeline consists of the observed in-range timestamps and the
    materialised offline points, and it is strictly ascending, hence without
    duplicates. *)
Theorem offline_spans_disjoint_timeline_ascending
    (rawData : list NezhaMonitor) (observedTimes : list Z)
    (rangeStart rangeEnd interval : Z) :
  let r := buildTimelineData rawData rangeStart rangeEnd in
  spans_ordered (buildOfflineSpans observedTimes rangeStart rangeEnd interval)
  ∧ spans_ordered (offlineSpans r)
  ∧ (∀ i j a b, offlineSpans r !! i = Some a → offlineSpans r !! j = Some b → (i < j)%nat →
       end_ a <= start b ∧ start a < start b)
  ∧ (∀ t, t ∈ timeline r ↔
       (rangeStart <= t <= rangeEnd ∧ ∃ item, item ∈ rawData ∧ t ∈ created_at item)
       ∨ (∃ span k, span ∈ offlineSpans r ∧ 0 <= k
                    ∧ t = start span + k * intervalMs r ∧ t < end_ span))
  ∧ Sorted Z.lt (timeline r)
  ∧ NoDup (timeline r).
Proof.
  intros r. split_and!.
  - apply buildOfflineSpans_ordered.
  - apply buildOfflineSpans_ordered.
  - intros i j a b Ha Hb Hij.
    destruct (spans_ordered_lt (offlineSpans r) i j a b) as (? & ? & ?); try done.
    apply buildOfflineSpans_ordered.
  - intros t. subst r. rewrite elem_of_timeline, elem_of_observedSet.
    rewrite elem_of_buildOfflinePoints; [done|].
    pose proof (intervalMs_pos rawData rangeStart rangeEnd). lia.
  - apply timeline_Sorted.
  - unfold r, buildTimelineData, sort_Z. simpl. rewrite sort_by_Permutation. apply NoDup_elements.
Qed.

(** ** The scenario of the specification *)

(** C9 (as amended): on the scenario the pipeline computes the interval
    150000 ms (the median of the two deltas 60000 and 240000), not 60000 ms;
    the gap of 240000 ms exceeds the threshold of 225000 ms and yields the
    offline span from 210000 to 300000, whose only synthetic point is
    210000; the timeline is 0, 60000, 210000, 300000; the row at 210000 has a
    null value and the offline marker, the other rows carry the samples; no
    row exists at 120000.  When the interval 60000 ms is instead handed to
    [buildOfflineSpans], [buildOfflinePoints] and [formatData], the gap
    exceeds the threshold of 90000 ms, the synthetic points are 120000,
    180000 and 240000, and the row at 120000 has a null value and the
    offline marker. *)
Theorem scenario_timeline_offline `{Runtime} :
  let r := buildTimelineData [scenario_series] 0 300000 in
  let given := buildOfflineSpans [0; 60000; 300000] 0 300000 60000 in
  getTypicalIntervalMs [scenario_series] = 150000%Q
  ∧ intervalMs r = 150000
  ∧ offlineSpans r = [{| start := 210000; end_ := 300000 |}]
  ∧ buildOfflinePoints (offlineSpans r) (intervalMs r) = [210000]
  ∧ timeline r = [0; 60000; 210000; 300000]
  ∧ (120000 ∉ timeline r)
  ∧ map scenario_columns
        (formatData [scenario_series] (timeline r) (observedSet r) (intervalMs r))
    = [ (Some (Some 0%Q), Some (Some 10%Q), Some None);
        (Some (Some 60000%Q), Some (Some 20%Q), Some None);
        (Some (Some 210000%Q), Some None, Some (Some 1%Q));
        (Some (Some 300000%Q), Some (Some 30%Q), Some None) ]
  ∧ given = [{| start := 120000; end_ := 300000 |}]
  ∧ buildOfflinePoints given 60000 = [120000; 180000; 240000]
  ∧ map scenario_columns
        (formatData [scenario_series] [0; 60000; 120000; 180000; 240000; 300000]
           (observedSet r) 60000)
    = [ (Some (Some 0%Q), Some (Some 10%Q), Some None);
        (Some (Some 60000%Q), Some (Some 20%Q), Some None);
        (Some (Some 120000%Q), Some None, Some (Some 1%Q));
        (Some (Some 180000%Q), Some None, Some (Some 1%Q));
        (Some (Some 240000%Q), Some None, Some (Some 1%Q));
        (Some (Some 300000%Q), Some (Some 30%Q), Some None) ].
Proof.
  intros r given. split_and!; try (vm_compute; reflexivity).
  assert (timeline r = [0; 60000; 210000; 300000]) as -> by (vm_compute; reflexivity).
  intros Hin. repeat (apply elem_of_cons in Hin as [Hin|Hin]; [done|]).
  by apply elem_of_nil in Hin.
Qed.

(** ** The time range *)

Local Open Scope Z_scope.

Lemma min_of_spec times m :
  min_of times = Some m → m ∈ times ∧ ∀ t, t ∈ times → m <= t.
Proof.
  destruct times as [|t0 times]; [done|]. simpl. intros [= <-].
  revert t0. induction times as [|t times IH]; intros t0; simpl.
  - split; [left|]. intros t ->%list_elem_of_singleton. lia.
  - destruct (IH (Z.min t0 t)) as [Hin Hle]. split.
    + apply elem_of_cons in Hin as [->|Hin]; [|by right; right].
      destruct (Z.min_spec t0 t) as [[_ ->]|[_ ->]]; [left|right; left].
    + intros x Hx. rewrite elem_of_cons in Hx.
      assert (foldl Z.min (Z.min t0 t) times <= Z.min t0 t) by (apply Hle; left).
      destruct Hx as [->|Hx]; [lia|].
      apply elem_of_cons in Hx as [->|Hx]; [lia|]. apply Hle. by right.
Qed.

Lemma max_of_spec times m :
  max_of times = Some m → m ∈ times ∧ ∀ t, t ∈ times → t <= m.
Proof.
  destruct times as [|t0 times]; [done|]. simpl. intros [= <-].
  revert t0. induction times as [|t times IH]; intros t0; simpl.
  - split; [left|]. intros t ->%list_elem_of_singleton. lia.
  - destruct (IH (Z.max t0 t)) as [Hin Hle]. split.
    + apply elem_of_cons in Hin as [->|Hin]; [|by right; right].
      destruct (Z.max_spec t0 t) as [[_ ->]|[_ ->]]; [right; left|left].
    + intros x Hx. rewrite elem_of_cons in Hx.
      assert (Z.max t0 t <= foldl Z.max (Z.max t0 t) times) by (apply Hle; left).
      destruct Hx as [->|Hx]; [lia|].
      apply elem_of_cons in Hx as [->|Hx]; [lia|]. apply Hle. by right.
Qed.

(** The scan of [getTimeRange] finds the least and the greatest timestamp. *)
Lemma scan_min_max_spec (items : list NezhaMonitor) :
  scan_min_max items = (min_of (all_times items), max_of (all_times items)).
Proof.
  unfold scan_min_max, all_times.
  set (step := λ '(minTime, maxTime) (time : Z), (_, _)).
  assert (∀ times acc,
    foldl (λ acc item, foldl step acc (created_at item)) acc times
    = foldl step acc (flat_map created_at times)) as ->.
  { induction times as [|it times IH]; intros acc; simpl; [done|].
    by rewrite IH, foldl_app. }
  assert (∀ times m M,
    foldl step (Some m, Some M) times = (Some (foldl Z.min m times), Some (foldl Z.max M times)))
    as Hsome.
  { induction times as [|t times IH]; intros m M; simpl; [done|].
    destruct (t <? m) eqn:H1; destruct (M <? t) eqn:H2;
      try apply Z.ltb_lt in H1; try apply Z.ltb_lt in H2;
      try apply Z.ltb_ge in H1; try apply Z.ltb_ge in H2;
      rewrite IH; repeat f_equal; lia. }
  destruct (flat_map created_at items) as [|t times]; [done|].
  simpl. apply Hsome.
Qed.

Section getTimeRange_facts.
Context `{Runtime}.
Variables (items : list NezhaMonitor) (rangeHours : Q) (from to : option string) (now : Z).

Lemma getTimeRange_unfold :
  getTimeRange items rangeHours from to now =
    match (if range_unusable (parse_optional from) (parse_optional to)
           then ((start_candidate items from), (end_candidate items to))
           else (parse_optional from, parse_optional to)) with
    | (Some a, Some b) => if b <=? a then (last_resort rangeHours now) else (a, b)
    | _ => (last_resort rangeHours now)
    end.
Proof.
  unfold getTimeRange, start_candidate, end_candidate, last_resort.
  rewrite scan_min_max_spec.
  assert (∀ h, h * 60 * 60 * 1000 = h * 3600000) as Hmul by (intros; lia).
  destruct (parse_optional from) as [a|], (parse_optional to) as [b|]; simpl;
    repeat (match goal with
            | |- context [if ?c then _ else _] => destruct c eqn:?
            | |- context [match ?o with Some _ => _ | None => _ end] => destruct o eqn:?
            end; simpl); rewrite ?Hmul; simplify_eq; try done; congruence.
Qed.

(** A reported pair with finite ends in the wrong order is not repaired
    from the observed timestamps: the range is the last resort. *)
Lemma getTimeRange_inverted_pair a b :
  parse_optional from = Some a → parse_optional to = Some b → b <= a →
  getTimeRange items rangeHours from to now = (last_resort rangeHours now).
Proof.
  intros Ha Hb Hle. rewrite getTimeRange_unfold.
  unfold start_candidate, end_candidate. rewrite Ha, Hb. simpl.
  apply Z.leb_le in Hle. by rewrite !Hle.
Qed.

(** C5 (as amended): the reported pair is the range when both of its ends
    parse to a finite timestamp and are in order.  When an end did not
    parse to a finite timestamp, that end, and only that end, is taken from
    the observed timestamps of all series (the least one for the start, the
    greatest one for the end), a finite reported end being kept; the pair
    so obtained is the range when it is complete and in order, and the
    range is the last [max(1, floor(hours))] hours before now when it is
    not.  The range always has its start before its end. *)
Theorem getTimeRange_by_endpoint :
  let range := getTimeRange items rangeHours from to now in
  (∀ a b, parse_optional from = Some a → parse_optional to = Some b → a < b →
     range = (a, b))
  ∧ (∀ a b, parse_optional from = None ∨ parse_optional to = None →
       (start_candidate items from) = Some a → (end_candidate items to) = Some b → a < b →
       range = (a, b))
  ∧ (parse_optional from = None ∨ parse_optional to = None →
     (∀ a b, (start_candidate items from) = Some a → (end_candidate items to) = Some b → b <= a) →
     range = (last_resort rangeHours now))
  ∧ (∀ a b, parse_optional from = None → parse_optional to = None →
       min_of (all_times items) = Some a → max_of (all_times items) = Some b → a < b →
       range = (a, b))
  ∧ (∀ a, min_of (all_times items) = Some a →
       a ∈ all_times items ∧ ∀ t, t ∈ all_times items → a <= t)
  ∧ (∀ b, max_of (all_times items) = Some b →
       b ∈ all_times items ∧ ∀ t, t ∈ all_times items → t <= b)
  ∧ fst range < snd range.
Proof.
  intros range. subst range. rewrite getTimeRange_unfold. split_and!.
  - intros a b -> -> Hlt. simpl.
    destruct (b <=? a) eqn:Hle; [apply Z.leb_le in Hle; lia|].
    by rewrite Hle.
  - intros a b Hnone Ha Hb Hlt.
    assert (range_unusable (parse_optional from) (parse_optional to) = true) as ->.
    { by destruct Hnone as [-> | ->]; [|destruct (parse_optional from)]. }
    rewrite Ha, Hb.
    destruct (b <=? a) eqn:Hle; [apply Z.leb_le in Hle; lia|done].
  - intros Hnone Hall.
    assert (range_unusable (parse_optional from) (parse_optional to) = true) as ->.
    { by destruct Hnone as [-> | ->]; [|destruct (parse_optional from)]. }
    destruct (start_candidate items from) as [a|]; [|done].
    destruct (end_candidate items to) as [b|]; [|done].
    specialize (Hall a b eq_refl eq_refl). apply Z.leb_le in Hall. by rewrite Hall.
  - intros a b Hf Ht Ha Hb Hlt. unfold start_candidate, end_candidate.
    rewrite Hf, Ht, Ha, Hb. simpl.
    destruct (b <=? a) eqn:Hle; [apply Z.leb_le in Hle; lia|done].
  - apply min_of_spec.
  - apply max_of_spec.
  - assert (fst (last_resort rangeHours now) < snd (last_resort rangeHours now)) as Hlast by (unfold last_resort; simpl; lia).
    destruct (if range_unusable _ _ then _ else _) as [[a|] [b|]]; try done.
    destruct (b <=? a) eqn:Hle; [done|]. apply Z.leb_gt in Hle. done.
Qed.
End getTimeRange_facts.

(** ** The packet-loss estimator *)

Local Open Scope Q_scope.

Lemma Math_min_spec a b :
  (a <= b ∧ Math_min a b = a) ∨ (b < a ∧ Math_min a b = b).
Proof.
  unfold Math_min. destruct (Qle_bool a b) eqn:Hab.
  - left. by apply Qle_bool_iff in Hab.
  - right. by apply Qle_bool_false in Hab.
Qed.

Lemma Math_max_spec a b :
  (a <= b ∧ Math_max a b = b) ∨ (b < a ∧ Math_max a b = a).
Proof.
  unfold Math_max. destruct (Qle_bool a b) eqn:Hab.
  - left. by apply Qle_bool_iff in Hab.
  - right. by apply Qle_bool_false in Hab.
Qed.

(** [Math.max(0, Math.min(100, x))] lies in [0, 100]. *)
Lemma clamp_bounds x : 0 <= Math_max 0 (Math_min 100 x) <= 100.
Proof.
  destruct (Math_min_spec 100 x) as [[? ->]|[? ->]];
    destruct (Math_max_spec 0 100) as [[? Hm]|[? Hm]];
    destruct (Math_max_spec 0 x) as [[? Hx]|[? Hx]];
    rewrite ?Hm, ?Hx; lra.
Qed.

(** A clamped blend of [raw] and [previous] is no farther from [previous]
    than the blend itself. *)
Lemma clamp_step raw previous :
  0 <= previous <= 100 →
  Qabs (Math_max 0 (Math_min 100 (0.3 * raw + (1 - 0.3) * previous)) - previous)
  <= 0.3 * Qabs (raw - previous).
Proof.
  intros Hp. set (x := 0.3 * raw + (1 - 0.3) * previous).
  assert (x - previous == 0.3 * (raw - previous)) as Hx by (unfold x; lra).
  destruct (Math_min_spec 100 x) as [[? ->]|[? ->]].
  - destruct (Math_max_spec 0 100) as [[? ->]|[? ->]]; [|lra].
    apply Qabs_case; intros; apply Qabs_case; intros; lra.
  - destruct (Math_max_spec 0 x) as [[? ->]|[? ->]];
      apply Qabs_case; intros; apply Qabs_case; intros; lra.
Qed.

(** Rounding to two decimals. *)
Lemma toFixed2_spec x :
  0 <= x →
  ∃ n : Z, toFixed2 x = inject_Z n / 100
           ∧ inject_Z n - (1 # 2) <= x * 100 ∧ x * 100 < inject_Z n + (1 # 2).
Proof.
  intros Hx. unfold toFixed2.
  apply Qle_bool_iff in Hx. rewrite Hx.
  exists (Qfloor (x * 100 + (1 # 2))). split; [done|].
  apply (Math_round_nearest (x * 100)).
Qed.

Lemma toFixed2_bounds x :
  0 <= x <= 100 →
  0 <= toFixed2 x <= 100 ∧ Qabs (toFixed2 x - x) <= 1 # 200.
Proof.
  intros [Hlo Hhi]. destruct (toFixed2_spec x Hlo) as (n & -> & Hn1 & Hn2).
  assert (0 <= n <= 10000)%Z as [Hn0 Hn100].
  { split.
    - destruct (Z.le_gt_cases 0 n) as [|Hlt]; [done|].
      assert (n <= -1)%Z as Hle by lia. rewrite Zle_Qle in Hle.
      change (inject_Z (-1)) with (-1) in Hle. lra.
    - destruct (Z.le_gt_cases n 10000) as [|Hlt]; [done|].
      assert (10001 <= n)%Z as Hle by lia. rewrite Zle_Qle in Hle.
      change (inject_Z 10001) with 10001 in Hle. lra. }
  rewrite Zle_Qle in Hn0, Hn100.
  change (inject_Z 0) with 0 in Hn0. change (inject_Z 10000) with 10000 in Hn100.
  assert (inject_Z n / 100 == inject_Z n * (1 # 100)) as Hdiv by field.
  split; [split; lra|]. apply Qabs_case; intros; lra.
Qed.

(** The guard on the empty array returns what the loop would. *)
Lemma calculatePacketLoss_map `{Runtime} delays :
  calculatePacketLoss delays = map toFixed2 (packetLossRates_of delays).
Proof. by destruct delays. Qed.

Section calculatePacketLoss_facts.
Context `{Runtime}.
Variable delays : list (option Q).

Let windowSize := windowSize_of (length delays).

(** [packetLossRates] after the first [k] iterations. *)
Let rates_after (k : nat) : list Q :=
  foldl (packetLoss_step delays windowSize) [] (seq 0 k).

Lemma rates_after_S k :
  rates_after (S k) = packetLoss_step delays windowSize (rates_after k) k.
Proof. unfold rates_after. by rewrite seq_S, foldl_app. Qed.

Lemma rates_after_length k : length (rates_after k) = k.
Proof.
  induction k as [|k IH]; [done|].
  rewrite rates_after_S. unfold packetLoss_step. rewrite length_app, IH. simpl. lia.
Qed.

Lemma rates_after_prefix k n i :
  (i < k)%nat → (k <= n)%nat → rates_after n !! i = rates_after k !! i.
Proof.
  intros Hik. induction 1 as [|n Hkn IH]; [done|].
  rewrite rates_after_S. unfold packetLoss_step.
  rewrite lookup_app_l; [done|]. rewrite rates_after_length. lia.
Qed.

Lemma rates_after_first n :
  (0 < n)%nat →
  rates_after n !! 0%nat = Some (Math_max 0 (Math_min 100 (rawLossRate delays windowSize 0))).
Proof.
  intros Hn. rewrite (rates_after_prefix 1) by lia. done.
Qed.

Lemma rates_after_step n i :
  (S i < n)%nat →
  ∃ previous, rates_after n !! i = Some previous
    ∧ rates_after n !! S i =
        Some (Math_max 0 (Math_min 100
                (0.3 * rawLossRate delays windowSize (S i) + (1 - 0.3) * previous))).
Proof.
  intros Hi.
  destruct (lookup_lt_is_Some_2 (rates_after (S i)) i) as [p Hp];
    [rewrite rates_after_length; lia|].
  exists p. split; [by rewrite (rates_after_prefix (S i)) by lia|].
  rewrite (rates_after_prefix (S (S i))) by lia.
  rewrite rates_after_S. unfold packetLoss_step.
  rewrite lookup_app_r by (rewrite rates_after_length; lia).
  rewrite rates_after_length, Nat.sub_diag. simpl.
  rewrite Nat.sub_0_r, Hp. done.
Qed.

Lemma rates_after_bounds n i r : rates_after n !! i = Some r → 0 <= r <= 100.
Proof.
  intros Hr.
  assert (i < n)%nat as Hi by (apply lookup_lt_Some in Hr; by rewrite rates_after_length in Hr).
  rewrite (rates_after_prefix (S i)) in Hr by lia.
  rewrite rates_after_S in Hr. unfold packetLoss_step in Hr.
  rewrite lookup_app_r in Hr by (rewrite rates_after_length; lia).
  rewrite rates_after_length, Nat.sub_diag in Hr. simpl in Hr.
  injection Hr as <-. apply clamp_bounds.
Qed.

(** C4: the output has one entry for each delay; every entry lies in
    [0, 100] and is a whole number of hundredths, the nearest to the
    smoothed rate of its index; the smoothed rate of an index [i > 0] is
    [0.3] times the raw estimate of [i] plus [1 - 0.3] times the smoothed
    rate of [i - 1], clamped to [0, 100], so that it differs from the
    smoothed rate of [i - 1] by at most [0.3] times the distance of the raw
    estimate from it. *)
Theorem calculatePacketLoss_bounded_ewma :
  let smoothed := packetLossRates_of delays in
  let output := calculatePacketLoss delays in
  length output = length delays
  ∧ length smoothed = length delays
  ∧ (∀ i x, output !! i = Some x →
       0 <= x <= 100
       ∧ ∃ (n : Z) r, x = inject_Z n / 100 ∧ smoothed !! i = Some r
                      ∧ x = toFixed2 r ∧ Qabs (x - r) <= 1 # 200)
  ∧ (∀ r, smoothed !! 0%nat = Some r →
       r = Math_max 0 (Math_min 100 (rawLossRate delays windowSize 0)))
  ∧ (∀ i r, smoothed !! S i = Some r →
       ∃ previous, smoothed !! i = Some previous
         ∧ r = Math_max 0 (Math_min 100
                 (0.3 * rawLossRate delays windowSize (S i) + (1 - 0.3) * previous))
         ∧ 1 - 0.3 == 0.7
         ∧ 0 <= r <= 100
         ∧ Qabs (r - previous) <= 0.3 * Qabs (rawLossRate delays windowSize (S i) - previous)).
Proof.
  intros smoothed output.
  assert (smoothed = rates_after (length delays)) as Hsm by done.
  assert (output = map toFixed2 smoothed) as Hout.
  { apply calculatePacketLoss_map. }
  assert (length smoothed = length delays) as Hlen by (rewrite Hsm; apply rates_after_length).
  split_and!.
  - by rewrite Hout, length_map.
  - done.
  - intros i x Hx. rewrite Hout in Hx.
    change (map toFixed2 smoothed) with (toFixed2 <$> smoothed) in Hx.
    apply list_lookup_fmap_Some in Hx as (r & -> & Hr).
    assert (0 <= r <= 100) as Hb by (rewrite Hsm in Hr; by eapply rates_after_bounds).
    destruct (toFixed2_bounds r Hb) as [Hxb Hxr].
    split; [done|]. destruct (toFixed2_spec r (proj1 Hb)) as (n & Hn & _).
    by exists n, r.
  - intros r Hr. rewrite Hsm in Hr.
    rewrite rates_after_first in Hr; [congruence|].
    apply lookup_lt_Some in Hr. rewrite rates_after_length in Hr. lia.
  - intros i r Hr. rewrite Hsm in Hr |- *.
    assert (S i < length delays)%nat as Hi
      by (apply lookup_lt_Some in Hr; by rewrite rates_after_length in Hr).
    destruct (rates_after_step _ _ Hi) as (p & Hp & Hr').
    exists p. split; [done|]. rewrite Hr' in Hr. injection Hr as <-.
    split; [done|]. split; [reflexivity|]. split; [apply clamp_bounds|].
    apply clamp_step. by eapply rates_after_bounds.
Qed.
End calculatePacketLoss_facts.

(** ** The peak-cut filter *)

Lemma processValues_is_Some values : values ≠ [] → is_Some (processValues values).
Proof.
  intros Hne. unfold processValues. destruct values; [done|].
  destruct (List.filter _ _); eauto.
Qed.

Section smooth_key_facts.
Variable window : list ResultItem.

Lemma smooth_key_empty st key :
  window_values window key = [] → smooth_key window st key = st.
Proof. intros Hv. unfold smooth_key. destruct st. by rewrite Hv. Qed.

Lemma smooth_key_other st key k :
  k ≠ key → snd (smooth_key window st key) !! k = snd st !! k.
Proof.
  intros Hne. unfold smooth_key. destruct st as [h row].
  destruct (0 <? length _)%nat; [|done].
  destruct (processValues _); [|done]. simpl. by rewrite lookup_insert_ne.
Qed.

Lemma smooth_key_written st key :
  window_values window key ≠ [] →
  ∃ v, snd (smooth_key window st key) !! key = Some (Some v).
Proof.
  intros Hne. unfold smooth_key. destruct st as [h row].
  destruct (processValues_is_Some _ Hne) as [p ->].
  destruct (window_values window key); [done|]. simpl.
  eexists. apply lookup_insert_eq.
Qed.

(** A key that is not processed, or has no numeric value in the window,
    keeps the value of the row. *)
Lemma foldl_smooth_key_kept keys st k :
  k ∉ keys ∨ window_values window k = [] →
  snd (foldl (smooth_key window) st keys) !! k = snd st !! k.
Proof.
  revert st. induction keys as [|key keys IH]; intros st Hk; [done|]. simpl.
  assert (k ∉ keys ∨ window_values window k = []) as Hk'.
  { destruct Hk as [Hk|Hk]; [left|by right]. set_solver. }
  rewrite (IH _ Hk').
  destruct Hk as [Hk|Hk].
  - apply smooth_key_other. set_solver.
  - destruct (decide (k = key)) as [->|Hne]; [by rewrite smooth_key_empty|].
    by apply smooth_key_other.
Qed.

(** A processed key with a numeric value in the window gets a number. *)
Lemma foldl_smooth_key_written keys st k :
  window_values window k ≠ [] →
  k ∈ keys ∨ (∃ v, snd st !! k = Some (Some v)) →
  ∃ v, snd (foldl (smooth_key window) st keys) !! k = Some (Some v).
Proof.
  intros Hne. revert st. induction keys as [|key keys IH]; intros st Hk; simpl.
  - destruct Hk as [Hk|Hk]; [by apply elem_of_nil in Hk|done].
  - destruct (decide (k ∈ keys)) as [Hin|Hnin]; [apply IH; by left|].
    apply IH. right.
    destruct (decide (k = key)) as [->|Hkey]; [by apply smooth_key_written|].
    rewrite smooth_key_other by done.
    destruct Hk as [Hk|Hk]; [set_solver|done].
Qed.
End smooth_key_facts.

Section processedData_facts.
Variables (activeCharts : list string) (formattedData : list ResultItem)
          (chartDataKey : list string).

Let rows := baseData activeCharts formattedData.
Let keys := keysToProcess activeCharts chartDataKey.

(** The state of [data.map] after the first [k] rows. *)
Let state_after (k : nat) : gmap string Q * list ResultItem :=
  foldl (peak_step activeCharts chartDataKey rows) (∅, []) (seq 0 k).

Lemma state_after_S k :
  state_after (S k) = peak_step activeCharts chartDataKey rows (state_after k) k.
Proof. unfold state_after. by rewrite seq_S, foldl_app. Qed.

Lemma state_after_length k : (k <= length rows)%nat → length (snd (state_after k)) = k.
Proof.
  induction k as [|k IH]; intros Hk; [done|].
  rewrite state_after_S. unfold peak_step.
  destruct (state_after k) as [h out] eqn:Hst. simpl in IH.
  destruct (lookup_lt_is_Some_2 rows k) as [point ->]; [lia|].
  destruct (k <? peak_windowSize - 1)%nat.
  - simpl. rewrite length_app, IH by lia. simpl. lia.
  - destruct (foldl _ _ _). simpl. rewrite length_app, IH by lia. simpl. lia.
Qed.

Lemma state_after_prefix k n i :
  (i < k)%nat → (k <= n)%nat → (n <= length rows)%nat →
  snd (state_after n) !! i = snd (state_after k) !! i.
Proof.
  intros Hik. induction 1 as [|n Hkn IH]; intros Hn; [done|].
  rewrite <- IH by lia. rewrite state_after_S. unfold peak_step.
  pose proof (state_after_length n ltac:(lia)) as Hlen.
  destruct (state_after n) as [h out]. simpl in Hlen.
  destruct (lookup_lt_is_Some_2 rows n) as [point ->]; [lia|].
  destruct (n <? peak_windowSize - 1)%nat.
  - simpl. rewrite lookup_app_l; [done|lia].
  - destruct (foldl _ _ _). simpl. rewrite lookup_app_l; [done|lia].
Qed.

(** The row the filter returns at [index]. *)
Lemma state_after_row index point :
  rows !! index = Some point →
  snd (state_after (length rows)) !! index =
    Some (if (index <? peak_windowSize - 1)%nat then point
          else snd (foldl (smooth_key (window_of activeCharts formattedData index))
                          (fst (state_after index), point) keys)).
Proof.
  intros Hp. pose proof (lookup_lt_Some _ _ _ Hp) as Hlt.
  rewrite (state_after_prefix (S index)) by lia.
  rewrite state_after_S. unfold peak_step.
  pose proof (state_after_length index ltac:(lia)) as Hlen.
  destruct (state_after index) as [h out]. simpl in Hlen. rewrite Hp.
  destruct (index <? peak_windowSize - 1)%nat.
  - simpl. rewrite lookup_app_r by lia. by rewrite Hlen, Nat.sub_diag.
  - fold keys. unfold window_of. fold rows. simpl fst.
    destruct (foldl _ _ _) as [h' smoothed]. simpl.
    rewrite lookup_app_r by lia. by rewrite Hlen, Nat.sub_diag.
Qed.

(** C8 (as amended): the filter returns one row for each row it is given.
    A row among the first ten is returned unchanged; in a later row, a key
    that is not processed, or for which no row of the window of eleven
    rows ending at that row has a number, keeps what the row had (null
    stays null, missing stays missing); a processed key for which some row
    of the window has a number gets a number, whatever the row had.  With
    the filter switched off the rows are returned unchanged. *)
Theorem peak_cut_keeps_null_without_window_value :
  let input := baseData activeCharts formattedData in
  let output := processedData true activeCharts formattedData chartDataKey in
  processedData false activeCharts formattedData chartDataKey = input
  ∧ length output = length input
  ∧ (∀ index point, input !! index = Some point →
       ∃ smoothed, output !! index = Some smoothed
         ∧ ((index < 10)%nat → smoothed = point)
         ∧ (∀ key, key ∉ keysToProcess activeCharts chartDataKey →
              smoothed !! key = point !! key)
         ∧ (∀ key, window_values (window_of activeCharts formattedData index) key = [] →
              smoothed !! key = point !! key)
         ∧ (∀ key, (10 <= index)%nat → key ∈ keysToProcess activeCharts chartDataKey →
              window_values (window_of activeCharts formattedData index) key ≠ [] →
              ∃ v, smoothed !! key = Some (Some v))).
Proof.
  intros input output.
  assert (output = snd (state_after (length rows))) as Hout by done.
  split_and!; [done|by rewrite Hout, state_after_length| ].
  intros index point Hp. rewrite Hout, (state_after_row index point Hp).
  eexists. split; [done|].
  destruct (index <? peak_windowSize - 1)%nat eqn:Hidx.
  - apply Nat.ltb_lt in Hidx. unfold peak_windowSize in Hidx.
    split_and!; try done. intros; lia.
  - apply Nat.ltb_ge in Hidx. unfold peak_windowSize in Hidx.
    split_and!.
    + intros; lia.
    + intros key Hkey. rewrite foldl_smooth_key_kept; [done|by left].
    + intros key Hkey. rewrite foldl_smooth_key_kept; [done|by right].
    + intros key _ Hkey Hne. apply foldl_smooth_key_written; [done|by left].
Qed.
End processedData_facts.

(** ** The formatter *)

Local Open Scope Z_scope.

Lemma StronglySorted_lookup {A} (R : A → A → Prop) l i j a b :
  StronglySorted R l → l !! i = Some a → l !! j = Some b → (i < j)%nat → R a b.
Proof.
  intros Hss Ha Hb Hij.
  rewrite <- (take_drop_middle l i a Ha) in Hss, Hb.
  apply StronglySorted_app_1_r in Hss. apply StronglySorted_inv in Hss as [_ Hall].
  rewrite Forall_forall in Hall. apply Hall.
  rewrite lookup_app_r in Hb by (rewrite length_take; lia).
  rewrite length_take_le in Hb by (apply lookup_lt_Some in Ha; lia).
  destruct (j - i)%nat as [|n] eqn:Hn; [lia|]. simpl in Hb.
  by apply list_elem_of_lookup_2 in Hb.
Qed.

Lemma StronglySorted_snoc {A} (R : A → A → Prop) l x :
  StronglySorted R l → (∀ y, y ∈ l → R y x) → StronglySorted R (l ++ [x]).
Proof.
  intros Hl Hx. apply StronglySorted_app_2; [|done|repeat constructor].
  intros a b Ha ->%list_elem_of_singleton. by apply Hx.
Qed.

Section collectTables_facts.
Variables (times : list Z) (values : list (option Q)) (packetLoss : list Q).

Let empty_tables : SeriesTables :=
  {| valueMap := ∅; packetLossMap := ∅; sampleTimes := ∅; validPoints := [] |}.

(** The tables after the first [k] iterations of the loop. *)
Let tables_after (k : nat) : SeriesTables :=
  foldl (collect_step times values packetLoss) empty_tables (seq 0 k).

Lemma tables_after_S k :
  tables_after (S k) = collect_step times values packetLoss (tables_after k) k.
Proof. unfold tables_after. by rewrite seq_S, foldl_app. Qed.

Lemma sampleTimes_after k t :
  t ∈ sampleTimes (tables_after k) ↔ ∃ i, (i < k)%nat ∧ times !! i = Some t.
Proof.
  induction k as [|k IH].
  - split; [set_solver|]. intros (i & ? & _). lia.
  - rewrite tables_after_S. unfold collect_step.
    destruct (times !! k) as [tk|] eqn:Hk; simpl.
    + rewrite elem_of_union, elem_of_singleton, IH. split.
      * intros [->|(i & Hi & Ht)]; [exists k|exists i]; split; try done; lia.
      * intros (i & Hi & Ht).
        destruct (decide (i = k)) as [->|Hne]; [left; congruence|right].
        exists i. split; [lia|done].
    + rewrite IH. split; intros (i & Hi & Ht); exists i; (split; [|done]); [lia|].
      destruct (decide (i = k)) as [->|Hne]; [congruence|lia].
Qed.

Lemma validPoints_after k p :
  p ∈ validPoints (tables_after k)
  ↔ ∃ i, (i < k)%nat ∧ times !! i = Some (point_time p)
         ∧ values !! i = Some (Some (point_value p)).
Proof.
  induction k as [|k IH].
  - split; [by intros ?%elem_of_nil|]. intros (i & ? & _). lia.
  - rewrite tables_after_S. unfold collect_step.
    assert ((∃ i, (i < S k)%nat ∧ times !! i = Some (point_time p)
                  ∧ values !! i = Some (Some (point_value p)))
            ↔ (∃ i, (i < k)%nat ∧ times !! i = Some (point_time p)
                    ∧ values !! i = Some (Some (point_value p)))
              ∨ (times !! k = Some (point_time p)
                 ∧ values !! k = Some (Some (point_value p)))) as ->.
    { split.
      - intros (i & Hi & Ht).
        destruct (decide (i = k)) as [->|Hne]; [by right|left].
        exists i. split; [lia|done].
      - intros [(i & Hi & Ht)|Hk]; [exists i|exists k]; split; try done; lia. }
    rewrite <- IH.
    destruct (times !! k) as [tk|] eqn:Hk; simpl; [|naive_solver].
    destruct (values !! k) as [[v|]|] eqn:Hv; [|naive_solver..].
    rewrite elem_of_app, list_elem_of_singleton. split.
    + intros [?| ->]; [by left|by right].
    + intros [?|[Ht Hv']]; [by left|right].
      destruct p; simpl in *. by simplify_eq.
Qed.

Lemma validPoints_sorted k :
  Sorted Z.le times → StronglySorted point_le (validPoints (tables_after k)).
Proof.
  intros Hs. apply Sorted_StronglySorted in Hs; [|intros ???; lia].
  induction k as [|k IH]; [constructor|].
  rewrite tables_after_S. unfold collect_step.
  destruct (times !! k) as [tk|] eqn:Hk; simpl; [|done].
  destruct (values !! k) as [[v|]|] eqn:Hv; [|done..].
  apply StronglySorted_snoc; [done|].
  intros q (i & Hi & Ht & _)%validPoints_after. unfold point_le. simpl.
  by apply (StronglySorted_lookup Z.le times i k).
Qed.

Lemma collectTables_sampleTimes t :
  t ∈ sampleTimes (collectTables times values packetLoss) ↔ t ∈ times.
Proof.
  unfold collectTables. fold empty_tables. fold (tables_after (length times)).
  rewrite sampleTimes_after, list_elem_of_lookup. split.
  - intros (i & _ & Hi). eauto.
  - intros (i & Hi). exists i. split; [by apply lookup_lt_Some in Hi|done].
Qed.

Lemma collectTables_validPoints p :
  p ∈ validPoints (collectTables times values packetLoss)
  ↔ ∃ i, times !! i = Some (point_time p) ∧ values !! i = Some (Some (point_value p)).
Proof.
  unfold collectTables. fold empty_tables. fold (tables_after (length times)).
  rewrite validPoints_after. split.
  - intros (i & _ & Hi). eauto.
  - intros (i & Hi & Hv). exists i. split; [by apply lookup_lt_Some in Hi|done].
Qed.

Lemma collectTables_sorted :
  Sorted Z.le times →
  StronglySorted point_le (validPoints (collectTables times values packetLoss)).
Proof. apply validPoints_sorted. Qed.
End collectTables_facts.

(** The [while] loop stops at the first point that is not before [time]. *)
Lemma advance_spec vp time n prev :
  (n <= length vp)%nat →
  (∀ j q, (j < n)%nat → vp !! j = Some q → point_time q < time) →
  prev = match n with O => None | S m => vp !! m end →
  ∃ n' prev', advance (drop n vp) time n prev = (n', prev')
    ∧ (n <= n' <= length vp)%nat
    ∧ (∀ j q, (j < n')%nat → vp !! j = Some q → point_time q < time)
    ∧ prev' = match n' with O => None | S m => vp !! m end
    ∧ (∀ q, vp !! n' = Some q → time <= point_time q).
Proof.
  remember (drop n vp) as rest eqn:Hrest. revert n prev Hrest.
  induction rest as [|p rest IH]; intros n prev Hrest Hn Hlt Hprev; simpl.
  - exists n, prev. split_and!; try done; try lia.
    intros q Hq. apply lookup_lt_Some in Hq.
    assert (length (drop n vp) = 0%nat) as Hlen by (by rewrite <- Hrest).
    rewrite length_drop in Hlen. lia.
  - assert (vp !! n = Some p) as Hp.
    { pose proof (lookup_drop vp n 0) as Hd. rewrite <- Hrest, Nat.add_0_r in Hd. done. }
    destruct (point_time p <? time) eqn:Hpt.
    + apply Z.ltb_lt in Hpt.
      destruct (IH (S n) (Some p)) as (n' & prev' & Hadv & Hn' & Hlt' & Hprev' & Hstop).
      * rewrite (drop_S _ _ _ Hp) in Hrest. by injection Hrest.
      * apply lookup_lt_Some in Hp. lia.
      * intros j q Hj Hq. destruct (decide (j = n)) as [->|Hne]; [congruence|].
        apply (Hlt j q); [lia|done].
      * done.
      * exists n', prev'. split_and!; try done; lia.
    + apply Z.ltb_ge in Hpt. exists n, prev. split_and!; try done; try lia.
      intros q Hq. assert (q = p) as -> by congruence. lia.
Qed.

Section formatSeries_step_facts.
Context `{Runtime}.
Variables (name : string) (tb : SeriesTables) (obs : gset Z) (iv : Z).

Let step := formatSeries_step name tb obs iv.
Let loss_key : string := name +:+ "_packet_loss".

(** [if (!result[time]) result[time] = { ... }] *)
Let ensure_row (time : Z) (table : gmap Z ResultItem) : gmap Z ResultItem :=
  match table !! time with
  | Some _ => table
  | None => <[time := new_row obs time]> table
  end.

(** Every branch of the step writes the two keys of the series in the row
    of [time], and nothing else. *)
Lemma step_result_shape c time :
  ∃ v l, result (step c time)
         = set_field time loss_key l (set_field time name v (ensure_row time (result c))).
Proof.
  unfold step, formatSeries_step, ensure_row.
  set (table := match result c !! time with Some _ => _ | None => _ end).
  destruct (match default ∅ (table !! time) !! OFFLINE_KEY with
            | Some None => false | _ => true end); [by eexists _, _|].
  destruct (decide (time ∈ sampleTimes tb)); [by eexists _, _|].
  destruct (advance _ _ _ _). by eexists _, _.
Qed.

Lemma step_result_other c time t :
  t ≠ time → result (step c time) !! t = result c !! t.
Proof.
  intros Hne. destruct (step_result_shape c time) as (v & l & ->).
  unfold set_field, ensure_row. rewrite !lookup_alter_ne by done.
  destruct (result c !! time); [done|]. by rewrite lookup_insert_ne.
Qed.

Lemma step_result_keys c time t row :
  result c !! t = Some row →
  ∃ row', result (step c time) !! t = Some row'
          ∧ ∀ k, k ≠ name → k ≠ loss_key → row' !! k = row !! k.
Proof.
  intros Hrow. destruct (decide (t = time)) as [->|Hne].
  - destruct (step_result_shape c time) as (v & l & ->).
    unfold set_field, ensure_row. rewrite Hrow, !lookup_alter_eq, Hrow. simpl.
    eexists. split; [done|]. intros k Hk Hl. by rewrite !lookup_insert_ne.
  - rewrite step_result_other by done. eauto.
Qed.

Lemma foldl_step_result_other l c t :
  t ∉ l → result (foldl step c l) !! t = result c !! t.
Proof.
  revert c. induction l as [|time l IH]; intros c Hnin; [done|]. simpl.
  rewrite IH by set_solver. apply step_result_other. set_solver.
Qed.

Lemma foldl_step_result_keys l c t row :
  result c !! t = Some row →
  ∃ row', result (foldl step c l) !! t = Some row'
          ∧ ∀ k, k ≠ name → k ≠ loss_key → row' !! k = row !! k.
Proof.
  revert c row. induction l as [|time l IH]; intros c row Hrow; simpl; [eauto|].
  destruct (step_result_keys c time t row Hrow) as (row1 & Hrow1 & Hk1).
  destruct (IH _ _ Hrow1) as (row2 & Hrow2 & Hk2).
  exists row2. split; [done|]. intros k Hk Hl. by rewrite Hk2, Hk1.
Qed.

Let cursor_ok := cursor_ok tb.

Lemma step_cursor_ok c time bound :
  time <= bound → cursor_ok c time → cursor_ok (step c time) bound.
Proof.
  intros Hle (Hn & Hlt & Hprev).
  assert (cursor_ok c bound) as Hc.
  { split_and!; [done| |done]. intros j q Hj Hq. specialize (Hlt j q Hj Hq). lia. }
  unfold step, formatSeries_step.
  destruct (match default ∅ (_ !! time) !! OFFLINE_KEY with
            | Some None => false | _ => true end); [done|].
  destruct (decide (time ∈ sampleTimes tb)); [done|].
  destruct (advance_spec (validPoints tb) time (nextIndex c) (prevPoint c) Hn Hlt Hprev)
    as (n' & prev' & -> & Hn' & Hlt' & Hprev' & _).
  split_and!; simpl; [lia| |done].
  intros j q Hj Hq. specialize (Hlt' j q Hj Hq). lia.
Qed.

Lemma foldl_step_cursor_ok l c bound :
  Sorted Z.lt l → (∀ time, time ∈ l → time < bound) →
  (∀ time, head l = Some time → cursor_ok c time) → cursor_ok c bound →
  cursor_ok (foldl step c l) bound.
Proof.
  revert c. induction l as [|time l IH]; intros c Hs Hb Hc Hcb; [done|]. simpl.
  apply Sorted_inv in Hs as [Hs Hhd].
  apply IH; [done|set_solver| |].
  - intros time' Hhead. apply step_cursor_ok; [|by apply Hc].
    destruct l as [|x l]; [done|]. simpl in Hhead. injection Hhead as ->.
    apply HdRel_inv in Hhd. lia.
  - apply step_cursor_ok; [|by apply Hc].
    assert (time < bound) by (apply Hb; left). lia.
Qed.

(** The step at a timestamp that is neither offline nor a sample. *)
Lemma step_interpolates c t row0 :
  result c !! t = Some row0 → row0 !! OFFLINE_KEY = Some None →
  t ∉ sampleTimes tb → cursor_ok c t →
  ∃ n' prev',
    result (step c t) !! t
      = Some (<[loss_key := None]>
                (<[name := interpolate prev' (validPoints tb !! n') iv t]> row0))
    ∧ (n' <= length (validPoints tb))%nat
    ∧ (∀ j q, (j < n')%nat → validPoints tb !! j = Some q → point_time q < t)
    ∧ prev' = match n' with O => None | S m => validPoints tb !! m end
    ∧ (∀ q, validPoints tb !! n' = Some q → t <= point_time q).
Proof.
  intros Hrow Hoff Hsample (Hn & Hlt & Hprev).
  unfold step, formatSeries_step. rewrite Hrow. cbv beta iota. rewrite Hrow.
  unfold default, from_option, Datatypes.id. cbv beta iota. rewrite Hoff.
  destruct (decide (t ∈ sampleTimes tb)); [done|].
  destruct (advance_spec (validPoints tb) t (nextIndex c) (prevPoint c) Hn Hlt Hprev)
    as (n' & prev' & -> & Hn' & Hlt' & Hprev' & Hstop).
  exists n', prev'. split_and!; try done; [|lia]. simpl.
  unfold set_field. by rewrite !lookup_alter_eq, Hrow.
Qed.
End formatSeries_step_facts.

(** *** The interpolated value *)

Lemma interpolate_Some prev next iv t v :
  interpolate prev next iv t = Some v →
  ∃ p n, prev = Some p ∧ next = Some n ∧ 0 < iv
         ∧ 2 * (point_time n - point_time p) <= 3 * iv
         ∧ v = (point_value p
                + inject_Z (t - point_time p) / inject_Z (point_time n - point_time p)
                  * (point_value n - point_value p))%Q.
Proof.
  unfold interpolate. destruct prev as [p|], next as [n|]; try done.
  destruct (0 <? iv) eqn:Hiv; [|done]. simpl.
  destruct (Qle_bool _ _) eqn:Hgap; [|done]. intros [= <-].
  exists p, n. apply Z.ltb_lt in Hiv. split_and!; try done.
  apply Qle_bool_iff in Hgap.
  unfold OFFLINE_GAP_MULTIPLIER, Qle, Qmult, inject_Z in Hgap. simpl in Hgap. lia.
Qed.

Lemma interpolate_None prev next iv t :
  interpolate prev next iv t = None ↔
  prev = None ∨ next = None ∨ iv <= 0
  ∨ ∃ p n, prev = Some p ∧ next = Some n ∧ 3 * iv < 2 * (point_time n - point_time p).
Proof.
  unfold interpolate. destruct prev as [p|], next as [n|]; try (split; [auto|done]).
  destruct (0 <? iv) eqn:Hiv; simpl.
  - apply Z.ltb_lt in Hiv. destruct (Qle_bool _ _) eqn:Hgap.
    + apply Qle_bool_iff in Hgap.
      unfold OFFLINE_GAP_MULTIPLIER, Qle, Qmult, inject_Z in Hgap. simpl in Hgap.
      split; [done|]. intros [?|[?|[?|(p' & n' & [= <-] & [= <-] & ?)]]]; try done; lia.
    + apply Qle_bool_false in Hgap.
      unfold OFFLINE_GAP_MULTIPLIER, Qlt, Qmult, inject_Z in Hgap. simpl in Hgap.
      split; [|done]. intros _. right. right. right. exists p, n. split_and!; try done. lia.
  - apply Z.ltb_ge in Hiv. split; [|done]. intros _. right. right. by left.
Qed.

(** A value interpolated strictly between two timestamps lies between the
    two values, and strictly between them when they differ. *)
Lemma interpolation_between (pt nt t : Z) (pv nv : Q) :
  pt < t → t < nt →
  let v := (pv + inject_Z (t - pt) / inject_Z (nt - pt) * (nv - pv))%Q in
  ((pv <= nv → pv <= v <= nv) ∧ (nv <= pv → nv <= v <= pv)
   ∧ (pv < nv → pv < v < nv) ∧ (nv < pv → nv < v < pv)
   ∧ (pv == nv → v == pv))%Q.
Proof.
  intros Hpt Htn v.
  set (r := (inject_Z (t - pt) / inject_Z (nt - pt))%Q).
  assert (0 < inject_Z (t - pt))%Q as Hnum.
  { change 0%Q with (inject_Z 0). rewrite <- Zlt_Qlt. lia. }
  assert (inject_Z (t - pt) < inject_Z (nt - pt))%Q as Hden by (rewrite <- Zlt_Qlt; lia).
  assert (0 < r ∧ r < 1)%Q as [Hr0 Hr1].
  { unfold r. split.
    - apply Qlt_shift_div_l; lra.
    - apply Qlt_shift_div_r; lra. }
  assert (v == pv + r * (nv - pv))%Q as Hv by reflexivity.
  split_and!; intros Hc.
  - assert (0 <= r * (nv - pv))%Q by (apply Qmult_le_0_compat; lra).
    assert (0 <= (1 - r) * (nv - pv))%Q by (apply Qmult_le_0_compat; lra).
    split; lra.
  - assert (0 <= r * (pv - nv))%Q by (apply Qmult_le_0_compat; lra).
    assert (0 <= (1 - r) * (pv - nv))%Q by (apply Qmult_le_0_compat; lra).
    split; lra.
  - assert (0 < r * (nv - pv))%Q by (apply Qmult_lt_0_compat; lra).
    assert (0 < (1 - r) * (nv - pv))%Q by (apply Qmult_lt_0_compat; lra).
    split; lra.
  - assert (0 < r * (pv - nv))%Q by (apply Qmult_lt_0_compat; lra).
    assert (0 < (1 - r) * (pv - nv))%Q by (apply Qmult_lt_0_compat; lra).
    split; lra.
  - rewrite Hv, Hc. ring.
Qed.

(** *** One series on the timeline *)

Section formatSeries_facts.
Context `{Runtime}.
Variables (timeline : list Z) (obs : gset Z) (iv : Z).

Lemma formatSeries_keys table item t row :
  table !! t = Some row →
  ∃ row', formatSeries timeline obs iv table item !! t = Some row'
          ∧ ∀ k, k ∉ keys_of item → row' !! k = row !! k.
Proof.
  intros Hrow. unfold formatSeries.
  set (packetLoss := default _ _).
  set (tb := collectTables (created_at item) (avg_delay item) packetLoss).
  destruct (foldl_step_result_keys (monitor_name item) tb obs iv timeline
              {| result := table; nextIndex := 0; prevPoint := None |} t row Hrow)
    as (row' & Hrow' & Hk).
  exists row'. split; [exact Hrow'|]. intros k Hnin. apply Hk; set_solver.
Qed.

Lemma foldl_formatSeries_keys (items : list NezhaMonitor) table t row :
  table !! t = Some row →
  ∃ row', foldl (formatSeries timeline obs iv) table items !! t = Some row'
          ∧ ∀ k, (∀ other, other ∈ items → k ∉ keys_of other) → row' !! k = row !! k.
Proof.
  revert table row. induction items as [|item items IH]; intros table row Hrow; simpl.
  - eauto.
  - destruct (formatSeries_keys table item t row Hrow) as (row1 & Hrow1 & Hk1).
    destruct (IH _ _ Hrow1) as (row2 & Hrow2 & Hk2).
    exists row2. split; [done|]. intros k Hk.
    rewrite Hk2 by (intros; apply Hk; set_solver). apply Hk1, Hk. set_solver.
Qed.

(** A timestamp of the timeline that is not offline and not a sample of
    the series gets the value interpolated between the nearest valid
    points around it. *)
Lemma formatSeries_row table item t row0 :
  Sorted Z.lt timeline → t ∈ timeline →
  table !! t = Some row0 → row0 !! OFFLINE_KEY = Some None →
  Sorted Z.le (created_at item) → t ∉ created_at item →
  ∃ prev next,
    bounds item t prev next
    ∧ formatSeries timeline obs iv table item !! t
      = Some (<[monitor_name item +:+ "_packet_loss" := None]>
                (<[monitor_name item := interpolate prev next iv t]> row0)).
Proof.
  intros Hsorted Hin Hrow Hoff Hca Hnot. unfold formatSeries.
  set (packetLoss := default _ _).
  set (tb := collectTables (created_at item) (avg_delay item) packetLoss).
  set (step := formatSeries_step (monitor_name item) tb obs iv).
  set (c0 := {| result := table; nextIndex := 0; prevPoint := None |}).
  apply list_elem_of_split in Hin as (l1 & l2 & ->).
  apply Sorted_StronglySorted in Hsorted; [|intros ???; lia].
  apply StronglySorted_app in Hsorted as (Hcross & Hs1 & Hs2).
  apply StronglySorted_inv in Hs2 as [Hs2 Hall2]. rewrite Forall_forall in Hall2.
  assert (∀ x, x ∈ l1 → x < t) as Hl1 by (intros x Hx; apply Hcross; [done|left]).
  assert (t ∉ l1) as Hn1 by (intros Hx%Hl1; lia).
  assert (t ∉ l2) as Hn2 by (intros Hx%Hall2; lia).
  rewrite foldl_app. simpl.
  set (c1 := foldl step c0 l1).
  assert (∀ bound, cursor_ok tb c0 bound) as Hc0.
  { intros bound. split_and!; simpl; [lia| |done]. intros; lia. }
  assert (cursor_ok tb c1 t) as Hc1.
  { apply foldl_step_cursor_ok; [by apply StronglySorted_Sorted|done|auto|auto]. }
  assert (result c1 !! t = Some row0) as Hrow1.
  { unfold c1, step. by rewrite foldl_step_result_other. }
  assert (t ∉ sampleTimes tb) as Hsample.
  { unfold tb. intros Hs%collectTables_sampleTimes. done. }
  destruct (step_interpolates (monitor_name item) tb obs iv c1 t row0 Hrow1 Hoff Hsample Hc1)
    as (n' & prev' & Hres & Hlen & Hlt & Hprev & Hstop).
  exists prev', (validPoints tb !! n').
  split; [|unfold step; by rewrite foldl_step_result_other].
  pose proof (collectTables_sorted (created_at item) (avg_delay item) packetLoss Hca) as Hvs.
  fold tb in Hvs.
  assert (∀ q, q ∈ validPoints tb ↔ valid_point item q) as Hvalid
    by (intros q; apply collectTables_validPoints).
  assert (∀ q, valid_point item q → point_time q ≠ t) as Hne.
  { intros q (i & Hi & _) Heq. apply Hnot. rewrite <- Heq.
    by apply list_elem_of_lookup_2 in Hi. }
  assert (∀ j q, validPoints tb !! j = Some q → (n' <= j)%nat → t < point_time q) as Hafter.
  { intros j q Hq Hj.
    destruct (lookup_lt_is_Some_2 (validPoints tb) n') as [qn Hqn];
      [apply lookup_lt_Some in Hq; lia|].
    assert (t < point_time qn).
    { specialize (Hstop qn Hqn).
      assert (point_time qn ≠ t) by (apply Hne, Hvalid; by eapply list_elem_of_lookup_2). lia. }
    destruct (decide (j = n')) as [->|Hjn]; [congruence|].
    assert (point_le qn q) as Hle
      by (apply (StronglySorted_lookup point_le (validPoints tb) n' j); try done; lia).
    unfold point_le in Hle. lia. }
  split.
  - rewrite Hprev. destruct n' as [|m].
    + intros q [j Hq]%Hvalid%list_elem_of_lookup Hqt.
      specialize (Hafter j q Hq ltac:(lia)). lia.
    + destruct (validPoints tb !! m) as [p|] eqn:Hp.
      * split_and!.
        -- apply Hvalid. by eapply list_elem_of_lookup_2.
        -- apply (Hlt m p); [lia|done].
        -- intros q [j Hq]%Hvalid%list_elem_of_lookup Hqt.
           destruct (decide (j = m)) as [->|Hjm]; [assert (q = p) as -> by congruence; lia|].
           destruct (decide (j < m)%nat) as [Hj|Hj].
           ++ apply (StronglySorted_lookup point_le (validPoints tb) j m); done.
           ++ specialize (Hafter j q Hq ltac:(lia)). lia.
      * apply lookup_ge_None in Hp. lia.
  - destruct (validPoints tb !! n') as [n|] eqn:Hnq.
    + split_and!.
      * apply Hvalid. by eapply list_elem_of_lookup_2.
      * apply (Hafter n' n); [done|lia].
      * intros q [j Hq]%Hvalid%list_elem_of_lookup Hqt.
        destruct (decide (j = n')) as [->|Hjn]; [assert (q = n) as -> by congruence; lia|].
        destruct (decide (j < n')%nat) as [Hj|Hj].
        -- specialize (Hlt j q Hj Hq). lia.
        -- apply (StronglySorted_lookup point_le (validPoints tb) n' j); try done. lia.
    + intros q [j Hq]%Hvalid%list_elem_of_lookup Hqt.
      apply lookup_ge_None in Hnq. apply lookup_lt_Some in Hq as Hj.
      specialize (Hlt j q ltac:(lia) Hq). lia.
Qed.
End formatSeries_facts.

(** *** The keys of the rows *)

Lemma String_length_app (s1 s2 : string) :
  String.length (s1 +:+ s2) = (String.length s1 + String.length s2)%nat.
Proof. induction s1 as [|c s1 IH]; simpl; [done|]. by rewrite IH. Qed.

Lemma loss_key_long (name : string) :
  (12 <= String.length (name +:+ "_packet_loss"))%nat.
Proof. rewrite String_length_app. simpl. lia. Qed.

Lemma loss_key_ne_name (name : string) : name +:+ "_packet_loss" ≠ name.
Proof.
  intros Heq. apply (f_equal String.length) in Heq.
  rewrite String_length_app in Heq. simpl in Heq. lia.
Qed.

Lemma loss_key_ne_created_at (name : string) : name +:+ "_packet_loss" ≠ "created_at"%string.
Proof.
  intros Heq. pose proof (loss_key_long name) as Hlen. rewrite Heq in Hlen. simpl in Hlen. lia.
Qed.

Lemma loss_key_ne_OFFLINE_KEY (name : string) : name +:+ "_packet_loss" ≠ OFFLINE_KEY.
Proof.
  intros Heq. pose proof (loss_key_long name) as Hlen. rewrite Heq in Hlen. simpl in Hlen. lia.
Qed.

Lemma new_row_created_at obs t :
  new_row obs t !! "created_at"%string = Some (Some (inject_Z t)).
Proof. unfold new_row. by rewrite lookup_insert_ne, lookup_singleton_eq. Qed.

Lemma new_row_OFFLINE_KEY obs t :
  new_row obs t !! OFFLINE_KEY = Some (if decide (t ∈ obs) then None else Some 1%Q).
Proof. unfold new_row. by rewrite lookup_insert_eq. Qed.

Lemma initial_table_lookup obs (timeline : list Z) (table : gmap Z ResultItem) t :
  foldl (λ table time, <[time := new_row obs time]> table) table timeline !! t
  = if decide (t ∈ timeline) then Some (new_row obs t) else table !! t.
Proof.
  revert table. induction timeline as [|time timeline IH]; intros table; simpl.
  - by destruct (decide (t ∈ [])) as [?%elem_of_nil|].
  - rewrite IH. destruct (decide (t ∈ timeline)) as [Hin|Hnin].
    + rewrite decide_True by (by right). done.
    + destruct (decide (t = time)) as [->|Hne].
      * rewrite lookup_insert_eq. rewrite decide_True by left. done.
      * rewrite lookup_insert_ne by done. rewrite decide_False; [done|].
        intros [?|?]%elem_of_cons; done.
Qed.

Lemma elem_of_formatData `{Runtime} rawData timeline obs iv t row :
  formatTable rawData timeline obs iv !! t = Some row →
  row ∈ formatData rawData timeline obs iv.
Proof.
  intros Hrow. unfold formatData. rewrite sort_by_elem_of.
  apply list_elem_of_fmap. exists (t, row). split; [done|].
  by apply elem_of_map_to_list.
Qed.

(** C1 (as amended): for a series whose timestamps are ascending and whose
    keys no other series writes, and a strictly ascending timeline, the row of
    a timestamp [t] of the timeline that is not a synthetic offline point and
    not a sample of the series carries for the series
    - a number only if a nearest valid point before [t] and a nearest valid
      point after [t] exist and are at most [1.5 × intervalMs] apart, with
      [intervalMs > 0]; the number is then the linear interpolation between
      the two points, lies between their values, and lies strictly between
      them when the two values differ (it equals them when they are equal);
    - [null] when no valid point lies before [t], when none lies after [t],
      or when the nearest ones are more than [1.5 × intervalMs] apart;
    and a [null] packet loss. *)
Theorem formatData_interpolated_between `{Runtime}
    (rawData : list NezhaMonitor) (timeline : list Z) (obs : gset Z) (iv : Z)
    (idx : nat) (item : NezhaMonitor) (t : Z) :
  keys_separate rawData idx →
  rawData !! idx = Some item →
  Sorted Z.le (created_at item) →
  Sorted Z.lt timeline →
  t ∈ timeline → t ∈ obs → t ∉ created_at item →
  ∃ row w,
    formatTable rawData timeline obs iv !! t = Some row
    ∧ row ∈ formatData rawData timeline obs iv
    ∧ row !! "created_at"%string = Some (Some (inject_Z t))
    ∧ row !! OFFLINE_KEY = Some None
    ∧ row !! (monitor_name item +:+ "_packet_loss") = Some None
    ∧ row !! monitor_name item = Some w
    ∧ (∀ v, w = Some v →
         ∃ p n, nearest_preceding item t p ∧ nearest_following item t n
           ∧ 0 < iv ∧ 2 * (point_time n - point_time p) <= 3 * iv
           ∧ (v = point_value p
                  + inject_Z (t - point_time p) / inject_Z (point_time n - point_time p)
                    * (point_value n - point_value p)
              ∧ (point_value p <= point_value n → point_value p <= v <= point_value n)
              ∧ (point_value n <= point_value p → point_value n <= v <= point_value p)
              ∧ (point_value p < point_value n → point_value p < v < point_value n)
              ∧ (point_value n < point_value p → point_value n < v < point_value p)
              ∧ (point_value p == point_value n → v == point_value p))%Q)
    ∧ ((∀ q, valid_point item q → ¬ point_time q < t) → w = None)
    ∧ ((∀ q, valid_point item q → ¬ t < point_time q) → w = None)
    ∧ (∀ p n, nearest_preceding item t p → nearest_following item t n →
         3 * iv < 2 * (point_time n - point_time p) → w = None).
Proof.
  intros [Hreserved Hprivate] Hitem Hca Hsorted Hin Hobs Hnot.
  pose proof (take_drop_middle rawData idx item Hitem) as Hsplit.
  set (pre := take idx rawData) in *. set (post := drop (S idx) rawData) in *.
  assert (length pre = idx) as Hpre
    by (apply length_take_le; apply lookup_lt_Some in Hitem; lia).
  (* the keys the other series leave alone *)
  assert (∀ other k, other ∈ rawData →
            k = "created_at"%string ∨ k = OFFLINE_KEY → k ∉ keys_of other) as Hres.
  { intros other k Hother Hk Hkeys. unfold keys_of in Hkeys.
    apply elem_of_cons in Hkeys as [Heq|Hkeys].
    - destruct (Hreserved other Hother). destruct Hk; congruence.
    - apply list_elem_of_singleton in Hkeys. symmetry in Hkeys.
      destruct Hk as [-> | ->];
        [by apply loss_key_ne_created_at in Hkeys|by apply loss_key_ne_OFFLINE_KEY in Hkeys]. }
  assert (∀ other, other ∈ pre → other ∈ rawData) as Hpre_in
    by (intros other Ho; rewrite <- Hsplit; set_solver).
  assert (∀ other, other ∈ post → other ∈ rawData) as Hpost_in
    by (intros other Ho; rewrite <- Hsplit; set_solver).
  assert (∀ other k, other ∈ post → k ∈ keys_of item → k ∉ keys_of other) as Hpost_keys.
  { intros other k [j Hj]%list_elem_of_lookup Hk.
    apply (Hprivate item (idx + S j)%nat other); [done| |lia|done].
    rewrite <- Hsplit, lookup_app_r by lia. rewrite Hpre.
    by replace (idx + S j - idx)%nat with (S j) by lia. }
  (* the table before, at and after the pass of the series *)
  unfold formatTable. rewrite <- Hsplit, foldl_app. simpl.
  set (init := foldl (λ table time, <[time := new_row obs time]> table) ∅ timeline).
  assert (init !! t = Some (new_row obs t)) as Hinit.
  { unfold init. rewrite initial_table_lookup. by rewrite decide_True. }
  destruct (foldl_formatSeries_keys timeline obs iv pre init t _ Hinit)
    as (row1 & Hrow1 & Hk1).
  assert (row1 !! OFFLINE_KEY = Some None) as Hoff1.
  { rewrite Hk1 by (intros; apply Hres; auto).
    rewrite new_row_OFFLINE_KEY. by rewrite decide_True. }
  assert (row1 !! "created_at"%string = Some (Some (inject_Z t))) as Hcr1.
  { rewrite Hk1 by (intros; apply Hres; auto). apply new_row_created_at. }
  destruct (formatSeries_row timeline obs iv _ item t row1 Hsorted Hin Hrow1 Hoff1 Hca Hnot)
    as (prev & next & [Hprev Hnext] & Hrow2).
  destruct (foldl_formatSeries_keys timeline obs iv post _ t _ Hrow2)
    as (row3 & Hrow3 & Hk3).
  exists row3, (interpolate prev next iv t).
  assert (monitor_name item ≠ "created_at"%string ∧ monitor_name item ≠ OFFLINE_KEY)
    as [Hnc Hno] by (apply Hreserved; by eapply list_elem_of_lookup_2).
  split_and!.
  - done.
  - apply (elem_of_formatData _ _ _ _ t). unfold formatTable.
    by rewrite foldl_app.
  - rewrite Hk3 by (intros; apply Hres; auto).
    rewrite !lookup_insert_ne; [done|done|]. apply loss_key_ne_created_at.
  - rewrite Hk3 by (intros; apply Hres; auto).
    rewrite !lookup_insert_ne; [done|done|]. apply loss_key_ne_OFFLINE_KEY.
  - rewrite Hk3 by (intros; apply Hpost_keys; [done|set_solver]).
    apply lookup_insert_eq.
  - rewrite Hk3 by (intros; apply Hpost_keys; [done|set_solver]).
    rewrite lookup_insert_ne by apply loss_key_ne_name. apply lookup_insert_eq.
  - intros v Hv. apply interpolate_Some in Hv as (p & n & -> & -> & Hiv & Hgap & ->).
    exists p, n.
    pose proof Hprev as (_ & Hpt & _). pose proof Hnext as (_ & Hnt & _).
    destruct (interpolation_between (point_time p) (point_time n) t
                (point_value p) (point_value n) Hpt Hnt) as (? & ? & ? & ? & ?).
    split_and!; done.
  - intros Hnone. apply interpolate_None. left.
    destruct prev as [p|]; [|done]. destruct Hprev as (Hv & Hpt & _).
    by destruct (Hnone p Hv).
  - intros Hnone. apply interpolate_None. right. left.
    destruct next as [n|]; [|done]. destruct Hnext as (Hv & Hnt & _).
    by destruct (Hnone n Hv).
  - intros p n (Hpv & Hpt & Hpn) (Hnv & Hnt & Hnn) Hgap. apply interpolate_None.
    destruct prev as [p'|]; [|by left].
    destruct next as [n'|]; [|by right; left].
    right. right. right. exists p', n'. split_and!; try done.
    destruct Hprev as (Hpv' & Hpt' & Hpn'). destruct Hnext as (Hnv' & Hnt' & Hnn').
    specialize (Hpn p' Hpv' Hpt'). specialize (Hpn' p Hpv Hpt).
    specialize (Hnn n' Hnv' Hnt'). specialize (Hnn' n Hnv Hnt). lia.
Qed.

(* ===================================================================== *)
(** * Part V: further properties of the sources                            *)
(* ===================================================================== *)

(** ** The formatter: the rows of offline points and of samples *)

Local Open Scope Z_scope.

Section formatSeries_step_rows.
Context `{Runtime}.
Variables (name : string) (tb : SeriesTables) (obs : gset Z) (iv : Z).

Let step := formatSeries_step name tb obs iv.
Let loss_key : string := name +:+ "_packet_loss".

(** The step at a row marked offline. *)
Lemma step_at_offline c t row :
  result c !! t = Some row → row !! OFFLINE_KEY ≠ Some None →
  result (step c t) !! t = Some (<[loss_key := None]> (<[name := None]> row)).
Proof.
  intros Hrow Hoff. unfold step, formatSeries_step. rewrite Hrow. simpl.
  rewrite Hrow. simpl.
  destruct (row !! OFFLINE_KEY) as [[?|]|] eqn:E; try done; simpl;
    unfold set_field; by rewrite !lookup_alter_eq, Hrow.
Qed.

(** The step at a row of an observed timestamp that is a sample of the
    series. *)
Lemma step_at_sample c t row :
  result c !! t = Some row → row !! OFFLINE_KEY = Some None → t ∈ sampleTimes tb →
  result (step c t) !! t
  = Some (<[loss_key := or_null (packetLossMap tb !! t)]>
            (<[name := or_null (valueMap tb !! t)]> row)).
Proof.
  intros Hrow Hoff Hs. unfold step, formatSeries_step. rewrite Hrow. simpl.
  rewrite Hrow. simpl. rewrite Hoff. rewrite decide_True by done. simpl.
  unfold set_field; by rewrite !lookup_alter_eq, Hrow.
Qed.

(** A key present in a row stays present. *)
Lemma step_result_defined c time t row :
  result c !! t = Some row →
  ∃ row', result (step c time) !! t = Some row'
          ∧ (∀ k, is_Some (row !! k) → is_Some (row' !! k))
          ∧ (t = time → is_Some (row' !! name) ∧ is_Some (row' !! loss_key)).
Proof.
  intros Hrow. destruct (decide (t = time)) as [->|Hne].
  - destruct (step_result_shape name tb obs iv c time) as (v & l & Hshape).
    fold step in Hshape. rewrite Hshape.
    unfold set_field. rewrite Hrow, !lookup_alter_eq, Hrow. simpl.
    eexists. split; [done|]. split.
    + intros k Hk. destruct (decide (k = name +:+ "_packet_loss")) as [->|?];
        [rewrite lookup_insert_eq; eauto|rewrite lookup_insert_ne by done].
      destruct (decide (k = name)) as [->|?];
        [rewrite lookup_insert_eq; eauto|by rewrite lookup_insert_ne].
    + intros _. unfold loss_key. rewrite lookup_insert_ne by apply loss_key_ne_name.
      rewrite lookup_insert_eq, lookup_insert_eq. eauto.
  - unfold step. rewrite step_result_other by done.
    exists row. split; [done|]. split; [done|]. intros ->. done.
Qed.

Lemma foldl_step_result_defined l c t row :
  result c !! t = Some row →
  ∃ row', result (foldl step c l) !! t = Some row'
          ∧ (∀ k, is_Some (row !! k) → is_Some (row' !! k))
          ∧ (t ∈ l → is_Some (row' !! name) ∧ is_Some (row' !! loss_key)).
Proof.
  revert c row. induction l as [|time l IH]; intros c row Hrow; simpl.
  { exists row. split; [done|]. split; [done|]. by intros ?%elem_of_nil. }
  destruct (step_result_defined c time t row Hrow) as (row1 & Hrow1 & Hk1 & Ht1).
  destruct (IH _ _ Hrow1) as (row2 & Hrow2 & Hk2 & Ht2).
  exists row2. split; [done|]. split; [by auto|].
  intros [->|Hin]%elem_of_cons; [|by auto].
  destruct Ht1 as [? ?]; [done|]. split; by apply Hk2.
Qed.

(** The rows of the table are those it starts with and those of the
    timestamps of the pass. *)
Lemma foldl_step_result_dom l c t :
  is_Some (result (foldl step c l) !! t) ↔ is_Some (result c !! t) ∨ t ∈ l.
Proof.
  revert c. induction l as [|time l IH]; intros c; simpl.
  { split; [by left|]. intros [?|?%elem_of_nil]; done. }
  rewrite IH. destruct (step_result_shape name tb obs iv c time) as (v & lo & Hshape).
  fold step in Hshape. rewrite Hshape. unfold set_field.
  destruct (decide (t = time)) as [->|Hne].
  - rewrite !lookup_alter_eq. split; [intros _; right; left|intros _; left].
    destruct (result c !! time) eqn:E; [by rewrite E|by rewrite lookup_insert_eq].
  - rewrite !lookup_alter_ne by done.
    assert (match result c !! time with
            | Some _ => result c
            | None => <[time := new_row obs time]> (result c)
            end !! t = result c !! t) as ->.
    { destruct (result c !! time); [done|by rewrite lookup_insert_ne]. }
    rewrite elem_of_cons. naive_solver.
Qed.

(** What the pass leaves in the row of a timestamp where every visit writes
    the same two values [v] and [l]. *)
Lemma foldl_step_fixed (P : option (option Q) → Prop) (v l : option Q) t :
  (∀ c row, result c !! t = Some row → P (row !! OFFLINE_KEY) →
     result (step c t) !! t = Some (<[loss_key := l]> (<[name := v]> row))) →
  name ≠ OFFLINE_KEY →
  ∀ lst c row,
    result c !! t = Some row → P (row !! OFFLINE_KEY) →
    t ∈ lst ∨ (row !! name = Some v ∧ row !! loss_key = Some l) →
    ∃ row', result (foldl step c lst) !! t = Some row'
            ∧ row' !! name = Some v ∧ row' !! loss_key = Some l
            ∧ ∀ k, k ≠ name → k ≠ loss_key → row' !! k = row !! k.
Proof.
  intros Hstep Hname lst. induction lst as [|time lst IH]; intros c row Hrow HP Hin; simpl.
  { destruct Hin as [?%elem_of_nil|[? ?]]; [done|]. by exists row. }
  destruct (decide (time = t)) as [->|Hne].
  - specialize (Hstep c row Hrow HP).
    destruct (IH (step c t) _ Hstep) as (row' & Hrow' & Hv & Hl & Hk).
    + unfold loss_key. rewrite lookup_insert_ne by apply loss_key_ne_OFFLINE_KEY.
      by rewrite lookup_insert_ne.
    + right. split; [|apply lookup_insert_eq].
      rewrite lookup_insert_ne by apply loss_key_ne_name. apply lookup_insert_eq.
    + exists row'. split_and!; try done. intros k Hk1 Hk2.
      rewrite Hk by done. by rewrite !lookup_insert_ne.
  - assert (result (step c time) !! t = Some row) as Hrow1
      by (unfold step; rewrite step_result_other; done).
    apply (IH _ _ Hrow1 HP). destruct Hin as [Hin|?]; [|by right].
    apply elem_of_cons in Hin as [?|?]; [congruence|by left].
Qed.
End formatSeries_step_rows.

(** The last index at which an array holds a value. *)
Lemma last_index_of `{EqDecision A} (x : A) (l : list A) :
  x ∈ l → ∃ i, l !! i = Some x ∧ ∀ j, (i < j)%nat → l !! j ≠ Some x.
Proof.
  induction l as [|y l IH]; [by intros ?%elem_of_nil|].
  intros Hin. destruct (decide (x ∈ l)) as [Hl|Hl].
  - destruct (IH Hl) as (i & Hi & Hlast). exists (S i). split; [done|].
    intros [|j] Hj; [lia|]. simpl. apply Hlast. lia.
  - apply elem_of_cons in Hin as [->|?]; [|done]. exists 0%nat. split; [done|].
    intros [|j] Hj; [lia|]. simpl. intros Hx. apply Hl. by eapply list_elem_of_lookup_2.
Qed.

Section collectTables_maps.
Variables (times : list Z) (values : list (option Q)) (packetLoss : list Q).

(** The two maps hold, for a timestamp, what the last sample at that
    timestamp wrote. *)
Lemma collect_maps_after k t i :
  (i < k)%nat → times !! i = Some t → (∀ j, (i < j)%nat → times !! j ≠ Some t) →
  let tb := foldl (collect_step times values packetLoss)
              {| valueMap := ∅; packetLossMap := ∅; sampleTimes := ∅; validPoints := [] |}
              (seq 0 k) in
  valueMap tb !! t = Some (or_null (values !! i))
  ∧ packetLossMap tb !! t = Some (packetLoss !! i).
Proof.
  intros Hik Hi Hlast. induction k as [|k IH]; [lia|].
  rewrite seq_S, foldl_app. simpl.
  destruct (decide (i = k)) as [->|Hne].
  - unfold collect_step at 1 3. rewrite Hi. simpl. by rewrite !lookup_insert_eq.
  - unfold collect_step at 1 3. destruct (times !! k) as [tk|] eqn:Hk.
    + simpl. assert (tk ≠ t) by (intros ->; apply (Hlast k); [lia|done]).
      rewrite !lookup_insert_ne by done. apply IH. lia.
    + apply IH; lia.
Qed.

Lemma collectTables_maps t i :
  times !! i = Some t → (∀ j, (i < j)%nat → times !! j ≠ Some t) →
  valueMap (collectTables times values packetLoss) !! t = Some (or_null (values !! i))
  ∧ packetLossMap (collectTables times values packetLoss) !! t = Some (packetLoss !! i).
Proof.
  intros Hi Hlast. apply collect_maps_after; [|done|done].
  by apply lookup_lt_Some in Hi.
Qed.
End collectTables_maps.

Section formatSeries_rows.
Context `{Runtime}.
Variables (timeline : list Z) (obs : gset Z) (iv : Z).

Lemma formatSeries_offline table item t row0 :
  t ∈ timeline → table !! t = Some row0 → row0 !! OFFLINE_KEY ≠ Some None →
  monitor_name item ≠ OFFLINE_KEY →
  ∃ row', formatSeries timeline obs iv table item !! t = Some row'
          ∧ row' !! monitor_name item = Some None
          ∧ row' !! (monitor_name item +:+ "_packet_loss") = Some None
          ∧ ∀ k, k ∉ keys_of item → row' !! k = row0 !! k.
Proof.
  intros Hin Hrow Hoff Hname. unfold formatSeries.
  set (tb := collectTables _ _ _).
  destruct (foldl_step_fixed (monitor_name item) tb obs iv (λ o, o ≠ Some None) None None t)
    with (lst := timeline) (c := {| result := table; nextIndex := 0; prevPoint := None |})
         (row := row0)
    as (row' & Hrow' & Hv & Hl & Hk); try done.
  - intros c row ??. by apply step_at_offline.
  - by left.
  - exists row'. split_and!; try done. intros k Hkeys. apply Hk; set_solver.
Qed.

Lemma formatSeries_sample table item t row0 i :
  t ∈ timeline → table !! t = Some row0 → row0 !! OFFLINE_KEY = Some None →
  monitor_name item ≠ OFFLINE_KEY →
  created_at item !! i = Some t → (∀ j, (i < j)%nat → created_at item !! j ≠ Some t) →
  ∃ row', formatSeries timeline obs iv table item !! t = Some row'
          ∧ row' !! monitor_name item = Some (or_null (avg_delay item !! i))
          ∧ row' !! (monitor_name item +:+ "_packet_loss")
            = Some (default (calculatePacketLoss (avg_delay item)) (packet_loss item) !! i)
          ∧ ∀ k, k ∉ keys_of item → row' !! k = row0 !! k.
Proof.
  intros Hin Hrow Hoff Hname Hi Hlast. unfold formatSeries.
  set (packetLoss := default _ _).
  set (tb := collectTables _ _ _).
  destruct (collectTables_maps (created_at item) (avg_delay item) packetLoss t i Hi Hlast)
    as [Hvm Hpm]. fold tb in Hvm, Hpm.
  assert (t ∈ sampleTimes tb) as Hs.
  { apply collectTables_sampleTimes. by eapply list_elem_of_lookup_2. }
  destruct (foldl_step_fixed (monitor_name item) tb obs iv (λ o, o = Some None)
              (or_null (avg_delay item !! i)) (packetLoss !! i) t)
    with (lst := timeline) (c := {| result := table; nextIndex := 0; prevPoint := None |})
         (row := row0)
    as (row' & Hrow' & Hv & Hl & Hk); try done.
  - intros c row Hc Ho. rewrite (step_at_sample _ tb obs iv c t row Hc Ho Hs).
    by rewrite Hvm, Hpm.
  - by left.
  - exists row'. split_and!; try done. intros k Hkeys. apply Hk; set_solver.
Qed.

Lemma formatSeries_defined table item t row :
  table !! t = Some row →
  ∃ row', formatSeries timeline obs iv table item !! t = Some row'
          ∧ (∀ k, is_Some (row !! k) → is_Some (row' !! k))
          ∧ (t ∈ timeline → ∀ k, k ∈ keys_of item → is_Some (row' !! k)).
Proof.
  intros Hrow. unfold formatSeries.
  destruct (foldl_step_result_defined (monitor_name item) (collectTables (created_at item)
              (avg_delay item) (default (calculatePacketLoss (avg_delay item))
              (packet_loss item))) obs iv timeline
              {| result := table; nextIndex := 0; prevPoint := None |} t row Hrow)
    as (row' & Hrow' & Hk & Ht).
  exists row'. split_and!; try done. intros Hin k Hkeys.
  destruct (Ht Hin). unfold keys_of in Hkeys. set_solver.
Qed.

Lemma foldl_formatSeries_defined (items : list NezhaMonitor) table t row :
  table !! t = Some row → t ∈ timeline →
  ∃ row', foldl (formatSeries timeline obs iv) table items !! t = Some row'
          ∧ (∀ k, is_Some (row !! k) → is_Some (row' !! k))
          ∧ ∀ item k, item ∈ items → k ∈ keys_of item → is_Some (row' !! k).
Proof.
  intros Hrow Hin. revert table row Hrow.
  induction items as [|item items IH]; intros table row Hrow; simpl.
  { exists row. split_and!; try done. by intros ?? ?%elem_of_nil. }
  destruct (formatSeries_defined table item t row Hrow) as (row1 & Hrow1 & Hk1 & Ht1).
  destruct (IH _ _ Hrow1) as (row2 & Hrow2 & Hk2 & Ht2).
  exists row2. split_and!; [done|by auto|].
  intros other k [->|Ho]%elem_of_cons Hk; [apply Hk2; by apply Ht1|by eapply Ht2].
Qed.

Lemma formatSeries_dom table item t :
  is_Some (formatSeries timeline obs iv table item !! t)
  ↔ is_Some (table !! t) ∨ t ∈ timeline.
Proof. unfold formatSeries. by rewrite foldl_step_result_dom. Qed.

(** The table has exactly one row per timestamp of the timeline. *)
Lemma formatTable_dom rawData t :
  is_Some (formatTable rawData timeline obs iv !! t) ↔ t ∈ timeline.
Proof.
  unfold formatTable.
  set (init := foldl (λ table time, <[time := new_row obs time]> table) ∅ timeline).
  assert (is_Some (init !! t) ↔ t ∈ timeline) as Hinit.
  { unfold init. rewrite initial_table_lookup. destruct (decide (t ∈ timeline)).
    - split; eauto.
    - rewrite lookup_empty. split; [by intros [? ?]|done]. }
  revert Hinit. generalize init. induction rawData as [|item items IH]; intros table Ht;
    simpl; [done|].
  apply IH. rewrite formatSeries_dom. tauto.
Qed.

(** The rows around the pass of the series at [idx]: before it the row of
    [t] is as created, and the passes after it keep what it wrote. *)
Lemma formatTable_pass rawData idx item t :
  keys_separate rawData idx → rawData !! idx = Some item → t ∈ timeline →
  ∃ table1 row1,
    table1 !! t = Some row1
    ∧ row1 !! "created_at"%string = Some (Some (inject_Z t))
    ∧ row1 !! OFFLINE_KEY = Some (if decide (t ∈ obs) then None else Some 1%Q)
    ∧ ∀ row2, formatSeries timeline obs iv table1 item !! t = Some row2 →
        (∀ k, k ∉ keys_of item → row2 !! k = row1 !! k) →
        ∃ row3, formatTable rawData timeline obs iv !! t = Some row3
                ∧ row3 !! "created_at"%string = Some (Some (inject_Z t))
                ∧ row3 !! OFFLINE_KEY = Some (if decide (t ∈ obs) then None else Some 1%Q)
                ∧ ∀ k, k ∈ keys_of item → row3 !! k = row2 !! k.
Proof.
  intros [Hreserved Hprivate] Hitem Hin.
  pose proof (take_drop_middle rawData idx item Hitem) as Hsplit.
  set (pre := take idx rawData) in *. set (post := drop (S idx) rawData) in *.
  assert (length pre = idx) as Hpre
    by (apply length_take_le; apply lookup_lt_Some in Hitem; lia).
  assert (∀ other k, other ∈ rawData →
            k = "created_at"%string ∨ k = OFFLINE_KEY → k ∉ keys_of other) as Hres.
  { intros other k Hother Hk Hkeys. unfold keys_of in Hkeys.
    apply elem_of_cons in Hkeys as [Heq|Hkeys].
    - destruct (Hreserved other Hother). destruct Hk; congruence.
    - apply list_elem_of_singleton in Hkeys. symmetry in Hkeys.
      destruct Hk as [-> | ->];
        [by apply loss_key_ne_created_at in Hkeys|by apply loss_key_ne_OFFLINE_KEY in Hkeys]. }
  assert (∀ other, other ∈ pre → other ∈ rawData) as Hpre_in
    by (intros other Ho; rewrite <- Hsplit; set_solver).
  assert (∀ other, other ∈ post → other ∈ rawData) as Hpost_in
    by (intros other Ho; rewrite <- Hsplit; set_solver).
  assert (item ∈ rawData) as Hitem_in by (by eapply list_elem_of_lookup_2).
  assert (∀ other k, other ∈ post → k ∈ keys_of item → k ∉ keys_of other) as Hpost_keys.
  { intros other k [j Hj]%list_elem_of_lookup Hk.
    apply (Hprivate item (idx + S j)%nat other); [done| |lia|done].
    rewrite <- Hsplit, lookup_app_r by lia. rewrite Hpre.
    by replace (idx + S j - idx)%nat with (S j) by lia. }
  set (init := foldl (λ (table : gmap Z ResultItem) time, <[time := new_row obs time]> table)
                     ∅ timeline).
  assert (init !! t = Some (new_row obs t)) as Hinit.
  { unfold init. rewrite initial_table_lookup. by rewrite decide_True. }
  destruct (foldl_formatSeries_keys timeline obs iv pre init t _ Hinit)
    as (row1 & Hrow1 & Hk1).
  exists (foldl (formatSeries timeline obs iv) init pre), row1.
  assert (row1 !! "created_at"%string = Some (Some (inject_Z t))) as Hcr1.
  { rewrite Hk1 by (intros; apply Hres; auto). apply new_row_created_at. }
  assert (row1 !! OFFLINE_KEY = Some (if decide (t ∈ obs) then None else Some 1%Q)) as Hoff1.
  { rewrite Hk1 by (intros; apply Hres; auto). apply new_row_OFFLINE_KEY. }
  split_and!; try done.
  intros row2 Hrow2 Hk2.
  destruct (foldl_formatSeries_keys timeline obs iv post _ t _ Hrow2)
    as (row3 & Hrow3 & Hk3).
  exists row3. split_and!.
  - unfold formatTable. fold init. rewrite <- Hsplit, foldl_app. done.
  - rewrite Hk3 by (intros; apply Hres; auto).
    rewrite Hk2 by (apply Hres; auto). done.
  - rewrite Hk3 by (intros; apply Hres; auto).
    rewrite Hk2 by (apply Hres; auto). done.
  - intros k Hk. apply Hk3. intros other Ho. by apply Hpost_keys.
Qed.
End formatSeries_rows.

(** X1: a timestamp of the timeline that was not observed gives a row
    marked offline (the marker is 1) in which every series has a [null]
    value and a [null] packet loss, provided no series is named like a key
    another series or the row itself uses. *)
Theorem formatData_offline_row `{Runtime}
    (rawData : list NezhaMonitor) (timeline : list Z) (obs : gset Z) (iv : Z)
    (idx : nat) (item : NezhaMonitor) (t : Z) :
  keys_separate rawData idx →
  rawData !! idx = Some item →
  t ∈ timeline → t ∉ obs →
  ∃ row,
    formatTable rawData timeline obs iv !! t = Some row
    ∧ row ∈ formatData rawData timeline obs iv
    ∧ row !! "created_at"%string = Some (Some (inject_Z t))
    ∧ row !! OFFLINE_KEY = Some (Some 1%Q)
    ∧ row !! monitor_name item = Some None
    ∧ row !! (monitor_name item +:+ "_packet_loss") = Some None.
Proof.
  intros Hsep Hitem Hin Hobs.
  destruct (formatTable_pass timeline obs iv rawData idx item t Hsep Hitem Hin)
    as (table1 & row1 & Hrow1 & Hcr1 & Hoff1 & Hpass).
  rewrite decide_False in Hoff1 by done.
  assert (monitor_name item ≠ OFFLINE_KEY) as Hname.
  { destruct Hsep as [Hreserved _]. apply Hreserved. by eapply list_elem_of_lookup_2. }
  destruct (formatSeries_offline timeline obs iv table1 item t row1 Hin Hrow1)
    as (row2 & Hrow2 & Hv & Hl & Hk2); [by rewrite Hoff1|done|].
  destruct (Hpass row2 Hrow2 Hk2) as (row3 & Hrow3 & Hcr3 & Hoff3 & Hk3).
  rewrite decide_False in Hoff3 by done.
  exists row3. split_and!; try done.
  - by apply (elem_of_formatData _ _ _ _ t).
  - rewrite Hk3 by (unfold keys_of; set_solver). done.
  - rewrite Hk3 by (unfold keys_of; set_solver). done.
Qed.

(** X2: a timestamp of the timeline that was observed and is a sample of a
    series gives a row that is not marked offline and carries, for that
    series, the value and the packet loss of the sample (of the last sample
    with that timestamp, when there are several): the reported value, or
    [null] for a lost probe; the reported packet loss, or else the
    estimate of [calculatePacketLoss]. *)
Theorem formatData_sample_row `{Runtime}
    (rawData : list NezhaMonitor) (timeline : list Z) (obs : gset Z) (iv : Z)
    (idx : nat) (item : NezhaMonitor) (t : Z) :
  keys_separate rawData idx →
  rawData !! idx = Some item →
  t ∈ timeline → t ∈ obs →
  t ∈ created_at item →
  ∃ i row,
    created_at item !! i = Some t
    ∧ (∀ j, (i < j)%nat → created_at item !! j ≠ Some t)
    ∧ formatTable rawData timeline obs iv !! t = Some row
    ∧ row ∈ formatData rawData timeline obs iv
    ∧ row !! "created_at"%string = Some (Some (inject_Z t))
    ∧ row !! OFFLINE_KEY = Some None
    ∧ row !! monitor_name item = Some (or_null (avg_delay item !! i))
    ∧ row !! (monitor_name item +:+ "_packet_loss")
      = Some (default (calculatePacketLoss (avg_delay item)) (packet_loss item) !! i).
Proof.
  intros Hsep Hitem Hin Hobs Hsample.
  destruct (last_index_of t (created_at item) Hsample) as (i & Hi & Hlast).
  destruct (formatTable_pass timeline obs iv rawData idx item t Hsep Hitem Hin)
    as (table1 & row1 & Hrow1 & Hcr1 & Hoff1 & Hpass).
  rewrite decide_True in Hoff1 by done.
  assert (monitor_name item ≠ OFFLINE_KEY) as Hname.
  { destruct Hsep as [Hreserved _]. apply Hreserved. by eapply list_elem_of_lookup_2. }
  destruct (formatSeries_sample timeline obs iv table1 item t row1 i Hin Hrow1 Hoff1 Hname
              Hi Hlast) as (row2 & Hrow2 & Hv & Hl & Hk2).
  destruct (Hpass row2 Hrow2 Hk2) as (row3 & Hrow3 & Hcr3 & Hoff3 & Hk3).
  rewrite decide_True in Hoff3 by done.
  exists i, row3. split_and!; try done.
  - by apply (elem_of_formatData _ _ _ _ t).
  - rewrite Hk3 by (unfold keys_of; set_solver). done.
  - rewrite Hk3 by (unfold keys_of; set_solver). done.
Qed.

Lemma Sorted_fmap_mono {A B} (R : A → A → Prop) (R' : B → B → Prop) (f : A → B) l :
  (∀ a b, R a b → R' (f a) (f b)) → Sorted R l → Sorted R' (f <$> l).
Proof.
  intros Hf Hs. induction Hs as [|x l Hs IH Hhd]; simpl; constructor; [done|].
  destruct Hhd; simpl; constructor. by apply Hf.
Qed.

Lemma elem_of_formatData_inv `{Runtime} rawData timeline obs iv row :
  row ∈ formatData rawData timeline obs iv →
  ∃ t, formatTable rawData timeline obs iv !! t = Some row.
Proof.
  unfold formatData. rewrite sort_by_elem_of. intros Hin.
  apply list_elem_of_fmap in Hin as ([t row'] & -> & Hin).
  apply elem_of_map_to_list in Hin. eauto.
Qed.

(** X3: when no series is named [created_at], the rows are in strictly
    ascending order of their timestamp and there is exactly one row for each
    timestamp of the timeline, whatever the order and the repetitions of the
    timeline: the row of [t] in the table, with [created_at] equal to [t]. *)
Theorem formatData_rows_ascending `{Runtime}
    (rawData : list NezhaMonitor) (timeline : list Z) (obs : gset Z) (iv : Z) :
  (∀ item, item ∈ rawData → monitor_name item ≠ "created_at"%string) →
  ∃ ts, Sorted Z.lt ts
    ∧ (∀ t, t ∈ ts ↔ t ∈ timeline)
    ∧ Forall2 (λ t row, formatTable rawData timeline obs iv !! t = Some row
                        ∧ row !! "created_at"%string = Some (Some (inject_Z t)))
        ts (formatData rawData timeline obs iv).
Proof.
  intros Hnames.
  set (T := formatTable rawData timeline obs iv).
  assert (∀ t row, T !! t = Some row →
            row !! "created_at"%string = Some (Some (inject_Z t))) as Hrow.
  { intros t row Ht.
    assert (t ∈ timeline) as Hin by (apply (formatTable_dom timeline obs iv rawData); eauto).
    unfold T, formatTable in Ht.
    set (init := foldl (λ (table : gmap Z ResultItem) time,
                          <[time := new_row obs time]> table) ∅ timeline) in Ht.
    assert (init !! t = Some (new_row obs t)) as Hinit.
    { unfold init. rewrite initial_table_lookup. by rewrite decide_True. }
    destruct (foldl_formatSeries_keys timeline obs iv rawData init t _ Hinit)
      as (row' & Hrow' & Hk).
    rewrite Ht in Hrow'. injection Hrow' as <-.
    rewrite Hk; [apply new_row_created_at|].
    intros other Ho Hkeys. unfold keys_of in Hkeys.
    apply elem_of_cons in Hkeys as [Heq|Hkeys].
    - by apply (Hnames other Ho).
    - apply list_elem_of_singleton in Hkeys. symmetry in Hkeys.
      by apply loss_key_ne_created_at in Hkeys. }
  set (key := λ row : ResultItem, Qfloor (row_created_at row)).
  assert (∀ t row, T !! t = Some row → key row = t) as Hkey.
  { intros t row Ht. unfold key, row_created_at. rewrite (Hrow t row Ht). apply Qfloor_Z. }
  set (leb := λ a b : ResultItem, Qle_bool (row_created_at a) (row_created_at b)).
  set (rows := snd <$> map_to_list T).
  assert (formatData rawData timeline obs iv = sort_by leb rows) as Hout by done.
  exists (key <$> formatData rawData timeline obs iv).
  assert (∀ row, row ∈ formatData rawData timeline obs iv → T !! key row = Some row) as Hlook.
  { intros row [t Ht]%elem_of_formatData_inv. fold T in Ht. by rewrite (Hkey t row Ht). }
  split_and!.
  - apply Sorted_le_NoDup_lt.
    + rewrite Hout. apply (Sorted_fmap_mono (λ a b, leb a b = true)).
      * intros a b Hab. unfold key. apply Qfloor_resp_le. by apply Qle_bool_iff.
      * apply sort_by_Sorted. intros a b. unfold leb. intros Hf%Qle_bool_false.
        apply Qle_bool_iff. by apply Qlt_le_weak.
    + rewrite Hout.
      assert (key <$> sort_by leb rows ≡ₚ key <$> rows) as ->
        by (apply fmap_Permutation, sort_by_Permutation).
      replace (key <$> rows) with ((map_to_list T).*1); [apply NoDup_fst_map_to_list|].
      unfold rows. rewrite <- list_fmap_compose. apply Forall_fmap_ext, Forall_forall.
      intros [t row] Hin%elem_of_map_to_list. simpl. by rewrite (Hkey t row Hin).
  - intros t. rewrite list_elem_of_fmap. split.
    + intros (row & -> & Hin). apply (formatTable_dom timeline obs iv rawData).
      exists row. by apply Hlook.
    + intros Hin. apply (formatTable_dom timeline obs iv rawData) in Hin as [row Ht].
      exists row. split; [symmetry; by apply Hkey|]. by apply (elem_of_formatData _ _ _ _ t).
  - apply Forall2_fmap_l, Forall_Forall2_diag, Forall_forall. intros row Hin. simpl.
    split; [by apply Hlook|by apply Hrow, Hlook].
Qed.

Section transformData_facts.
Context `{Runtime}.

Lemma transformData_dom (items : list NezhaMonitor) key :
  is_Some (transformData items !! key) ↔ ∃ item, item ∈ items ∧ monitor_name item = key.
Proof.
  unfold transformData.
  assert (∀ m : gmap string (list ChartPoint),
            is_Some (foldl (λ (monitorData : gmap string (list ChartPoint)) item,
               let monitorName := monitor_name item in
               let monitorData :=
                 match monitorData !! monitorName with
                 | Some _ => monitorData
                 | None => <[monitorName := []]> monitorData
                 end in
               alter (λ points, points ++ chart_points item) monitorName monitorData)
              m items !! key)
            ↔ is_Some (m !! key) ∨ ∃ item, item ∈ items ∧ monitor_name item = key) as Hgen.
  { induction items as [|item items IH]; intros m; simpl.
    - split; [by left|]. intros [?|(? & ?%elem_of_nil & _)]; done.
    - rewrite IH. destruct (decide (monitor_name item = key)) as [<-|Hne].
      + rewrite lookup_alter_eq. split.
        * intros _. right. exists item. split; [by left|done].
        * intros _. left. destruct (m !! monitor_name item) eqn:E;
            [rewrite E|rewrite lookup_insert_eq]; simpl; eauto.
      + rewrite lookup_alter_ne by done.
        assert (match m !! monitor_name item with
                | Some _ => m
                | None => <[monitor_name item := []]> m
                end !! key = m !! key) as ->.
        { destruct (m !! monitor_name item); [done|by rewrite lookup_insert_ne]. }
        split.
        * intros [?|(other & Ho & Hn)]; [by left|]. right. exists other.
          split; [by right|done].
        * intros [?|(other & Ho & Hn)]; [by left|].
          apply elem_of_cons in Ho as [->|Ho]; [done|]. right. eauto. }
  rewrite Hgen, lookup_empty. split; [|by right]. intros [[? ?]|?]; done.
Qed.
End transformData_facts.

(** X4: every row of the formatted data has a value, a number or [null]
    and never [undefined], under every key of the chart (the keys of
    [transformData], which are the monitor names) and under the packet-loss
    key of every chart. *)
Theorem formatData_rows_have_chart_keys `{Runtime}
    (rawData : list NezhaMonitor) (timeline : list Z) (obs : gset Z) (iv : Z)
    (row : ResultItem) (key : string) :
  row ∈ formatData rawData timeline obs iv →
  is_Some (transformData rawData !! key) →
  is_Some (row !! key) ∧ is_Some (row !! (key +:+ "_packet_loss")).
Proof.
  intros [t Ht]%elem_of_formatData_inv (item & Hitem & <-)%transformData_dom.
  assert (t ∈ timeline) as Hin by (apply (formatTable_dom timeline obs iv rawData); eauto).
  unfold formatTable in Ht.
  set (init := foldl (λ (table : gmap Z ResultItem) time,
                        <[time := new_row obs time]> table) ∅ timeline) in Ht.
  assert (init !! t = Some (new_row obs t)) as Hinit.
  { unfold init. rewrite initial_table_lookup. by rewrite decide_True. }
  destruct (foldl_formatSeries_defined timeline obs iv rawData init t _ Hinit Hin)
    as (row' & Hrow' & _ & Hkeys).
  rewrite Ht in Hrow'. injection Hrow' as <-.
  split; apply (Hkeys item); try done; unfold keys_of; set_solver.
Qed.

(** ** Offline spans against the observed timestamps *)

Local Open Scope Z_scope.

Lemma internalSpans_cons (p n : Z) (rest : list Z) (rangeEnd iv : Z) (threshold : Q) :
  internalSpans (p :: n :: rest) rangeEnd iv threshold
  = (if Qgt_bool (inject_Z (n - p)) threshold then
       if p + iv <? Z.min n rangeEnd then [{| start := p + iv; end_ := Z.min n rangeEnd |}]
       else []
     else [])
    ++ internalSpans (n :: rest) rangeEnd iv threshold.
Proof. reflexivity. Qed.

(** The spans of the loop are those of the consecutive pairs that are more
    than the threshold apart. *)
Lemma elem_of_internalSpans times rangeEnd iv threshold s :
  s ∈ internalSpans times rangeEnd iv threshold ↔
  ∃ i p n, times !! i = Some p ∧ times !! S i = Some n
    ∧ Qgt_bool (inject_Z (n - p)) threshold = true
    ∧ p + iv < Z.min n rangeEnd
    ∧ s = {| start := p + iv; end_ := Z.min n rangeEnd |}.
Proof.
  induction times as [|p0 times IH].
  { simpl. split; [by intros ?%elem_of_nil|]. by intros (i & p & n & ? & _). }
  destruct times as [|n0 rest].
  { simpl. split; [by intros ?%elem_of_nil|]. by intros ([|i] & p & n & ? & ? & _). }
  rewrite internalSpans_cons, elem_of_app, IH. split.
  - intros [Hin|(i & p & n & Hp & Hn & Hrest)].
    + destruct (Qgt_bool _ _) eqn:Hg; [|by apply elem_of_nil in Hin].
      destruct (_ <? _) eqn:Hlt; [|by apply elem_of_nil in Hin].
      apply list_elem_of_singleton in Hin as ->. apply Z.ltb_lt in Hlt.
      by exists 0%nat, p0, n0.
    + by exists (S i), p, n.
  - intros ([|i] & p & n & Hp & Hn & Hg & Hlt & ->).
    + left. simpl in Hp, Hn. injection Hp as ->. injection Hn as ->.
      rewrite Hg. apply Z.ltb_lt in Hlt. rewrite Hlt. left.
    + right. by exists i, p, n.
Qed.

(** The spans of a range that is not empty, at a positive interval, around
    observed timestamps. *)
Lemma elem_of_buildOfflineSpans observedTimes rs re iv s :
  rs < re → 0 < iv → observedTimes ≠ [] →
  s ∈ buildOfflineSpans observedTimes rs re iv ↔
    (∃ firstTime, head (sort_Z observedTimes) = Some firstTime
       ∧ 3 * iv < 2 * (firstTime - rs)
       ∧ s = {| start := rs; end_ := firstTime |})
    ∨ (∃ i p n, sort_Z observedTimes !! i = Some p ∧ sort_Z observedTimes !! S i = Some n
         ∧ 3 * iv < 2 * (n - p) ∧ p + iv < Z.min n re
         ∧ s = {| start := p + iv; end_ := Z.min n re |})
    ∨ (∃ lastTime, last (sort_Z observedTimes) = Some lastTime
         ∧ 3 * iv < 2 * (re - lastTime) ∧ lastTime + iv < re
         ∧ s = {| start := lastTime + iv; end_ := re |}).
Proof.
  intros Hr Hi Hne. unfold buildOfflineSpans.
  destruct (re <=? rs) eqn:E1; [apply Z.leb_le in E1; lia|].
  destruct (iv <=? 0) eqn:E2; [apply Z.leb_le in E2; lia|]. simpl.
  destruct observedTimes as [|o os] eqn:Hobs; [done|]. rewrite <- Hobs. clear Hobs o os Hne.
  destruct (head (sort_Z observedTimes)) as [firstTime|] eqn:Hhd.
  2:{ split; [by intros ?%elem_of_nil|].
      intros [(? & ? & _)|[(i & p & n & Hp & _)|(l & Hl & _)]]; [done| |].
      - destruct (sort_Z observedTimes); done.
      - destruct (sort_Z observedTimes); done. }
  destruct (last (sort_Z observedTimes)) as [lastTime|] eqn:Hla.
  2:{ apply last_None in Hla. by rewrite Hla in Hhd. }
  rewrite !elem_of_app, elem_of_internalSpans.
  split.
  - intros [Hin|[(i & p & n & Hp & Hn & Hg & Hlt & ->)|Hin]].
    + destruct (Qgt_bool _ _) eqn:Hg; [|by apply elem_of_nil in Hin].
      apply list_elem_of_singleton in Hin as ->. apply Qgt_bool_threshold in Hg.
      left. by exists firstTime.
    + apply Qgt_bool_threshold in Hg. right. left. by exists i, p, n.
    + destruct (Qgt_bool _ _) eqn:Hg; [|by apply elem_of_nil in Hin]. simpl in Hin.
      destruct (_ <? _) eqn:Hlt; [|by apply elem_of_nil in Hin].
      apply list_elem_of_singleton in Hin as ->. apply Qgt_bool_threshold in Hg.
      apply Z.ltb_lt in Hlt. right. right. by exists lastTime.
  - intros [(f & [= <-] & Hg & ->)|[(i & p & n & Hp & Hn & Hg & Hlt & ->)
                                   |(l & [= <-] & Hg & Hlt & ->)]].
    + left. apply Qgt_bool_threshold in Hg. rewrite Hg. left.
    + right. left. apply Qgt_bool_threshold in Hg. by exists i, p, n.
    + right. right. apply Qgt_bool_threshold in Hg. rewrite Hg. simpl.
      apply Z.ltb_lt in Hlt. rewrite Hlt. left.
Qed.

Lemma sort_Z_elem_of_1 x l : x ∈ sort_Z l → x ∈ l.
Proof. apply sort_Z_elem_of. Qed.

Lemma sort_Z_elem_of_2 x l : x ∈ l → x ∈ sort_Z l.
Proof. apply sort_Z_elem_of. Qed.

(** In an ascending list, what is not after the element at [i] is at or
    before it. *)
Lemma StronglySorted_le_split (l : list Z) i p n x :
  StronglySorted Z.le l → l !! i = Some p → l !! S i = Some n → x ∈ l → x <= p ∨ n <= x.
Proof.
  intros Hss Hp Hn [j Hj]%list_elem_of_lookup.
  destruct (decide (j <= i)%nat) as [Hle|Hgt].
  - left. destruct (decide (j = i)) as [->|Hne]; [assert (x = p) by congruence; lia|].
    apply (StronglySorted_lookup Z.le l j i); try done. lia.
  - right. destruct (decide (j = S i)) as [->|Hne]; [assert (x = n) by congruence; lia|].
    apply (StronglySorted_lookup Z.le l (S i) j); try done. lia.
Qed.

(** No span contains an observed timestamp, and every span lies within the
    range, when the observed timestamps do. *)
Lemma buildOfflineSpans_exclude observedTimes rs re iv span :
  (∀ x, x ∈ observedTimes → rs <= x <= re) →
  span ∈ buildOfflineSpans observedTimes rs re iv →
  rs <= start span ∧ start span < end_ span ∧ end_ span <= re
  ∧ ∀ x, x ∈ observedTimes → ¬ (start span <= x < end_ span).
Proof.
  intros Hobs Hin.
  destruct (decide (rs < re)) as [Hr|Hr].
  2:{ unfold buildOfflineSpans in Hin. destruct (re <=? rs) eqn:E; [|apply Z.leb_gt in E; lia].
      by apply elem_of_nil in Hin. }
  destruct (decide (0 < iv)) as [Hi|Hi].
  2:{ unfold buildOfflineSpans in Hin. destruct (iv <=? 0) eqn:E; [|apply Z.leb_gt in E; lia].
      rewrite orb_true_r in Hin. by apply elem_of_nil in Hin. }
  destruct observedTimes as [|o os] eqn:Ho.
  { unfold buildOfflineSpans in Hin.
    destruct (re <=? rs) eqn:E1; [apply Z.leb_le in E1; lia|].
    destruct (iv <=? 0) eqn:E2; [apply Z.leb_le in E2; lia|]. simpl in Hin.
    apply list_elem_of_singleton in Hin as ->. simpl.
    split_and!; [lia|lia|lia|]. by intros x ?%elem_of_nil. }
  rewrite <- Ho in *. assert (observedTimes ≠ []) as Hne by (by rewrite Ho). clear Ho o os.
  pose proof (sort_Z_StronglySorted observedTimes) as Hss.
  assert (∀ x, x ∈ sort_Z observedTimes → rs <= x <= re) as Hsorted
    by (intros x Hx%sort_Z_elem_of_1; by apply Hobs).
  apply elem_of_buildOfflineSpans in Hin; try done.
  destruct Hin as [(f & Hhd & Hg & ->)|[(i & p & n & Hp & Hn & Hg & Hlt & ->)
                                       |(l & Hla & Hg & Hlt & ->)]]; simpl.
  - destruct (last (sort_Z observedTimes)) as [l|] eqn:Hla.
    2:{ apply last_None in Hla. by rewrite Hla in Hhd. }
    pose proof (StronglySorted_head_last _ _ _ Hss Hhd Hla) as Hb.
    assert (f ∈ sort_Z observedTimes) as Hf.
    { destruct (sort_Z observedTimes); [done|]. simpl in Hhd. injection Hhd as ->. left. }
    specialize (Hsorted f Hf). split_and!; [lia|lia|lia|].
    intros x Hx%sort_Z_elem_of_2. specialize (Hb x Hx). lia.
  - assert (rs <= p <= re) by (apply Hsorted; by eapply list_elem_of_lookup_2).
    assert (rs <= n <= re) by (apply Hsorted; by eapply list_elem_of_lookup_2).
    split_and!; [lia|lia|lia|].
    intros x Hx%sort_Z_elem_of_2.
    destruct (StronglySorted_le_split _ i p n x Hss Hp Hn Hx); lia.
  - split_and!; [|lia|lia|].
    + assert (rs <= l <= re); [|lia]. apply Hsorted.
      apply last_Some in Hla as [l' ->]. set_solver.
    + intros x Hx%sort_Z_elem_of_2.
      pose proof (StronglySorted_le_last _ _ x Hss Hla Hx). lia.
Qed.

Lemma offlineSpans_exclude (rawData : list NezhaMonitor) (rangeStart rangeEnd : Z) span :
  let r := buildTimelineData rawData rangeStart rangeEnd in
  span ∈ offlineSpans r →
  rangeStart <= start span ∧ start span < end_ span ∧ end_ span <= rangeEnd
  ∧ ∀ t, start span <= t < end_ span → t ∉ observedSet r.
Proof.
  intros r Hin. unfold r, buildTimelineData in Hin. simpl in Hin.
  apply buildOfflineSpans_exclude in Hin as (H1 & H2 & H3 & H4).
  - split_and!; try done. intros t Ht Hobs. apply (H4 t); [|done].
    by apply sort_Z_elem_of, elem_of_elements.
  - intros x Hx%sort_Z_elem_of_1%elem_of_elements.
    by apply (elem_of_observedSet rawData rangeStart rangeEnd) in Hx as [? _].
Qed.

Lemma timeline_within_range (rawData : list NezhaMonitor) (rangeStart rangeEnd : Z) t :
  let r := buildTimelineData rawData rangeStart rangeEnd in
  t ∈ timeline r →
  rangeStart <= t <= rangeEnd
  ∧ (t ∉ observedSet r ↔ ∃ span, span ∈ offlineSpans r ∧ start span <= t < end_ span).
Proof.
  intros r Ht.
  pose proof (intervalMs_pos rawData rangeStart rangeEnd) as Hiv. fold r in Hiv.
  apply elem_of_timeline in Ht. fold r in Ht.
  destruct Ht as [Hobs|Hpt].
  - split.
    + by apply (elem_of_observedSet rawData rangeStart rangeEnd) in Hobs as [? _].
    + split; [done|]. intros (span & Hin & Hrange).
      by destruct (offlineSpans_exclude rawData rangeStart rangeEnd span Hin)
        as (_ & _ & _ & Hex); apply (Hex t).
  - apply elem_of_buildOfflinePoints in Hpt as (span & k & Hin & Hk & -> & Hlt); [|lia].
    destruct (offlineSpans_exclude rawData rangeStart rangeEnd span Hin)
      as (H1 & H2 & H3 & Hex).
    assert (start span <= start span + k * intervalMs r < end_ span) as Hrange by nia.
    split; [lia|]. split; [intros _; by exists span|]. intros _. by apply Hex.
Qed.

(** X5: an offline span of the timeline lies within the displayed range, is
    not empty and contains no observed timestamp; the timestamps of the
    timeline all lie within the range, and those that were not observed are
    exactly those inside an offline span. *)
Theorem offline_spans_exclude_observed (rawData : list NezhaMonitor)
    (rangeStart rangeEnd : Z) :
  let r := buildTimelineData rawData rangeStart rangeEnd in
  (∀ span, span ∈ offlineSpans r →
     rangeStart <= start span ∧ start span < end_ span ∧ end_ span <= rangeEnd
     ∧ ∀ t, start span <= t < end_ span → t ∉ observedSet r)
  ∧ (∀ t, t ∈ timeline r →
       rangeStart <= t <= rangeEnd
       ∧ (t ∉ observedSet r ↔ ∃ span, span ∈ offlineSpans r ∧ start span <= t < end_ span)).
Proof.
  intros r. split.
  - intros span. apply offlineSpans_exclude.
  - intros t. apply timeline_within_range.
Qed.

Lemma Sorted_lt_adjacent (l : list Z) prev next :
  Sorted Z.lt l → prev ∈ l → next ∈ l → prev < next →
  (∀ x, x ∈ l → ¬ (prev < x < next)) →
  ∃ i, l !! i = Some prev ∧ l !! S i = Some next.
Proof.
  intros Hs [i Hi]%list_elem_of_lookup [j Hj]%list_elem_of_lookup Hlt Hnone.
  apply Sorted_StronglySorted in Hs; [|intros ???; lia].
  assert (i < j)%nat as Hij.
  { destruct (decide (i < j)%nat); [done|].
    destruct (decide (i = j)) as [->|]; [assert (prev = next) by congruence; lia|].
    pose proof (StronglySorted_lookup Z.lt l j i next prev Hs Hj Hi ltac:(lia)). lia. }
  exists i. split; [done|].
  destruct (decide (j = S i)) as [->|Hne]; [done|].
  destruct (lookup_lt_is_Some_2 l (S i)) as [x Hx];
    [apply lookup_lt_Some in Hj; lia|].
  pose proof (StronglySorted_lookup Z.lt l i (S i) prev x Hs Hi Hx ltac:(lia)).
  pose proof (StronglySorted_lookup Z.lt l (S i) j x next Hs Hx Hj ltac:(lia)).
  destruct (Hnone x); [by eapply list_elem_of_lookup_2|lia].
Qed.

Section timeline_gaps.
Variables (rawData : list NezhaMonitor) (rangeStart rangeEnd : Z).

Let r := buildTimelineData rawData rangeStart rangeEnd.
Let observedTimes := sort_Z (elements (observedSet r)).

Lemma offlineSpans_unfold :
  offlineSpans r = buildOfflineSpans observedTimes rangeStart rangeEnd (intervalMs r).
Proof. reflexivity. Qed.

Lemma sorted_observed_elem_of x : x ∈ sort_Z observedTimes ↔ x ∈ observedSet r.
Proof. unfold observedTimes. by rewrite !sort_Z_elem_of, elem_of_elements. Qed.

Lemma sorted_observed_lt : Sorted Z.lt (sort_Z observedTimes).
Proof.
  apply sort_Z_NoDup_lt. unfold observedTimes, sort_Z.
  rewrite sort_by_Permutation. apply NoDup_elements.
Qed.

(** A span that reaches into the gap between two neighbouring observed
    timestamps is the span of that gap, and the gap is wide. *)
Lemma span_in_gap prev next span t :
  prev ∈ observedSet r → next ∈ observedSet r →
  (∀ x, x ∈ observedSet r → ¬ (prev < x < next)) →
  span ∈ offlineSpans r → prev < t < next → start span <= t < end_ span →
  span = {| start := prev + intervalMs r; end_ := next |}
  ∧ 3 * intervalMs r < 2 * (next - prev).
Proof.
  intros Hprev Hnext Hnone Hin Ht Hspan.
  pose proof (intervalMs_pos rawData rangeStart rangeEnd) as Hiv. fold r in Hiv.
  assert (rangeStart <= prev <= rangeEnd)
    by (by apply (elem_of_observedSet rawData rangeStart rangeEnd) in Hprev as [? _]).
  assert (rangeStart <= next <= rangeEnd)
    by (by apply (elem_of_observedSet rawData rangeStart rangeEnd) in Hnext as [? _]).
  assert (observedTimes ≠ []) as Hne.
  { intros He. apply sorted_observed_elem_of in Hprev. rewrite He in Hprev.
    by apply elem_of_nil in Hprev. }
  pose proof (sort_Z_StronglySorted observedTimes) as Hss.
  apply sorted_observed_elem_of in Hprev as Hprev', Hnext as Hnext'.
  rewrite offlineSpans_unfold in Hin.
  apply elem_of_buildOfflineSpans in Hin; [|lia|lia|done].
  destruct Hin as [(f & Hhd & Hg & ->)|[(i & p & n & Hp & Hn & Hg & Hlt & ->)
                                       |(l & Hla & Hg & Hlt & ->)]]; cbn [start end_] in Hspan.
  - destruct (last (sort_Z observedTimes)) as [l|] eqn:Hla.
    2:{ apply last_None in Hla. by rewrite Hla in Hhd. }
    pose proof (StronglySorted_head_last _ _ _ Hss Hhd Hla prev Hprev'). lia.
  - assert (p ∈ observedSet r) as Hpo
      by (apply sorted_observed_elem_of; by eapply list_elem_of_lookup_2).
    assert (n ∈ observedSet r) as Hno
      by (apply sorted_observed_elem_of; by eapply list_elem_of_lookup_2).
    assert (rangeStart <= n <= rangeEnd)
      by (by apply (elem_of_observedSet rawData rangeStart rangeEnd) in Hno as [? _]).
    destruct (StronglySorted_le_split _ i p n prev Hss Hp Hn Hprev'); [|lia].
    destruct (StronglySorted_le_split _ i p n next Hss Hp Hn Hnext'); [lia|].
    pose proof (Hnone p Hpo). pose proof (Hnone n Hno).
    assert (p = prev) as -> by lia. assert (n = next) as -> by lia.
    split; [|done]. f_equal. lia.
  - pose proof (StronglySorted_le_last _ _ next Hss Hla Hnext'). lia.
Qed.

(** X6: between two neighbouring observed timestamps of the displayed range
    the timeline has points exactly when they are more than one and a half
    sample intervals apart; the points are then the multiples of the interval
    counted from the earlier timestamp, and the gap from its first point to
    the later timestamp is an offline span. *)
Theorem timeline_gap_points (prev next : Z) :
  prev ∈ observedSet r → next ∈ observedSet r → prev < next →
  (∀ x, x ∈ observedSet r → ¬ (prev < x < next)) →
  (3 * intervalMs r < 2 * (next - prev) →
     {| start := prev + intervalMs r; end_ := next |} ∈ offlineSpans r
     ∧ ∀ t, prev < t < next →
         (t ∈ timeline r ↔ ∃ k, 0 < k ∧ t = prev + k * intervalMs r))
  ∧ (2 * (next - prev) <= 3 * intervalMs r → ∀ t, prev < t < next → t ∉ timeline r).
Proof.
  intros Hprev Hnext Hlt Hnone.
  pose proof (intervalMs_pos rawData rangeStart rangeEnd) as Hiv. fold r in Hiv.
  assert (rangeStart <= prev <= rangeEnd)
    by (by apply (elem_of_observedSet rawData rangeStart rangeEnd) in Hprev as [? _]).
  assert (rangeStart <= next <= rangeEnd)
    by (by apply (elem_of_observedSet rawData rangeStart rangeEnd) in Hnext as [? _]).
  assert (∀ t, prev < t < next → t ∈ timeline r →
            ∃ span k, span ∈ offlineSpans r ∧ 0 <= k
                      ∧ t = start span + k * intervalMs r ∧ t < end_ span) as Hsynthetic.
  { intros t Ht Hin. apply elem_of_timeline in Hin. fold r in Hin.
    destruct Hin as [Hobs|Hpt]; [by destruct (Hnone t Hobs)|].
    apply elem_of_buildOfflinePoints in Hpt; [done|lia]. }
  split.
  - intros Hgap.
    assert ({| start := prev + intervalMs r; end_ := next |} ∈ offlineSpans r) as Hspan.
    { rewrite offlineSpans_unfold. apply elem_of_buildOfflineSpans; [lia|lia| |].
      - intros He. apply sorted_observed_elem_of in Hprev. rewrite He in Hprev.
        by apply elem_of_nil in Hprev.
      - right. left.
        destruct (Sorted_lt_adjacent (sort_Z observedTimes) prev next) as (i & Hi & HSi).
        + apply sorted_observed_lt.
        + by apply sorted_observed_elem_of.
        + by apply sorted_observed_elem_of.
        + done.
        + intros x Hx%sorted_observed_elem_of. by apply Hnone.
        + exists i, prev, next. split_and!; [done|done|done|lia|]. f_equal. lia. }
    split; [done|]. intros t Ht. split.
    + intros Hin. destruct (Hsynthetic t Ht Hin) as (span & k & Hs & Hk & Heq & Hend).
      destruct (span_in_gap prev next span t Hprev Hnext Hnone Hs Ht) as [-> _]; [nia|].
      cbn [start end_] in Heq. exists (k + 1). split; [lia|]. lia.
    + intros (k & Hk & ->). apply elem_of_timeline. fold r. right.
      apply elem_of_buildOfflinePoints; [lia|].
      exists {| start := prev + intervalMs r; end_ := next |}, (k - 1).
      split_and!; [done|lia|cbn [start end_]; lia|cbn [start end_]; lia].
  - intros Hgap t Ht Hin.
    destruct (Hsynthetic t Ht Hin) as (span & k & Hs & Hk & Heq & Hend).
    destruct (span_in_gap prev next span t Hprev Hnext Hnone Hs Ht) as [_ ?]; [nia|lia].
Qed.
End timeline_gaps.

(** ** From the response to the rows *)

Lemma getTimeRange_ordered `{Runtime} (items : list NezhaMonitor) (rangeHours : Q)
    (from to : option string) (now : Z) :
  fst (getTimeRange items rangeHours from to now)
  < snd (getTimeRange items rangeHours from to now).
Proof.
  rewrite getTimeRange_unfold.
  assert (fst (last_resort rangeHours now) < snd (last_resort rangeHours now)) as Hlast
    by (unfold last_resort; simpl; lia).
  destruct (if range_unusable _ _ then _ else _) as [[a|] [b|]]; try done.
  destruct (b <=? a) eqn:E; [done|]. apply Z.leb_gt in E. simpl. lia.
Qed.

(** X7: whatever the response holds, the chart pipeline ([getTimeRange],
    then [buildTimelineData], then [formatData]) yields a timeline that is
    not empty and lies within the displayed range, and at least one row; when
    no sample falls into the range, the whole range is a single offline
    span and the timeline starts at the start of the range. *)
Theorem chart_timeline_nonempty `{Runtime} (items : list NezhaMonitor) (rangeHours : Q)
    (from to : option string) (now : Z) :
  let range := getTimeRange items rangeHours from to now in
  let r := buildTimelineData items (fst range) (snd range) in
  timeline r ≠ []
  ∧ (∀ t, t ∈ timeline r → fst range <= t <= snd range)
  ∧ formatData items (timeline r) (observedSet r) (intervalMs r) ≠ []
  ∧ (observedSet r = ∅ →
     offlineSpans r = [{| start := fst range; end_ := snd range |}]
     ∧ head (timeline r) = Some (fst range)).
Proof.
  intros range r.
  pose proof (getTimeRange_ordered items rangeHours from to now) as Hrange.
  fold range in Hrange.
  pose proof (intervalMs_pos items (fst range) (snd range)) as Hiv. fold r in Hiv.
  assert (observedSet r = ∅ →
          offlineSpans r = [{| start := fst range; end_ := snd range |}]) as Hspans.
  { intros Hempty. unfold r. rewrite offlineSpans_unfold. fold r. rewrite Hempty.
    rewrite elements_empty. unfold buildOfflineSpans.
    destruct (snd range <=? fst range) eqn:E1; [apply Z.leb_le in E1; lia|].
    destruct (intervalMs r <=? 0) eqn:E2; [apply Z.leb_le in E2; lia|]. done. }
  assert (∀ t, t ∈ timeline r → fst range <= t <= snd range) as Hwithin.
  { intros t Ht. by apply (timeline_within_range items (fst range) (snd range)). }
  assert (∃ t, t ∈ timeline r) as [t0 Ht0].
  { destruct (decide (observedSet r = ∅)) as [Hempty|Hne].
    - exists (fst range). apply elem_of_timeline. fold r. right.
      rewrite (Hspans Hempty). apply elem_of_buildOfflinePoints; [lia|].
      exists {| start := fst range; end_ := snd range |}, 0.
      split_and!; [left|done|simpl; lia|simpl; lia].
    - apply set_choose_L in Hne as [x Hx]. exists x. apply elem_of_timeline. by left. }
  split_and!.
  - intros He. rewrite He in Ht0. by apply elem_of_nil in Ht0.
  - done.
  - intros He.
    destruct (proj2 (formatTable_dom (timeline r) (observedSet r) (intervalMs r) items t0) Ht0)
      as [row Hrow].
    apply elem_of_formatData in Hrow. rewrite He in Hrow. by apply elem_of_nil in Hrow.
  - intros Hempty. split; [by apply Hspans|].
    pose proof (timeline_Sorted items (fst range) (snd range)) as Hsorted. fold r in Hsorted.
    assert (fst range ∈ timeline r) as Hin.
    { apply elem_of_timeline. fold r. right.
      rewrite (Hspans Hempty). apply elem_of_buildOfflinePoints; [lia|].
      exists {| start := fst range; end_ := snd range |}, 0.
      split_and!; [left|done|simpl; lia|simpl; lia]. }
    destruct (timeline r) as [|t1 rest] eqn:Htl; [by apply elem_of_nil in Hin|].
    simpl. f_equal.
    assert (fst range <= t1) by (apply Hwithin; left).
    apply elem_of_cons in Hin as [->|Hin]; [done|].
    apply Sorted_StronglySorted in Hsorted; [|intros ???; lia].
    apply StronglySorted_inv in Hsorted as [_ Hall]. rewrite Forall_forall in Hall.
    specialize (Hall _ Hin). lia.
Qed.

(** X25: the last resort of the time range.  A reported pair that parses
    but is empty or inverted is not repaired from the samples: the range is
    then the last [max(1, floor(rangeHours))] hours before now, as it is
    when an end is not reported and there is no sample at all.  That range
    ends now and spans a whole number of hours, at least one. *)
Theorem getTimeRange_last_resort `{Runtime} (items : list NezhaMonitor) (rangeHours : Q)
    (from to : option string) (now : Z) :
  let range := getTimeRange items rangeHours from to now in
  (∀ a b, parse_optional from = Some a → parse_optional to = Some b → b <= a →
     range = last_resort rangeHours now)
  ∧ (all_times items = [] → parse_optional from = None ∨ parse_optional to = None →
     range = last_resort rangeHours now)
  ∧ (range = last_resort rangeHours now →
     snd range = now
     ∧ snd range - fst range = Z.max 1 (Qfloor rangeHours) * 3600000
     ∧ 3600000 <= snd range - fst range).
Proof.
  intros range. split_and!.
  - intros a b Ha Hb Hle. by apply (getTimeRange_inverted_pair items rangeHours from to now a b).
  - intros Hnone Hmissing. unfold range. rewrite getTimeRange_unfold.
    unfold start_candidate, end_candidate. rewrite Hnone. simpl.
    destruct Hmissing as [Hf|Ht].
    + rewrite Hf. simpl. by destruct (parse_optional to).
    + rewrite Ht. destruct (parse_optional from); done.
  - intros ->. unfold last_resort. simpl. lia.
Qed.

(** ** The packet-loss estimator: the raw estimates *)

Local Open Scope Q_scope.

Lemma foldl_sum_pos (l : list Q) (acc : Q) :
  Forall (λ d, 0 < d) l →
  acc <= foldl (λ sum d, sum + d) acc l
  ∧ (l ≠ [] → acc < foldl (λ sum d, sum + d) acc l).
Proof.
  intros Hl. revert acc. induction Hl as [|d l Hd Hl IH]; intros acc; simpl.
  { split; [lra|done]. }
  destruct (IH (acc + d)) as [Hle _]. split; [lra|]. intros _. lra.
Qed.

Lemma Qgt_bool_true a b : Qgt_bool a b = true ↔ b < a.
Proof. unfold Qgt_bool. rewrite negb_true_iff. apply Qle_bool_false. Qed.

Lemma Qgt_bool_false a b : Qgt_bool a b = false ↔ a <= b.
Proof. unfold Qgt_bool. rewrite negb_false_iff. apply Qle_bool_iff. Qed.

(** The clamp leaves a number of the interval as it is. *)
Lemma clamp_inert x : 0 <= x <= 100 → Math_max 0 (Math_min 100 x) == x.
Proof.
  intros Hx. destruct (Math_min_spec 100 x) as [[? ->]|[? ->]].
  - destruct (Math_max_spec 0 100) as [[? ->]|[? ->]]; lra.
  - destruct (Math_max_spec 0 x) as [[? ->]|[? ->]]; lra.
Qed.

Section rawLossRate_facts.
Context `{Runtime}.
Variables (delays : list (option Q)) (windowSize : nat).

(** The estimate from the statistics of the window lies in [0, 40], whatever
    [Math.sqrt] returns: at most 25 from the variation and at most 15 from
    the height of the current delay above the mean. *)
Lemma windowLossRate_bounds i currentDelay :
  0 <= windowLossRate delays windowSize i currentDelay <= 40.
Proof.
  unfold windowLossRate.
  set (windowDelays := omap _ _).
  destruct (2 <? length windowDelays)%nat eqn:Hlen; [|lra].
  apply Nat.ltb_lt in Hlen.
  set (n := inject_Z (Z.of_nat (length windowDelays))).
  set (mean := reduce_sum (λ d, d) windowDelays / n).
  set (cv := Math_sqrt _ / mean).
  assert (0 < n) as Hn.
  { unfold n. change 0 with (inject_Z 0). rewrite <- Zlt_Qlt. lia. }
  assert (Forall (λ d, 0 < d) windowDelays) as Hpos.
  { apply Forall_forall. intros d Hd. unfold windowDelays in Hd.
    apply list_elem_of_omap in Hd as ([d'|] & _ & Hd); [|done].
    destruct (Qgt_bool d' 0) eqn:Hg; [|done]. injection Hd as <-.
    by apply Qgt_bool_true. }
  assert (0 < mean) as Hmean.
  { unfold mean. apply Qlt_shift_div_l; [done|]. unfold reduce_sum.
    destruct (foldl_sum_pos windowDelays 0 Hpos) as [_ Hlt].
    rewrite Qmult_0_l. apply Hlt. intros He. rewrite He in Hlen. simpl in Hlen. lia. }
  set (lossRate := if Qgt_bool cv 0.8 then _ else _).
  assert (0 <= lossRate <= 25) as Hloss.
  { unfold lossRate.
    destruct (Qgt_bool cv 0.8) eqn:H1.
    { apply Qgt_bool_true in H1.
      destruct (Math_min_spec 25 (cv * 15)) as [[? ->]|[? ->]]; lra. }
    destruct (Qgt_bool cv 0.5) eqn:H2.
    { apply Qgt_bool_true in H2.
      destruct (Math_min_spec 10 (cv * 8)) as [[? ->]|[? ->]]; lra. }
    destruct (Qgt_bool cv 0.3) eqn:H3.
    { apply Qgt_bool_true in H3.
      destruct (Math_min_spec 5 (cv * 5)) as [[? ->]|[? ->]]; lra. }
    lra. }
  destruct (Qgt_bool currentDelay (mean * 2.5)) eqn:Hspike; [|lra].
  apply Qgt_bool_true in Hspike.
  assert (2.5 < currentDelay / mean) as Hratio.
  { apply Qlt_shift_div_l; [done|]. lra. }
  set (ratio := currentDelay / mean) in *.
  destruct (Math_min_spec 15 ((ratio - 2.5) * 10)) as [[? ->]|[? ->]]; lra.
Qed.

(** The raw estimate by the kind of the probe. *)
Lemma rawLossRate_cases i :
  match delays !! i with
  | Some (Some currentDelay) =>
      if Qeq_bool currentDelay 0 then rawLossRate delays windowSize i = 100
      else if Qle_bool extremeDelayThreshold currentDelay
      then 60 <= rawLossRate delays windowSize i <= 95
      else if Qle_bool timeoutThreshold currentDelay
      then 0 <= rawLossRate delays windowSize i < 35
      else 0 <= rawLossRate delays windowSize i <= 40
  | _ => rawLossRate delays windowSize i = 100
  end.
Proof.
  unfold rawLossRate. destruct (delays !! i) as [[currentDelay|]|]; try done.
  destruct (Qeq_bool currentDelay 0); [done|].
  unfold extremeDelayThreshold, timeoutThreshold.
  destruct (Qle_bool 10000 currentDelay) eqn:H1.
  { apply Qle_bool_iff in H1.
    assert ((currentDelay - 10000) / 1000 == (currentDelay - 10000) * (1 # 1000)) as He
      by field.
    destruct (Math_min_spec 95 (60 + (currentDelay - 10000) / 1000)) as [[? ->]|[? ->]];
      lra. }
  apply Qle_bool_false in H1.
  destruct (Qle_bool 3000 currentDelay) eqn:H2.
  { apply Qle_bool_iff in H2.
    assert ((currentDelay - 3000) / 200 == (currentDelay - 3000) * (1 # 200)) as He
      by field.
    destruct (Math_min_spec 50 ((currentDelay - 3000) / 200)) as [[? ->]|[? ->]]; lra. }
  apply windowLossRate_bounds.
Qed.

Lemma rawLossRate_bounds i : 0 <= rawLossRate delays windowSize i <= 100.
Proof.
  pose proof (rawLossRate_cases i) as Hc.
  destruct (delays !! i) as [[currentDelay|]|]; [|rewrite Hc; lra|rewrite Hc; lra].
  destruct (Qeq_bool currentDelay 0); [rewrite Hc; lra|].
  destruct (Qle_bool extremeDelayThreshold currentDelay); [lra|].
  destruct (Qle_bool timeoutThreshold currentDelay); lra.
Qed.
End rawLossRate_facts.

Section packetLoss_raw.
Context `{Runtime}.
Variable delays : list (option Q).

Let windowSize := windowSize_of (length delays).

Lemma packetLossRates_length : length (packetLossRates_of delays) = length delays.
Proof. unfold packetLossRates_of. apply rates_after_length. Qed.

Lemma packetLossRates_first r :
  packetLossRates_of delays !! 0%nat = Some r → r == rawLossRate delays windowSize 0.
Proof.
  intros Hr.
  assert (0 < length delays)%nat as Hn.
  { apply lookup_lt_Some in Hr. by rewrite packetLossRates_length in Hr. }
  unfold packetLossRates_of in Hr. rewrite rates_after_first in Hr by done.
  injection Hr as <-. apply clamp_inert, rawLossRate_bounds.
Qed.

Lemma packetLossRates_step i r :
  packetLossRates_of delays !! S i = Some r →
  ∃ previous, packetLossRates_of delays !! i = Some previous
    ∧ 0 <= previous <= 100
    ∧ r == 0.3 * rawLossRate delays windowSize (S i) + 0.7 * previous.
Proof.
  intros Hr.
  assert (S i < length delays)%nat as Hn.
  { apply lookup_lt_Some in Hr. by rewrite packetLossRates_length in Hr. }
  destruct (rates_after_step delays (length delays) i Hn) as (previous & Hp & Hs).
  pose proof (rates_after_bounds delays _ _ _ Hp) as Hb.
  exists previous. split; [done|]. split; [done|].
  unfold packetLossRates_of in Hr. rewrite Hs in Hr. injection Hr as <-.
  pose proof (rawLossRate_bounds delays windowSize (S i)) as Hraw.
  unfold windowSize in *. rewrite clamp_inert; lra.
Qed.

(** X8: the raw estimate of every probe lies in [0, 100]: it is 100 for a
    lost probe ([null] or 0), in [60, 95] for a delay of 10000 ms or more,
    in [0, 35) for a delay from 3000 ms up to 10000 ms, and in [0, 40]
    otherwise, whatever the window and whatever [Math.sqrt] returns.  So
    the clamp to [0, 100] never changes a rate: every smoothed rate after
    the first equals 0.3 times the raw estimate plus 0.7 times the smoothed
    rate before it. *)
Theorem rawLossRate_classes :
  let smoothed := packetLossRates_of delays in
  (∀ i, 0 <= rawLossRate delays windowSize i <= 100)
  ∧ (∀ i, delays !! i = Some None → rawLossRate delays windowSize i = 100)
  ∧ (∀ i d, delays !! i = Some (Some d) →
       (d == 0 → rawLossRate delays windowSize i = 100)
       ∧ (10000 <= d → 60 <= rawLossRate delays windowSize i <= 95)
       ∧ (3000 <= d < 10000 → 0 <= rawLossRate delays windowSize i < 35)
       ∧ (¬ d == 0 → d < 3000 → 0 <= rawLossRate delays windowSize i <= 40))
  ∧ (∀ r, smoothed !! 0%nat = Some r → r == rawLossRate delays windowSize 0)
  ∧ (∀ i r, smoothed !! S i = Some r →
       ∃ previous, smoothed !! i = Some previous
         ∧ r == 0.3 * rawLossRate delays windowSize (S i) + 0.7 * previous).
Proof.
  intros smoothed. split_and!.
  - intros i. apply rawLossRate_bounds.
  - intros i Hi. pose proof (rawLossRate_cases delays windowSize i) as Hc.
    by rewrite Hi in Hc.
  - intros i d Hi. pose proof (rawLossRate_cases delays windowSize i) as Hc.
    rewrite Hi in Hc. unfold extremeDelayThreshold, timeoutThreshold in Hc.
    split_and!.
    + intros Hd. apply Qeq_bool_iff in Hd. by rewrite Hd in Hc.
    + intros Hd. destruct (Qeq_bool d 0) eqn:E; [apply Qeq_bool_iff in E; lra|].
      apply Qle_bool_iff in Hd. by rewrite Hd in Hc.
    + intros [Hd1 Hd2]. destruct (Qeq_bool d 0) eqn:E; [apply Qeq_bool_iff in E; lra|].
      apply Qle_bool_false in Hd2. rewrite Hd2 in Hc.
      apply Qle_bool_iff in Hd1. by rewrite Hd1 in Hc.
    + intros Hd0 Hd. destruct (Qeq_bool d 0) eqn:E; [by apply Qeq_bool_iff in E|].
      assert (Qle_bool 10000 d = false) as E1 by (apply Qle_bool_false; lra).
      assert (Qle_bool 3000 d = false) as E2 by (apply Qle_bool_false; lra).
      by rewrite E1, E2 in Hc.
  - apply packetLossRates_first.
  - intros i r Hr. destruct (packetLossRates_step i r Hr) as (previous & ? & ? & ?).
    by exists previous.
Qed.

Lemma rawLossRate_lost i : lost_probe (delays !! i) → rawLossRate delays windowSize i = 100.
Proof.
  intros Hl. pose proof (rawLossRate_cases delays windowSize i) as Hc.
  destruct (delays !! i) as [[d|]|]; [|done|done].
  simpl in Hl. apply Qeq_bool_iff in Hl. by rewrite Hl in Hc.
Qed.

Lemma toFixed2_ge_30 r : 30 <= r → 30 <= toFixed2 r.
Proof.
  intros Hr. destruct (toFixed2_spec r) as (n & -> & Hlo & Hhi); [lra|].
  assert (2999 < n)%Z as Hn.
  { rewrite Zlt_Qlt. change (inject_Z 2999) with 2999. lra. }
  assert (3000 <= n)%Z as Hn' by lia. rewrite Zle_Qle in Hn'.
  change (inject_Z 3000) with 3000 in Hn'.
  apply Qle_shift_div_l; [lra|]. lra.
Qed.

Lemma toFixed2_of_100 r : r == 100 → toFixed2 r == 100.
Proof.
  intros Hr. unfold toFixed2.
  assert (Qle_bool 0 r = true) as -> by (apply Qle_bool_iff; lra).
  assert (Qfloor (r * 100 + (1 # 2)) = 10000%Z) as ->.
  { rewrite (Qfloor_comp _ (100 * 100 + (1 # 2))) by (rewrite Hr; reflexivity). done. }
  reflexivity.
Qed.

(** X9: a lost probe ([null], or a delay of 0) never shows less than 30 %
    of packet loss, and shows 100 % when it is the first probe; when every
    probe is lost, every entry of the output is 100. *)
Theorem calculatePacketLoss_lost_probes :
  let output := calculatePacketLoss delays in
  (∀ i x, lost_probe (delays !! i) → output !! i = Some x → 30 <= x)
  ∧ (∀ x, lost_probe (delays !! 0%nat) → output !! 0%nat = Some x → x == 100)
  ∧ ((∀ i, (i < length delays)%nat → lost_probe (delays !! i)) →
     ∀ x, x ∈ output → x == 100).
Proof.
  intros output.
  assert (∀ i x, output !! i = Some x →
            ∃ r, packetLossRates_of delays !! i = Some r ∧ x = toFixed2 r) as Hout.
  { intros i x Hx. unfold output in Hx. rewrite calculatePacketLoss_map in Hx.
    change (map toFixed2 (packetLossRates_of delays))
      with (toFixed2 <$> packetLossRates_of delays) in Hx.
    apply list_lookup_fmap_Some in Hx as (r & -> & Hr). by exists r. }
  split_and!.
  - intros i x Hl Hx. destruct (Hout i x Hx) as (r & Hr & ->).
    apply toFixed2_ge_30. destruct i as [|i].
    + apply packetLossRates_first in Hr. rewrite rawLossRate_lost in Hr by done. lra.
    + apply packetLossRates_step in Hr as (previous & _ & Hb & Hr).
      rewrite rawLossRate_lost in Hr by done. lra.
  - intros x Hl Hx. destruct (Hout _ x Hx) as (r & Hr & ->).
    apply toFixed2_of_100. apply packetLossRates_first in Hr.
    rewrite rawLossRate_lost in Hr by done. done.
  - intros Hall x [i Hx]%list_elem_of_lookup. destruct (Hout i x Hx) as (r & Hr & ->).
    apply toFixed2_of_100. clear Hx Hout. revert r Hr.
    induction i as [|i IH]; intros r Hr.
    + assert (0 < length delays)%nat
        by (apply lookup_lt_Some in Hr; by rewrite packetLossRates_length in Hr).
      apply packetLossRates_first in Hr. rewrite rawLossRate_lost in Hr by auto. done.
    + assert (S i < length delays)%nat
        by (apply lookup_lt_Some in Hr; by rewrite packetLossRates_length in Hr).
      apply packetLossRates_step in Hr as (previous & Hp & _ & Hr).
      rewrite rawLossRate_lost in Hr by auto. rewrite (IH previous Hp) in Hr.
      rewrite Hr. reflexivity.
Qed.
End packetLoss_raw.

Lemma reduce_sum_const {A} (f : A → Q) (c : Q) (l : list A) :
  Forall (λ x, f x == c) l → reduce_sum f l == c * inject_Z (Z.of_nat (length l)).
Proof.
  intros Hl. unfold reduce_sum.
  assert (∀ acc, foldl (λ sum d, sum + f d) acc l
                 == acc + c * inject_Z (Z.of_nat (length l))) as Hgen.
  { induction Hl as [|x l Hx Hl IH]; intros acc; simpl length; simpl foldl.
    - change (inject_Z (Z.of_nat 0)) with 0. lra.
    - rewrite IH, Hx, Nat2Z.inj_succ, <- Z.add_1_r, inject_Z_plus.
      change (inject_Z 1) with 1. lra. }
  rewrite Hgen. lra.
Qed.

Section steady_link.
Context `{Runtime}.
Variables (delays : list (option Q)) (d : Q).
Hypothesis sqrt_zero : ∀ q, q == 0 → Math_sqrt q == 0.
Hypothesis d_pos : 0 < d.
Hypothesis d_small : d < 3000.
Hypothesis steady : ∀ x, x ∈ delays → x = Some d.

Lemma windowLossRate_steady windowSize i : windowLossRate delays windowSize i d = 0.
Proof.
  unfold windowLossRate.
  set (windowDelays := omap _ _).
  destruct (2 <? length windowDelays)%nat eqn:Hlen; [|done].
  apply Nat.ltb_lt in Hlen.
  set (n := inject_Z (Z.of_nat (length windowDelays))).
  assert (0 < n) as Hn.
  { unfold n. change 0 with (inject_Z 0). rewrite <- Zlt_Qlt. lia. }
  assert (Forall (λ x, x = d) windowDelays) as Hall.
  { apply Forall_forall. intros x Hx. unfold windowDelays in Hx.
    apply list_elem_of_omap in Hx as (y & Hy & Hx).
    assert (y ∈ delays) as Hin.
    { unfold slice in Hy. apply elem_of_take in Hy as (j & Hy & _).
      rewrite lookup_drop in Hy. by eapply list_elem_of_lookup_2. }
    rewrite (steady y Hin) in Hx. destruct (Qgt_bool d 0); [|done]. by injection Hx. }
  set (mean := reduce_sum (λ d, d) windowDelays / n).
  assert (mean == d) as Hmean.
  { unfold mean. rewrite (reduce_sum_const _ d).
    - fold n. field. lra.
    - eapply Forall_impl; [exact Hall|]. intros x ->. reflexivity. }
  set (variance := reduce_sum (λ d, (d - mean) ^ 2) windowDelays / n).
  assert (variance == 0) as Hvar.
  { unfold variance. rewrite (reduce_sum_const _ 0).
    - field. lra.
    - eapply Forall_impl; [exact Hall|]. intros x ->. simpl. rewrite Hmean. ring. }
  assert (Math_sqrt variance / mean == 0) as Hcv.
  { rewrite (sqrt_zero _ Hvar). field. lra. }
  assert (∀ c, 0 < c → Qgt_bool (Math_sqrt variance / mean) c = false) as Hno.
  { intros c Hc. apply Qgt_bool_false. rewrite Hcv. lra. }
  rewrite !Hno by lra.
  assert (Qgt_bool d (mean * 2.5) = false) as ->; [|done].
  apply Qgt_bool_false. rewrite Hmean. lra.
Qed.

Lemma rawLossRate_steady windowSize i :
  (i < length delays)%nat → rawLossRate delays windowSize i = 0.
Proof.
  intros Hi. unfold rawLossRate.
  destruct (lookup_lt_is_Some_2 delays i Hi) as [x Hx].
  rewrite Hx, (steady x) by (by eapply list_elem_of_lookup_2).
  assert (Qeq_bool d 0 = false) as ->.
  { destruct (Qeq_bool d 0) eqn:E; [apply Qeq_bool_iff in E; lra|done]. }
  unfold extremeDelayThreshold, timeoutThreshold.
  assert (Qle_bool 10000 d = false) as -> by (apply Qle_bool_false; lra).
  assert (Qle_bool 3000 d = false) as -> by (apply Qle_bool_false; lra).
  apply windowLossRate_steady.
Qed.

(** X10: on a steady link, where every probe returns the same delay, below
    the timeout threshold of 3000 ms, no packet loss is shown: every entry of
    the output is 0, provided [Math.sqrt] maps 0 to 0. *)
Theorem calculatePacketLoss_steady_link :
  ∀ x, x ∈ calculatePacketLoss delays → x == 0.
Proof.
  intros x [i Hx]%list_elem_of_lookup. rewrite calculatePacketLoss_map in Hx.
  change (map toFixed2 (packetLossRates_of delays))
    with (toFixed2 <$> packetLossRates_of delays) in Hx.
  apply list_lookup_fmap_Some in Hx as (r & -> & Hr).
  assert (r == 0) as Hzero.
  { revert r Hr. induction i as [|i IH]; intros r Hr.
    - assert (0 < length delays)%nat
        by (apply lookup_lt_Some in Hr; by rewrite packetLossRates_length in Hr).
      apply packetLossRates_first in Hr. rewrite rawLossRate_steady in Hr by done. done.
    - assert (S i < length delays)%nat
        by (apply lookup_lt_Some in Hr; by rewrite packetLossRates_length in Hr).
      apply packetLossRates_step in Hr as (previous & Hp & _ & Hr).
      rewrite rawLossRate_steady in Hr by done. rewrite (IH previous Hp) in Hr.
      rewrite Hr. reflexivity. }
  unfold toFixed2.
  assert (Qle_bool 0 r = true) as -> by (apply Qle_bool_iff; lra).
  rewrite (Qfloor_comp _ (0 * 100 + (1 # 2))) by (rewrite Hzero; reflexivity).
  reflexivity.
Qed.
End steady_link.

(** ** nezha-api: the outcomes of [fetchMonitor] *)

Local Open Scope Z_scope.

Section fetchMonitor_outcomes.
Context `{Runtime} `{Upstream}.

(** Every run of [fetchMonitor], case by case. *)
Lemma fetchMonitor_cases server_id hours w :
  let w1 := {| ticks := ticks w; calls := calls w ++ [EvGetKomariNodes] |} in
  match nodes_error getKomariNodes with
  | Some msg => fetchMonitor server_id hours w = (Thrown msg, w1)
  | None =>
      match List.find (λ id, uuidToNumber id =? server_id) (map fst getKomariNodes) with
      | None => fetchMonitor server_id hours w = (Returned empty_response, w1)
      | Some uuid =>
          if String.eqb uuid EmptyString
          then fetchMonitor server_id hours w = (Returned empty_response, w1)
          else
            let req := ping_request uuid hours in
            let w2 := {| ticks := ticks w;
                         calls := calls w ++ [EvGetKomariNodes; EvGetRecords req] |} in
            match payload_error (getRecords req) with
            | Some msg => fetchMonitor server_id hours w = (Thrown msg, w2)
            | None =>
                ∃ data' w',
                  fetchMonitor server_id hours w
                  = (Returned {| success := true; data := data'; from := None; to := None |},
                     w')
                  ∧ calls w' = calls w2
                  ∧ Forall2 padded
                      (map (λ kv, sortSeries (snd kv))
                           (collectSeries server_id
                              (serverName_of getKomariNodes uuid server_id)
                              (getRecords req)))
                      data'
            end
      end
  end.
Proof.
  unfold fetchMonitor, await_getKomariNodes, await_getRecords, ping_request.
  unfold mbind, Async_bind, mret, Async_ret, emit, throw. simpl.
  destruct (nodes_error getKomariNodes); [done|].
  destruct (List.find _ _) as [uuid|]; [|done].
  destruct (String.eqb uuid EmptyString); [done|].
  destruct (payload_error _); [cbn [ticks calls]; by rewrite <- app_assoc|].
  match goal with |- context [padEmpty ?d ?w0] =>
    destruct (padEmpty_spec d w0) as (d' & w1 & -> & Hcalls & Hf) end.
  exists d', w1. split; [done|]. split; [|done].
  rewrite Hcalls. cbn [ticks calls]. by rewrite <- app_assoc.
Qed.

(** X12: [fetchMonitor] fails exactly when the node listing carries an
    error, or when the node is listed and the reply to the records request
    carries one; the message thrown is that error.  In particular no record,
    whatever its fields, makes it fail. *)
Theorem fetchMonitor_throws server_id hours w msg :
  (∃ w', fetchMonitor server_id hours w = (Thrown msg, w'))
  ↔ nodes_error getKomariNodes = Some msg
    ∨ (nodes_error getKomariNodes = None
       ∧ ∃ uuid,
           List.find (λ id, uuidToNumber id =? server_id) (map fst getKomariNodes)
           = Some uuid
           ∧ uuid ≠ EmptyString
           ∧ payload_error (getRecords (ping_request uuid hours)) = Some msg).
Proof.
  pose proof (fetchMonitor_cases server_id hours w) as Hc. simpl in Hc.
  destruct (nodes_error getKomariNodes) as [e|].
  { rewrite Hc. split.
    - intros [w' [= -> _]]. by left.
    - intros [[= ->]|[? _]]; [eauto|done]. }
  destruct (List.find _ _) as [uuid|].
  2:{ rewrite Hc. split; [by intros [w' ?]|]. intros [?|(_ & uuid & ? & _)]; done. }
  destruct (String.eqb uuid EmptyString) eqn:Huuid.
  { rewrite Hc. apply String.eqb_eq in Huuid. split; [by intros [w' ?]|].
    intros [?|(_ & uuid' & [= <-] & ? & _)]; done. }
  apply String.eqb_neq in Huuid.
  destruct (payload_error _) as [e|] eqn:He.
  - rewrite Hc. split.
    + intros [w' [= -> _]]. right. split; [done|]. by exists uuid.
    + intros [?|(_ & uuid' & [= <-] & _ & Hm)]; [done|].
      rewrite He in Hm. injection Hm as ->. eauto.
  - destruct Hc as (data' & w' & -> & _). split; [by intros [w'' ?]|].
    intros [?|(_ & uuid' & [= <-] & _ & Hm)]; [done|]. by rewrite He in Hm.
Qed.

(** X13: [fetchMonitor] asks for the node listing once and sends at most
    one other request: a [getRecords] request of type [ping] for a listed
    node whose number is the server id, for [max(1, floor(hours))] hours and
    at most 4000 records. *)
Theorem fetchMonitor_remote_calls server_id hours w :
  let w' := snd (fetchMonitor server_id hours w) in
  calls w' = calls w ++ [EvGetKomariNodes]
  ∨ ∃ uuid,
      uuid ∈ map fst getKomariNodes
      ∧ uuidToNumber uuid = server_id
      ∧ calls w'
        = calls w ++ [EvGetKomariNodes;
                      EvGetRecords {| req_type := "ping"; req_uuid := uuid;
                                      req_maxCount := 4000;
                                      req_hours := Z.max 1 (Qfloor hours) |}]
      ∧ 1 <= Z.max 1 (Qfloor hours).
Proof.
  pose proof (fetchMonitor_cases server_id hours w) as Hc. simpl in Hc. simpl.
  destruct (nodes_error getKomariNodes) as [e|]; [rewrite Hc; by left|].
  destruct (List.find _ _) as [uuid|] eqn:Hfind; [|rewrite Hc; by left].
  destruct (String.eqb uuid EmptyString); [rewrite Hc; by left|].
  apply find_some in Hfind as [Hin Hnum]. apply Z.eqb_eq in Hnum.
  apply list_elem_of_In in Hin.
  right. exists uuid. split_and!; [done|done| |lia].
  destruct (payload_error _) as [e|]; [by rewrite Hc|].
  destruct Hc as (data' & w' & -> & Hcalls & _). done.
Qed.
End fetchMonitor_outcomes.

(** ** nezha-api: what the series hold *)

Lemma first_occurrences_acc (l acc : list Z) :
  NoDup acc →
  let out := foldl (λ acc x, if bool_decide (x ∈ acc) then acc else acc ++ [x]) acc l in
  NoDup out ∧ ∀ x, x ∈ out ↔ x ∈ acc ∨ x ∈ l.
Proof.
  revert acc. induction l as [|y l IH]; intros acc Hacc; simpl.
  { split; [done|]. intros x. rewrite elem_of_nil. tauto. }
  destruct (bool_decide (y ∈ acc)) eqn:Hy.
  - apply bool_decide_eq_true in Hy. destruct (IH acc Hacc) as [Hnd Hin].
    split; [done|]. intros x. rewrite Hin, elem_of_cons.
    split; [tauto|]. intros [?|[->|?]]; tauto.
  - apply bool_decide_eq_false in Hy.
    destruct (IH (acc ++ [y])) as [Hnd Hin].
    { apply NoDup_app. split_and!; [done| |apply NoDup_singleton].
      intros x Hx ->%list_elem_of_singleton. done. }
    split; [done|]. intros x. rewrite Hin, elem_of_app, list_elem_of_singleton, elem_of_cons.
    tauto.
Qed.

Lemma first_occurrences_spec (l : list Z) :
  NoDup (first_occurrences l) ∧ ∀ x, x ∈ first_occurrences l ↔ x ∈ l.
Proof.
  destruct (first_occurrences_acc l [] (NoDup_nil_2)) as [Hnd Hin].
  split; [done|]. intros x. unfold first_occurrences. rewrite Hin, elem_of_nil. tauto.
Qed.

Lemma imap_fst_snd (pts : list (Z * option Q)) :
  imap (λ i t, (t, default None ((map snd pts) !! i))) (map fst pts) = pts.
Proof.
  induction pts as [|[t v] pts IH]; [done|]. simpl. f_equal. exact IH.
Qed.

Section collectSeries_facts.
Context `{Runtime}.
Variables (srv_id : Z) (serverName : string).

Let wf (m : list (Z * NezhaMonitor)) : Prop :=
  NoDup (map fst m) ∧ ∀ kv, kv ∈ m → monitor_id (snd kv) = fst kv.

Lemma series_has_elem_of id (m : list (Z * NezhaMonitor)) :
  series_has id m = bool_decide (id ∈ map fst m).
Proof.
  unfold series_has. induction m as [|kv m IH]; [done|]. simpl. rewrite IH.
  destruct (fst kv =? id) eqn:E.
  - apply Z.eqb_eq in E. simpl. symmetry. apply bool_decide_eq_true_2. rewrite E. left.
  - apply Z.eqb_neq in E. simpl. apply bool_decide_ext. rewrite elem_of_cons.
    split; [tauto|]. intros [?|?]; [congruence|done].
Qed.

Lemma ensureSeries_keys id name m :
  map fst (ensureSeries srv_id serverName id name m)
  = if bool_decide (id ∈ map fst m) then map fst m else map fst m ++ [id].
Proof.
  unfold ensureSeries. rewrite series_has_elem_of.
  destruct (bool_decide _); [done|]. by rewrite map_app.
Qed.

Lemma push_point_keys id ts v m : map fst (push_point id ts v m) = map fst m.
Proof.
  unfold push_point. rewrite map_map. apply map_ext. intros kv.
  by destruct (fst kv =? id).
Qed.

Lemma appendRecord_keys rec nameOverride m :
  map fst (appendRecord srv_id serverName rec nameOverride m)
  = if bool_decide (record_task rec ∈ map fst m) then map fst m
    else map fst m ++ [record_task rec].
Proof.
  unfold appendRecord, record_task.
  destruct (task_id rec) as [n|]; simpl;
    (destruct (Date_parse _); [|apply ensureSeries_keys]);
    (destruct (Number_of _); try apply ensureSeries_keys);
    rewrite push_point_keys; apply ensureSeries_keys.
Qed.

Lemma ensureSeries_wf id name m : wf m → wf (ensureSeries srv_id serverName id name m).
Proof.
  intros [Hnd Hid]. unfold wf. rewrite ensureSeries_keys.
  unfold ensureSeries. rewrite series_has_elem_of.
  destruct (bool_decide (id ∈ map fst m)) eqn:E; [done|].
  apply bool_decide_eq_false in E. split.
  - apply NoDup_app. split_and!; [done| |apply NoDup_singleton].
    intros x Hx ->%list_elem_of_singleton. done.
  - intros kv [Hin| ->%list_elem_of_singleton]%elem_of_app; [by apply Hid|done].
Qed.

Lemma push_point_wf id ts v m : wf m → wf (push_point id ts v m).
Proof.
  intros [Hnd Hid]. unfold wf. rewrite push_point_keys. split; [done|].
  intros kv Hin. unfold push_point in Hin.
  apply list_elem_of_In, in_map_iff in Hin as (kv0 & <- & Hin0).
  apply list_elem_of_In in Hin0. specialize (Hid kv0 Hin0).
  by destruct (fst kv0 =? id).
Qed.

Lemma appendRecord_wf rec nameOverride m :
  wf m → wf (appendRecord srv_id serverName rec nameOverride m).
Proof.
  intros Hwf. unfold appendRecord.
  destruct (Date_parse _); [|by apply ensureSeries_wf].
  destruct (Number_of _); try by apply ensureSeries_wf.
  by apply push_point_wf, ensureSeries_wf.
Qed.

Lemma foldl_appendRecord_wf records m :
  wf m → wf (foldl (λ m rec, appendRecord srv_id serverName rec None m) m records).
Proof.
  revert m. induction records as [|rec records IH]; intros m Hwf; simpl; [done|].
  by apply IH, appendRecord_wf.
Qed.

Lemma foldl_ensureSeries_wf (tasks : list MonitorTask) m :
  wf m →
  wf (foldl (λ m task, ensureSeries srv_id serverName (id task) (task_name task) m) m tasks).
Proof.
  revert m. induction tasks as [|task tasks IH]; intros m Hwf; simpl; [done|].
  by apply IH, ensureSeries_wf.
Qed.

Lemma foldl_appendRecord_keys records m :
  map fst (foldl (λ m rec, appendRecord srv_id serverName rec None m) m records)
  = foldl (λ acc x, if bool_decide (x ∈ acc) then acc else acc ++ [x]) (map fst m)
          (map record_task records).
Proof.
  revert m. induction records as [|rec records IH]; intros m; simpl; [done|].
  by rewrite IH, appendRecord_keys.
Qed.

Lemma foldl_ensureSeries_keys (tasks : list MonitorTask) m :
  map fst (foldl (λ m task, ensureSeries srv_id serverName (id task) (task_name task) m)
                 m tasks)
  = foldl (λ acc x, if bool_decide (x ∈ acc) then acc else acc ++ [x]) (map fst m)
          (map id tasks).
Proof.
  revert m. induction tasks as [|task tasks IH]; intros m; simpl; [done|].
  by rewrite IH, ensureSeries_keys.
Qed.

(** One series for each task id of the payload, in the order of their
    first occurrence. *)
Lemma collectSeries_keys km_monitors :
  map fst (collectSeries srv_id serverName km_monitors)
  = first_occurrences (payload_ids km_monitors).
Proof.
  unfold collectSeries, payload_ids, payload_tasks, payload_records, first_occurrences.
  destruct km_monitors as [e [tasks|] [records|]|recs|]; simpl; try done.
  - by rewrite foldl_appendRecord_keys, foldl_ensureSeries_keys, foldl_app.
  - by rewrite foldl_appendRecord_keys.
  - by rewrite foldl_appendRecord_keys.
Qed.

Lemma collectSeries_wf km_monitors : wf (collectSeries srv_id serverName km_monitors).
Proof.
  assert (wf []) as Hnil by (split; [constructor|by intros ? ?%elem_of_nil]).
  unfold collectSeries.
  destruct km_monitors as [e [tasks|] [records|]|recs|]; simpl; try done.
  - by apply foldl_appendRecord_wf, foldl_ensureSeries_wf.
  - by apply foldl_appendRecord_wf.
  - by apply foldl_appendRecord_wf.
Qed.

Lemma foldl_appendRecord_points records m id' :
  let m' := foldl (λ m rec, appendRecord srv_id serverName rec None m) m records in
  series_times id' m' = series_times id' m ++ map fst (points_of id' records)
  ∧ series_values id' m' = series_values id' m ++ map snd (points_of id' records).
Proof.
  revert m. induction records as [|rec records IH]; intros m; simpl.
  { by rewrite !app_nil_r. }
  destruct (IH (appendRecord srv_id serverName rec None m)) as [-> ->].
  pose proof (appendRecord_points srv_id serverName rec None m id') as Hp.
  unfold points_of at 1 3. simpl. unfold record_task, record_point. simpl in Hp.
  destruct (Date_parse _) as [ts|]; [destruct (Number_of _) as [val| | |]|].
  - rewrite (Z.eqb_sym _ id'). destruct (id' =? default 0 (task_id rec)).
    + destruct Hp as [-> ->]. simpl. by rewrite <- !app_assoc.
    + by destruct Hp as [-> ->].
  - destruct Hp as [-> ->]. by destruct (_ =? _).
  - destruct Hp as [-> ->]. by destruct (_ =? _).
  - destruct Hp as [-> ->]. by destruct (_ =? _).
  - destruct Hp as [-> ->]. by destruct (_ =? _).
Qed.

Lemma foldl_ensureSeries_points (tasks : list MonitorTask) m id' :
  let m' := foldl (λ m task, ensureSeries srv_id serverName (id task) (task_name task) m)
                  m tasks in
  series_times id' m' = series_times id' m ∧ series_values id' m' = series_values id' m.
Proof.
  revert m. induction tasks as [|task tasks IH]; intros m; simpl; [done|].
  destruct (IH (ensureSeries srv_id serverName (id task) (task_name task) m)) as [-> ->].
  by rewrite ensureSeries_times, ensureSeries_values.
Qed.

(** The points of a series are those its records contribute, in the order
    of the records. *)
Lemma collectSeries_points km_monitors id' :
  series_times id' (collectSeries srv_id serverName km_monitors)
  = map fst (points_of id' (payload_records km_monitors))
  ∧ series_values id' (collectSeries srv_id serverName km_monitors)
    = map snd (points_of id' (payload_records km_monitors)).
Proof.
  unfold collectSeries, payload_records.
  destruct km_monitors as [e [tasks|] [records|]|recs|]; simpl; try done.
  - destruct (foldl_appendRecord_points records
                (foldl (λ m task, ensureSeries srv_id serverName (id task) (task_name task) m)
                       [] tasks) id') as [-> ->].
    by destruct (foldl_ensureSeries_points tasks [] id') as [-> ->].
  - by destruct (foldl_appendRecord_points records [] id') as [-> ->].
  - by destruct (foldl_appendRecord_points recs [] id') as [-> ->].
Qed.

Lemma series_get_NoDup (m : list (Z * NezhaMonitor)) kv :
  NoDup (map fst m) → kv ∈ m → series_get (fst kv) m = Some (snd kv).
Proof.
  unfold series_get. induction m as [|kv0 m IH]; intros Hnd Hin; [by apply elem_of_nil in Hin|].
  simpl in *. apply NoDup_cons in Hnd as [Hnot Hnd].
  apply elem_of_cons in Hin as [->|Hin].
  - by rewrite Z.eqb_refl.
  - destruct (fst kv0 =? fst kv) eqn:E; [|by apply IH].
    apply Z.eqb_eq in E. destruct Hnot. rewrite E.
    apply list_elem_of_In, in_map, list_elem_of_In. done.
Qed.

(** A collected series after sorting: its identifier is its key, and its
    points are the points of its records, sorted by timestamp, records with
    the same timestamp staying in their order. *)
Lemma collectSeries_sorted km_monitors kv :
  kv ∈ collectSeries srv_id serverName km_monitors →
  let pts := points_of (fst kv) (payload_records km_monitors) in
  monitor_id (sortSeries (snd kv)) = fst kv
  ∧ zip (created_at (sortSeries (snd kv))) (avg_delay (sortSeries (snd kv)))
    = sort_by (λ a b, fst a <=? fst b) pts
  ∧ length (avg_delay (sortSeries (snd kv))) = length pts.
Proof.
  intros Hin pts.
  destruct (collectSeries_wf km_monitors) as [Hnd Hid].
  destruct (collectSeries_points km_monitors (fst kv)) as [Ht Hv].
  unfold series_times, series_values in Ht, Hv.
  rewrite (series_get_NoDup _ kv Hnd Hin) in Ht, Hv. fold pts in Ht, Hv.
  split; [by apply Hid|].
  unfold sortSeries. simpl. rewrite Ht, Hv, imap_fst_snd.
  split; [apply zip_fst_snd|].
  by rewrite length_map, sort_by_length.
Qed.
End collectSeries_facts.

Section fetchMonitor_series.
Context `{Runtime} `{Upstream}.
Variables (server_id : Z) (hours : Q) (w : World) (uuid : string).
Hypothesis no_listing_error : nodes_error getKomariNodes = None.
Hypothesis node_listed :
  List.find (λ id, uuidToNumber id =? server_id) (map fst getKomariNodes) = Some uuid.
Hypothesis uuid_truthy : uuid ≠ EmptyString.
Hypothesis no_payload_error : payload_error (getRecords (ping_request uuid hours)) = None.

Let km_monitors := getRecords (ping_request uuid hours).
Let serverName := serverName_of getKomariNodes uuid server_id.

(** The run for a listed node whose reply carries no error. *)
Lemma fetchMonitor_listed :
  ∃ resp w',
    fetchMonitor server_id hours w = (Returned resp, w')
    ∧ Forall2 padded
        (map (λ kv, sortSeries (snd kv)) (collectSeries server_id serverName km_monitors))
        (data resp).
Proof.
  pose proof (fetchMonitor_cases server_id hours w) as Hc. simpl in Hc.
  rewrite no_listing_error, node_listed in Hc.
  destruct (String.eqb uuid EmptyString) eqn:E; [by apply String.eqb_eq in E|].
  rewrite no_payload_error in Hc. destruct Hc as (data' & w' & Hrun & _ & Hpad).
  by exists {| success := true; data := data'; from := None; to := None |}, w'.
Qed.

Lemma padded_monitor_id s s' : padded s s' → monitor_id s' = monitor_id s.
Proof.
  unfold padded. destruct (avg_delay s); [by intros (_ & _ & ? & _)|by intros ->].
Qed.

(** X14: for a listed node whose reply carries no error, the response has
    exactly one series for each task id of the payload (the ids of the
    listed tasks, then the ids of the records, a record without task id
    counting for the task 0), in the order in which the ids first occur. *)
Theorem fetchMonitor_series_per_task :
  ∃ resp w',
    fetchMonitor server_id hours w = (Returned resp, w')
    ∧ map monitor_id (data resp) = first_occurrences (payload_ids km_monitors)
    ∧ NoDup (map monitor_id (data resp))
    ∧ ∀ id, id ∈ map monitor_id (data resp) ↔ id ∈ payload_ids km_monitors.
Proof.
  destruct fetchMonitor_listed as (resp & w' & Hrun & Hpad).
  exists resp, w'. split; [done|].
  assert (map monitor_id (data resp) = first_occurrences (payload_ids km_monitors)) as Hids.
  { rewrite <- (collectSeries_keys server_id serverName km_monitors).
    pose proof (collectSeries_sorted server_id serverName km_monitors) as Hsorted.
    revert Hpad Hsorted. generalize (collectSeries server_id serverName km_monitors).
    intros m Hpad Hsorted.
    assert (∀ kv, kv ∈ m → monitor_id (sortSeries (snd kv)) = fst kv) as Hid
      by (intros kv Hkv; by destruct (Hsorted kv Hkv)).
    clear Hsorted. revert Hpad Hid. generalize (data resp). clear.
    induction m as [|kv m IH]; intros items Hpad Hid.
    - by apply Forall2_nil_inv_l in Hpad as ->.
    - simpl in Hpad. apply Forall2_cons_inv_l in Hpad as (s & rest & Hs & Hrest & ->).
      simpl. f_equal.
      + rewrite (padded_monitor_id _ _ Hs). apply Hid. left.
      + apply IH; [done|]. intros kv' Hkv'. apply Hid. by right. }
  rewrite Hids. destruct (first_occurrences_spec (payload_ids km_monitors)). done.
Qed.

(** X15: for a listed node whose reply carries no error, a series holds
    exactly the points its records contribute (the records of its task
    whose time parses and whose value is a finite number, the value -1
    giving [null]), timestamp and value kept together and sorted by
    timestamp, records with the same timestamp staying in their order; a
    series without such a record holds the single padding point. *)
Theorem fetchMonitor_series_points :
  ∃ resp w',
    fetchMonitor server_id hours w = (Returned resp, w')
    ∧ ∀ s, s ∈ data resp →
        let pts := points_of (monitor_id s) (payload_records km_monitors) in
        (pts ≠ [] →
           zip (created_at s) (avg_delay s) = sort_by (λ a b, fst a <=? fst b) pts
           ∧ zip (created_at s) (avg_delay s) ≡ₚ pts)
        ∧ (pts = [] → avg_delay s = [None] ∧ ∃ k, created_at s = [Date_now k]).
Proof.
  destruct fetchMonitor_listed as (resp & w' & Hrun & Hpad).
  exists resp, w'. split; [done|].
  intros s Hs.
  apply list_elem_of_lookup in Hs as [i Hs].
  destruct (Forall2_lookup_r _ _ _ _ _ Hpad Hs) as (s0 & Hs0 & Hp).
  change (map (λ kv, sortSeries (snd kv)) (collectSeries server_id serverName km_monitors))
    with ((λ kv : Z * NezhaMonitor, sortSeries (snd kv))
            <$> collectSeries server_id serverName km_monitors) in Hs0.
  apply list_lookup_fmap_Some in Hs0 as (kv & -> & Hkv).
  apply list_elem_of_lookup_2 in Hkv.
  destruct (collectSeries_sorted server_id serverName km_monitors kv Hkv)
    as (Hid & Hzip & Hlen).
  rewrite (padded_monitor_id _ _ Hp), Hid. simpl.
  set (pts := points_of (fst kv) (payload_records km_monitors)) in *.
  unfold padded in Hp. split.
  - intros Hne.
    destruct (avg_delay (sortSeries (snd kv))) eqn:Havg.
    { simpl in Hlen. destruct pts; [done|simpl in Hlen; lia]. }
    rewrite Hp, Havg, Hzip. split; [done|]. apply sort_by_Permutation.
  - intros Hnil. destruct (avg_delay (sortSeries (snd kv))) eqn:Havg.
    + by destruct Hp as (? & ? & _).
    + rewrite Hnil in Hlen. discriminate.
Qed.
End fetchMonitor_series.

(** ** NetworkChart: the chart buttons *)

Local Open Scope Q_scope.

Lemma calculatePacketLoss_in_range `{Runtime} (delays : list (option Q)) x :
  x ∈ calculatePacketLoss delays → 0 <= x <= 100.
Proof.
  rewrite calculatePacketLoss_map.
  change (map toFixed2 (packetLossRates_of delays))
    with (toFixed2 <$> packetLossRates_of delays).
  intros (r & -> & [i Hr]%list_elem_of_lookup)%list_elem_of_fmap.
  apply toFixed2_bounds. unfold packetLossRates_of in Hr.
  by apply rates_after_bounds in Hr.
Qed.

Lemma reduce_sum_bounds (l : list Q) (lo hi : Q) :
  Forall (λ x, lo <= x <= hi) l →
  lo * inject_Z (Z.of_nat (length l)) <= reduce_sum (λ x, x) l
  ∧ reduce_sum (λ x, x) l <= hi * inject_Z (Z.of_nat (length l)).
Proof.
  intros Hl. unfold reduce_sum.
  assert (∀ acc, acc + lo * inject_Z (Z.of_nat (length l))
                 <= foldl (λ sum d, sum + d) acc l
                 ∧ foldl (λ sum d, sum + d) acc l
                   <= acc + hi * inject_Z (Z.of_nat (length l))) as Hgen.
  { induction Hl as [|x l Hx Hl IH]; intros acc; simpl length; simpl foldl.
    - change (inject_Z (Z.of_nat 0)) with 0. lra.
    - destruct (IH (acc + x)) as [H1 H2].
      rewrite Nat2Z.inj_succ, <- Z.add_1_r, inject_Z_plus.
      change (inject_Z 1) with 1. lra. }
  destruct (Hgen 0). lra.
Qed.

Section chart_buttons.
Context `{Runtime}.

(** The chart of a monitor name holds the points of all the series of
    that name, in the order of the series. *)
Lemma transformData_lookup (items : list NezhaMonitor) (key : string) :
  transformData items !! key
  = match List.filter (λ item, String.eqb (monitor_name item) key) items with
    | [] => None
    | named => Some (flat_map chart_points named)
    end.
Proof.
  unfold transformData.
  set (step := λ (monitorData : gmap string (list ChartPoint)) item, _).
  assert (∀ m : gmap string (list ChartPoint),
            foldl step m items !! key
            = match m !! key,
                    List.filter (λ item, String.eqb (monitor_name item) key) items with
              | None, [] => None
              | o, named => Some (default [] o ++ flat_map chart_points named)
              end) as Hgen.
  { induction items as [|item items IH]; intros m.
    - simpl. destruct (m !! key); [by rewrite app_nil_r|done].
    - simpl foldl. rewrite IH. simpl List.filter.
      destruct (String.eqb (monitor_name item) key) eqn:E.
      + apply String.eqb_eq in E.
        assert (step m item !! key = Some (default [] (m !! key) ++ chart_points item)) as ->.
        { unfold step. rewrite E. rewrite lookup_alter_eq.
          destruct (m !! key) eqn:Hm; [by rewrite Hm|by rewrite lookup_insert_eq]. }
        simpl. rewrite <- app_assoc.
        destruct (m !! key), (List.filter _ items); done.
      + apply String.eqb_neq in E.
        assert (step m item !! key = m !! key) as ->; [|done].
        unfold step. rewrite lookup_alter_ne by done.
        destruct (m !! monitor_name item); [done|by rewrite lookup_insert_ne]. }
  rewrite Hgen, lookup_empty. by destruct (List.filter _ items).
Qed.

Lemma chart_points_loss (item : NezhaMonitor) (p : ChartPoint) (x : Q) :
  p ∈ chart_points item → chart_packet_loss p = Some x →
  x ∈ default (calculatePacketLoss (avg_delay item)) (packet_loss item).
Proof.
  unfold chart_points. intros [i Hp]%list_elem_of_lookup Hx.
  rewrite list_lookup_imap in Hp.
  destruct (created_at item !! i); [|done]. simpl in Hp. injection Hp as <-.
  simpl in Hx. by eapply list_elem_of_lookup_2.
Qed.

(** X16: the average packet loss shown on the button of a chart lies
    between 0 and 100, when the packet losses the series report are
    percentages; the losses [calculatePacketLoss] estimates for the series
    that report none always are. *)
Theorem avgPacketLoss_percentage (items : list NezhaMonitor) (key : string)
    (points : list ChartPoint) (a : Q) :
  (∀ item losses x, item ∈ items → packet_loss item = Some losses → x ∈ losses →
     0 <= x <= 100) →
  transformData items !! key = Some points →
  avgPacketLoss points = Some a →
  0 <= a <= 100.
Proof.
  intros Hreported Hpoints Ha.
  assert (∀ p x, p ∈ points → chart_packet_loss p = Some x → 0 <= x <= 100) as Hloss.
  { intros p x Hp Hx. rewrite transformData_lookup in Hpoints.
    destruct (List.filter _ items) as [|n0 named] eqn:Hf; [done|]. rewrite <- Hf in Hpoints.
    injection Hpoints as <-.
    apply list_elem_of_In, in_flat_map in Hp as (item & Hitem & Hp).
    apply filter_In in Hitem as [Hitem _].
    apply list_elem_of_In in Hitem, Hp.
    pose proof (chart_points_loss item p x Hp Hx) as Hin.
    destruct (packet_loss item) as [losses|] eqn:Hpl; simpl in Hin.
    - by apply (Hreported item losses).
    - by apply calculatePacketLoss_in_range in Hin. }
  unfold avgPacketLoss in Ha.
  set (packetLossData := omap chart_packet_loss points) in *.
  destruct (0 <? length packetLossData)%nat eqn:Hlen; [|done].
  apply Nat.ltb_lt in Hlen. injection Ha as <-.
  assert (Forall (λ x, 0 <= x <= 100) packetLossData) as Hall.
  { apply Forall_forall. intros x Hx. unfold packetLossData in Hx.
    apply list_elem_of_omap in Hx as (p & Hp & Hx). by apply (Hloss p). }
  destruct (reduce_sum_bounds packetLossData 0 100 Hall) as [H1 H2].
  set (n := inject_Z (Z.of_nat (length packetLossData))) in *.
  assert (0 < n) as Hn.
  { unfold n. change 0 with (inject_Z 0). rewrite <- Zlt_Qlt. lia. }
  split.
  - apply Qle_shift_div_l; [done|]. lra.
  - apply Qle_shift_div_r; [done|]. lra.
Qed.
End chart_buttons.

(** X17: the delay shown on the button of a chart is the delay of the most
    recent point whose delay is not [null]: the lost probes at the end of
    the chart are skipped; it is 0 when every delay is [null]. *)
Theorem lastValidDelay_skips_lost (earlier later : list ChartPoint) (p : ChartPoint)
    (v : Q) :
  Forall (λ q, chart_avg_delay q = Some None) later →
  (chart_avg_delay p = Some (Some v) → lastValidDelay (earlier ++ p :: later) = v)
  ∧ lastValidDelay later = 0.
Proof.
  intros Hlater.
  assert (∀ rest, List.find (λ item, match chart_avg_delay item with
                                     | Some None => false
                                     | _ => true
                                     end) (reverse later ++ rest)
                  = List.find (λ item, match chart_avg_delay item with
                                       | Some None => false
                                       | _ => true
                                       end) rest) as Hskip.
  { intros rest. induction Hlater as [|q later Hq Hlater IH] in rest |- *; [done|].
    rewrite reverse_cons, <- app_assoc, IH. simpl. by rewrite Hq. }
  split.
  - intros Hp. unfold lastValidDelay.
    rewrite reverse_app, reverse_cons, <- app_assoc, Hskip. simpl.
    rewrite Hp. simpl. by rewrite Hp.
  - unfold lastValidDelay. rewrite <- (app_nil_r (reverse later)), Hskip. done.
Qed.

(** ** NetworkChart: the selection of charts *)

Lemma handleButtonClick_selected chart prev :
  chart ∈ prev →
  handleButtonClick chart prev = List.filter (λ c, negb (String.eqb c chart)) prev.
Proof.
  intros Hin. unfold handleButtonClick.
  assert (existsb (String.eqb chart) prev = true) as ->; [|done].
  apply existsb_exists. exists chart. split; [by apply list_elem_of_In|apply String.eqb_refl].
Qed.

Lemma handleButtonClick_unselected chart prev :
  chart ∉ prev → handleButtonClick chart prev = prev ++ [chart].
Proof.
  intros Hin. unfold handleButtonClick.
  assert (existsb (String.eqb chart) prev = false) as ->; [|done].
  apply not_true_is_false. intros (c & Hc & ->%String.eqb_eq)%existsb_exists.
  by apply Hin, list_elem_of_In.
Qed.

Lemma elem_of_filter_ne (chart c : string) (l : list string) :
  c ∈ List.filter (λ c, negb (String.eqb c chart)) l ↔ c ∈ l ∧ c ≠ chart.
Proof.
  rewrite !list_elem_of_In, filter_In, negb_true_iff, String.eqb_neq. done.
Qed.

Lemma filter_ne_absent (chart : string) (l : list string) :
  chart ∉ l → List.filter (λ c, negb (String.eqb c chart)) l = l.
Proof.
  induction l as [|c l IH]; intros Hnot; [done|]. simpl.
  apply not_elem_of_cons in Hnot as [Hne Hnot].
  assert (String.eqb c chart = false) as -> by (apply String.eqb_neq; congruence).
  simpl. by rewrite IH.
Qed.

Lemma filter_ne_NoDup (chart : string) (l : list string) :
  NoDup l → NoDup (List.filter (λ c, negb (String.eqb c chart)) l).
Proof.
  induction 1 as [|c l Hnot Hnd IH]; simpl; [constructor|].
  destruct (negb (String.eqb c chart)); [|done].
  constructor; [|done]. rewrite elem_of_filter_ne. tauto.
Qed.

(** X18: a click on the button of a chart toggles the chart and nothing
    else: the chart is selected afterwards exactly when it was not before,
    every other chart keeps its state, a selection without repetition stays
    without repetition, and a second click on the same button restores the
    selection (up to the order of the charts). *)
Theorem handleButtonClick_toggles (chart : string) (prev : list string) :
  let next := handleButtonClick chart prev in
  (chart ∈ next ↔ chart ∉ prev)
  ∧ (∀ c, c ≠ chart → (c ∈ next ↔ c ∈ prev))
  ∧ (NoDup prev → NoDup next ∧ handleButtonClick chart next ≡ₚ prev).
Proof.
  intros next. unfold next.
  destruct (decide (chart ∈ prev)) as [Hin|Hnot].
  - rewrite handleButtonClick_selected by done. split_and!.
    + rewrite elem_of_filter_ne. tauto.
    + intros c Hc. rewrite elem_of_filter_ne. tauto.
    + intros Hnd. split; [by apply filter_ne_NoDup|].
      rewrite handleButtonClick_unselected by (rewrite elem_of_filter_ne; tauto).
      apply NoDup_Permutation.
      * apply NoDup_app. split_and!; [by apply filter_ne_NoDup| |apply NoDup_singleton].
        intros c Hc ->%list_elem_of_singleton. apply elem_of_filter_ne in Hc. tauto.
      * done.
      * intros c. rewrite elem_of_app, elem_of_filter_ne, list_elem_of_singleton.
        destruct (decide (c = chart)) as [->|?]; tauto.
  - rewrite handleButtonClick_unselected by done. split_and!.
    + rewrite elem_of_app, list_elem_of_singleton. tauto.
    + intros c Hc. rewrite elem_of_app, list_elem_of_singleton. tauto.
    + intros Hnd. split.
      * apply NoDup_app. split_and!; [done| |apply NoDup_singleton].
        intros c Hc ->%list_elem_of_singleton. done.
      * rewrite handleButtonClick_selected
          by (rewrite elem_of_app, list_elem_of_singleton; tauto).
        rewrite List.filter_app, filter_ne_absent by done. simpl.
        rewrite String.eqb_refl. simpl. by rewrite app_nil_r.
Qed.

(** ** NetworkChart: the ticks of the time axis *)

Local Open Scope Z_scope.

Section tick_loop_facts.
Variables (rangeStart rangeEnd stepMs : Z).
Hypothesis step_pos : 0 < stepMs.

Lemma tick_loop_sorted fuel t :
  Sorted Z.lt (tick_loop fuel t rangeStart rangeEnd stepMs)
  ∧ ∀ x, x ∈ tick_loop fuel t rangeStart rangeEnd stepMs →
         t <= x ∧ rangeStart <= x <= rangeEnd.
Proof.
  revert t. induction fuel as [|fuel IH]; intros t; simpl.
  { split; [constructor|]. by intros x ?%elem_of_nil. }
  destruct (t <=? rangeEnd) eqn:Hle; [|split; [constructor|by intros x ?%elem_of_nil]].
  rewrite andb_true_r.
  apply Z.leb_le in Hle. destruct (IH (t + stepMs)) as [Hs Hin].
  destruct (rangeStart <=? t) eqn:Hc; simpl.
  - apply Z.leb_le in Hc. split.
    + constructor; [done|].
      destruct (tick_loop fuel (t + stepMs) rangeStart rangeEnd stepMs) as [|y l] eqn:E;
        constructor.
      destruct (Hin y) as [? _]; [left|lia].
    + intros x [->|Hx]%elem_of_cons; [lia|]. destruct (Hin x Hx). lia.
  - split; [done|]. intros x Hx. destruct (Hin x Hx). lia.
Qed.

Lemma elem_of_tick_loop fuel t x :
  (Z.to_nat ((rangeEnd - t) / stepMs + 1) <= fuel)%nat →
  x ∈ tick_loop fuel t rangeStart rangeEnd stepMs
  ↔ ∃ k, 0 <= k ∧ x = t + k * stepMs ∧ rangeStart <= x <= rangeEnd.
Proof.
  revert t. induction fuel as [|fuel IH]; intros t Hfuel; simpl.
  { split; [by intros ?%elem_of_nil|]. intros (k & Hk & -> & Hx).
    assert (0 <= (rangeEnd - t) / stepMs) by (apply Z.div_pos; nia). lia. }
  destruct (t <=? rangeEnd) eqn:Hle.
  2:{ apply Z.leb_gt in Hle. split; [by intros ?%elem_of_nil|].
      intros (k & Hk & -> & Hx). nia. }
  rewrite andb_true_r. apply Z.leb_le in Hle.
  assert ((rangeEnd - (t + stepMs)) / stepMs = (rangeEnd - t) / stepMs - 1) as Hdiv.
  { replace (rangeEnd - (t + stepMs)) with ((rangeEnd - t) + (-1) * stepMs) by ring.
    rewrite Z.div_add by lia. lia. }
  assert (0 <= (rangeEnd - t) / stepMs) by (apply Z.div_pos; lia).
  rewrite elem_of_app, IH by (rewrite Hdiv; lia).
  split.
  - intros [Hx|(k & Hk & -> & Hx)].
    + destruct (rangeStart <=? t) eqn:Hc; [|by apply elem_of_nil in Hx].
      apply list_elem_of_singleton in Hx as ->. apply Z.leb_le in Hc.
      exists 0. lia.
    + exists (k + 1). lia.
  - intros (k & Hk & -> & Hx). destruct (decide (k = 0)) as [->|Hne].
    + left. replace (t + 0 * stepMs) with t in * by lia.
      assert ((rangeStart <=? t) = true) as -> by (apply Z.leb_le; lia).
      left.
    + right. exists (k - 1). split_and!; lia.
Qed.
End tick_loop_facts.

Lemma stepMinutes_of_values rangeStart rangeEnd :
  stepMinutes_of rangeStart rangeEnd ∈ [30; 60; 120; 240; 360].
Proof.
  unfold stepMinutes_of. repeat (destruct (Qle_bool _ _); [set_solver|]). set_solver.
Qed.

Lemma Sorted_lt_snoc (l : list Z) (b x : Z) :
  Sorted Z.lt l → last l = Some b → b < x → Sorted Z.lt (l ++ [x]).
Proof.
  intros Hs Hl Hb.
  assert (StronglySorted Z.le l) as Hle.
  { apply Sorted_StronglySorted; [intros ???; lia|].
    apply (Sorted_mono Z.lt); [intros; lia|done]. }
  apply StronglySorted_Sorted, StronglySorted_snoc.
  - apply Sorted_StronglySorted; [intros ???; lia|done].
  - intros y Hy. pose proof (StronglySorted_le_last l b y Hle Hl Hy). lia.
Qed.

(** X19: the ticks of the time axis of a range that is not empty start with
    the start of the range, end with its end and are strictly ascending; in
    between they are the instants within the range that lie a whole number
    of steps after the aligned start, whatever the local time zone makes of
    the alignment.  An empty or inverted range has no ticks. *)
Theorem buildTimeTicks_spec `{LocalDate} (rangeStart rangeEnd : Z) :
  let ticks := buildTimeTicks rangeStart rangeEnd in
  let stepMinutes := stepMinutes_of rangeStart rangeEnd in
  (rangeEnd <= rangeStart → ticks = [])
  ∧ (rangeStart < rangeEnd →
     head ticks = Some rangeStart
     ∧ last ticks = Some rangeEnd
     ∧ Sorted Z.lt ticks
     ∧ ∀ x, x ∈ ticks ↔
         x = rangeStart ∨ x = rangeEnd
         ∨ ∃ k, 0 <= k
                ∧ x = alignedStart rangeStart stepMinutes + k * (stepMinutes * 60 * 1000)
                ∧ rangeStart <= x <= rangeEnd).
Proof.
  intros ticks stepMinutes. unfold ticks, buildTimeTicks. fold stepMinutes. split.
  { intros Hle. apply Z.leb_le in Hle. by rewrite Hle. }
  intros Hlt. destruct (rangeEnd <=? rangeStart) eqn:E; [apply Z.leb_le in E; lia|].
  clear E. set (stepMs := stepMinutes * 60 * 1000).
  set (start := alignedStart rangeStart stepMinutes).
  assert (0 < stepMs) as Hstep.
  { unfold stepMs, stepMinutes.
    pose proof (stepMinutes_of_values rangeStart rangeEnd) as Hv.
    repeat (apply elem_of_cons in Hv as [->|Hv]; [lia|]). by apply elem_of_nil in Hv. }
  set (ticks0 := tick_loop _ start rangeStart rangeEnd stepMs).
  destruct (tick_loop_sorted rangeStart rangeEnd stepMs Hstep
              (Z.to_nat ((rangeEnd - start) / stepMs + 1)) start) as [Hsorted Hbounds].
  pose proof (λ x, elem_of_tick_loop rangeStart rangeEnd stepMs Hstep
                     (Z.to_nat ((rangeEnd - start) / stepMs + 1)) start x (le_n _)) as Hin.
  fold ticks0 in Hsorted, Hbounds, Hin.
  destruct ticks0 as [|first rest] eqn:Hticks.
  { destruct (rangeEnd =? rangeStart) eqn:E; [apply Z.eqb_eq in E; lia|].
    split_and!; [done|done|repeat constructor; lia|].
    intros x. rewrite <- Hin, !elem_of_cons, !elem_of_nil. tauto. }
  rewrite <- Hticks in *.
  assert (rangeStart <= first <= rangeEnd) as Hfirst.
  { apply Hbounds. rewrite Hticks. left. }
  set (ticks1 := if negb (first =? rangeStart) then rangeStart :: ticks0 else ticks0).
  assert (head ticks1 = Some rangeStart ∧ Sorted Z.lt ticks1
          ∧ ∀ x, x ∈ ticks1 ↔ x = rangeStart ∨ x ∈ ticks0) as (Hhd1 & Hs1 & Hin1).
  { unfold ticks1. destruct (first =? rangeStart) eqn:E; simpl.
    - apply Z.eqb_eq in E. subst first. split_and!; [by rewrite Hticks|done|].
      intros x. split; [by right|]. intros [->|?]; [rewrite Hticks; left|done].
    - apply Z.eqb_neq in E. split_and!; [done| |].
      + constructor; [done|]. rewrite Hticks. constructor. lia.
      + intros x. by rewrite elem_of_cons. }
  assert (∃ l, last ticks1 = Some l) as [l Hl].
  { destruct (last ticks1) eqn:El; [eauto|]. apply last_None in El.
    by rewrite El in Hhd1. }
  assert (rangeStart <= l <= rangeEnd) as Hlb.
  { assert (l ∈ ticks1) as Hlin by (apply last_Some in Hl as [? ->]; set_solver).
    apply Hin1 in Hlin as [->|Hlin]; [lia|]. by apply Hbounds. }
  rewrite Hl. simpl.
  destruct (l =? rangeEnd) eqn:E; simpl.
  - apply Z.eqb_eq in E. subst l. split_and!; [done|done|done|].
    intros x. rewrite Hin1, Hin. split; [tauto|].
    intros [->|[->|?]]; [tauto| |tauto].
    assert (rangeEnd ∈ ticks1) as Hre by (apply last_Some in Hl as [? ->]; set_solver).
    apply Hin1 in Hre. by rewrite Hin in Hre.
  - apply Z.eqb_neq in E. split_and!.
    + destruct ticks1; [done|done].
    + apply last_snoc.
    + apply (Sorted_lt_snoc ticks1 l); [done|done|lia].
    + intros x. rewrite elem_of_app, list_elem_of_singleton, Hin1, Hin. tauto.
Qed.

(** ** nezha-api: [fetchServerGroup] *)

Local Open Scope Z_scope.

Section fetchServerGroup_facts.
Context `{Upstream} `{GroupUpstream}.

Lemma existsb_eqb_elem_of (g : string) (groups : list string) :
  existsb (String.eqb g) groups = bool_decide (g ∈ groups).
Proof.
  induction groups as [|g' groups IH]; [done|]. simpl. rewrite IH.
  destruct (String.eqb g g') eqn:E.
  - apply String.eqb_eq in E as ->. simpl. symmetry. apply bool_decide_eq_true_2. left.
  - apply String.eqb_neq in E. simpl. apply bool_decide_ext. rewrite elem_of_cons.
    split; [tauto|]. intros [?|?]; [congruence|done].
Qed.

Lemma extractGroups_acc (kmNodes : GroupNodes) (acc : list string) :
  NoDup acc →
  let groups :=
    foldl (λ groups kv,
             match group_of (snd kv) with
             | Some g => if existsb (String.eqb g) groups then groups else groups ++ [g]
             | None => groups
             end) acc kmNodes in
  NoDup groups
  ∧ ∀ g, g ∈ groups ↔ g ∈ acc ∨ ∃ kv, kv ∈ kmNodes ∧ group_of (snd kv) = Some g.
Proof.
  revert acc. induction kmNodes as [|kv kmNodes IH]; intros acc Hacc; simpl.
  { split; [done|]. intros g. split; [by left|].
    intros [?|(? & ?%elem_of_nil & _)]; done. }
  destruct (group_of (snd kv)) as [g0|] eqn:Hg.
  - rewrite existsb_eqb_elem_of.
    destruct (bool_decide (g0 ∈ acc)) eqn:Hin.
    + apply bool_decide_eq_true in Hin. destruct (IH acc Hacc) as [Hnd Hiff].
      split; [done|]. intros g. rewrite Hiff. split.
      * intros [?|(kv' & Hkv' & Hg')]; [by left|]. right. exists kv'. split; [by right|done].
      * intros [?|(kv' & [->|Hkv']%elem_of_cons & Hg')]; [by left| |right; eauto].
        left. congruence.
    + apply bool_decide_eq_false in Hin.
      destruct (IH (acc ++ [g0])) as [Hnd Hiff].
      { apply NoDup_app. split_and!; [done| |apply NoDup_singleton].
        intros x Hx ->%list_elem_of_singleton. done. }
      split; [done|]. intros g. rewrite Hiff, elem_of_app, list_elem_of_singleton. split.
      * intros [[?| ->]|(kv' & Hkv' & Hg')]; [by left| |].
        -- right. exists kv. split; [left|done].
        -- right. exists kv'. split; [by right|done].
      * intros [?|(kv' & [->|Hkv']%elem_of_cons & Hg')]; [tauto| |right; eauto].
        left. right. congruence.
  - destruct (IH acc Hacc) as [Hnd Hiff]. split; [done|]. intros g. rewrite Hiff. split.
    + intros [?|(kv' & Hkv' & Hg')]; [by left|]. right. exists kv'. split; [by right|done].
    + intros [?|(kv' & [->|Hkv']%elem_of_cons & Hg')]; [by left|congruence|right; eauto].
Qed.

(** The groups are the distinct truthy groups of the nodes. *)
Lemma extractGroups_spec (kmNodes : GroupNodes) :
  NoDup (extractGroups kmNodes)
  ∧ ∀ g, g ∈ extractGroups kmNodes ↔ ∃ kv, kv ∈ kmNodes ∧ group_of (snd kv) = Some g.
Proof.
  destruct (extractGroups_acc kmNodes [] (NoDup_nil_2)) as [Hnd Hiff].
  split; [done|]. intros g. unfold extractGroups. rewrite Hiff, elem_of_nil. tauto.
Qed.

(** The entries built for the groups: one for each group, numbered from
    [index], at the cost of two readings of the clock each and of no remote
    call. *)
Lemma groupItems_spec (kmNodes : GroupNodes) (groups : list string) (index : Z) (w : World) :
  ∃ items w',
    groupItems kmNodes groups index w = (Returned items, w')
    ∧ calls w' = calls w
    ∧ ticks w' = (ticks w + 2 * length groups)%nat
    ∧ map (λ item, group_name (group item)) items = groups
    ∧ ∀ i item, items !! i = Some item →
        group_id (group item) = index + Z.of_nat i
        ∧ servers item = serversOf kmNodes (group_name (group item)).
Proof.
  revert index w. induction groups as [|g groups IH]; intros index w.
  { exists [], w. simpl. split_and!; try done; lia. }
  simpl. unfold mbind, Async_bind, nowISO. simpl.
  destruct (IH (index + 1) {| ticks := S (S (ticks w)); calls := calls w |})
    as (items & w' & Hrun & Hcalls & Hticks & Hnames & Hitems).
  rewrite Hrun. simpl. eexists _, w'. split; [reflexivity|].
  split_and!; [done|simpl in Hticks; lia|simpl; by rewrite Hnames|].
  intros [|i] item Hi; simpl in Hi.
  - injection Hi as <-. simpl. split; [lia|done].
  - destruct (Hitems i item Hi) as [-> ->]. split; [lia|done].
Qed.

(** X20: [fetchServerGroup] asks for the node listing and nothing else.  It
    fails exactly when the listing carries an error.  Otherwise the response
    has one entry for each distinct non-empty group name of the nodes,
    numbered from 0 in the order of the entries; the servers of an entry are
    the numbers of the nodes of that group, in the order of the listing, so
    that a node with a group belongs to the entry of its group and a node
    without group to none. *)
Theorem fetchServerGroup_spec (w : World) :
  let w1 := {| ticks := ticks w; calls := calls w ++ [EvGetKomariNodes] |} in
  match group_nodes_error getGroupNodes with
  | Some msg => fetchServerGroup w = (Thrown msg, w1)
  | None =>
      ∃ resp w',
        fetchServerGroup w = (Returned resp, w')
        ∧ calls w' = calls w ++ [EvGetKomariNodes]
        ∧ group_success resp = true
        ∧ NoDup (map (λ item, group_name (group item)) (group_data resp))
        ∧ (∀ i item, group_data resp !! i = Some item →
             group_id (group item) = Z.of_nat i
             ∧ group_name (group item) ≠ EmptyString
             ∧ servers item = serversOf getGroupNodes (group_name (group item)))
        ∧ (∀ key g, (key, GroupNodeObject (Some g)) ∈ getGroupNodes → g ≠ EmptyString →
             ∃ item, item ∈ group_data resp ∧ group_name (group item) = g
                     ∧ uuidToNumber key ∈ servers item)
        ∧ (∀ item n, item ∈ group_data resp → n ∈ servers item →
             ∃ key, (key, GroupNodeObject (Some (group_name (group item)))) ∈ getGroupNodes
                    ∧ uuidToNumber key = n)
  end.
Proof.
  unfold fetchServerGroup. unfold mbind, Async_bind, mret, Async_ret, emit, throw.
  simpl. destruct (group_nodes_error getGroupNodes) as [msg|]; [done|].
  destruct (extractGroups_spec getGroupNodes) as [Hnd Hgroups].
  destruct (groupItems_spec getGroupNodes (extractGroups getGroupNodes) 0
              {| ticks := ticks w; calls := calls w ++ [EvGetKomariNodes] |})
    as (items & w' & Hrun & Hcalls & _ & Hnames & Hitems).
  rewrite Hrun.
  eexists _, w'. split; [reflexivity|]. simpl.
  assert (∀ n g, n ∈ serversOf getGroupNodes g ↔
            ∃ key, (key, GroupNodeObject (Some g)) ∈ getGroupNodes ∧ uuidToNumber key = n)
    as Hservers.
  { intros n g. unfold serversOf. rewrite list_elem_of_In, in_map_iff. split.
    - intros ([key value] & <- & [Hin Hv]%filter_In). simpl in *.
      destruct value as [[g'|]|]; try done. apply String.eqb_eq in Hv as ->.
      exists key. split; [by apply list_elem_of_In|done].
    - intros (key & Hin & <-). exists (key, GroupNodeObject (Some g)).
      split; [done|]. apply filter_In. split; [by apply list_elem_of_In|].
      simpl. apply String.eqb_refl. }
  split_and!; [done|done|by rewrite Hnames| | |].
  - intros i item Hi. destruct (Hitems i item Hi) as [Hid Hs]. split_and!; [lia| |done].
    assert (group_name (group item) ∈ extractGroups getGroupNodes) as Hg.
    { rewrite <- Hnames. apply list_elem_of_In, in_map_iff. exists item.
      split; [done|]. apply list_elem_of_In. by eapply list_elem_of_lookup_2. }
    apply Hgroups in Hg as ([key value] & _ & Hg). simpl in Hg.
    destruct value as [[g'|]|]; try done. simpl in Hg.
    destruct (String.eqb g' EmptyString) eqn:E; [done|].
    injection Hg as <-. by apply String.eqb_neq.
  - intros key g Hin Hg.
    assert (g ∈ extractGroups getGroupNodes) as Hgin.
    { apply Hgroups. exists (key, GroupNodeObject (Some g)). split; [done|]. simpl.
      apply String.eqb_neq in Hg. by rewrite Hg. }
    rewrite <- Hnames in Hgin.
    apply list_elem_of_In, in_map_iff in Hgin as (item & Hname & Hitem).
    apply list_elem_of_In in Hitem. exists item. split_and!; [done|done|].
    apply list_elem_of_lookup in Hitem as [i Hi]. destruct (Hitems i item Hi) as [_ ->].
    rewrite Hname. apply Hservers. eauto.
  - intros item n [i Hi]%list_elem_of_lookup Hn.
    destruct (Hitems i item Hi) as [_ Hs]. rewrite Hs in Hn. by apply Hservers.
Qed.
End fetchServerGroup_facts.

(** ** ServerDetail: the range options *)

Local Open Scope Z_scope.

Lemma RangeValue_eqb_eq (a b : RangeValue) : RangeValue_eqb a b = true ↔ a = b.
Proof.
  destruct a as [|x], b as [|y]; simpl; try done.
  rewrite Z.eqb_eq. split; [by intros ->|by intros [= ->]].
Qed.

Lemma filter_leb_NoDup (m : Z) (l : list Z) :
  NoDup l → NoDup (List.filter (λ hours, hours <=? m) l).
Proof.
  induction 1 as [|x l Hx Hnd IH]; simpl; [constructor|].
  destruct (x <=? m); [|done]. constructor; [|done].
  intros [Hin _]%list_elem_of_In%filter_In. by apply Hx, list_elem_of_In.
Qed.

Section buildRangeOptions_facts.
Variables (maxHours : number) (baseHours : list Z) (formatLabel : Z → string)
          (realtimeLabel : string) (hideMaxWhenBelowOrEqual : option Z).

Let options :=
  buildRangeOptions maxHours baseHours formatLabel realtimeLabel hideMaxWhenBelowOrEqual.
Let safeMax := safeMax_of maxHours baseHours.
Let hidden : Prop :=
  match hideMaxWhenBelowOrEqual with Some h => safeMax <= h | None => False end.

Lemma buildRangeOptions_hidden :
  hidden → options = [{| option_value := Realtime; option_label := realtimeLabel |}].
Proof.
  unfold hidden, options, buildRangeOptions. fold safeMax.
  destruct hideMaxWhenBelowOrEqual as [h|]; [|done].
  intros Hle. apply Z.leb_le in Hle. by rewrite Hle.
Qed.

Lemma buildRangeOptions_shown :
  ¬ hidden →
  options
  = {| option_value := Realtime; option_label := realtimeLabel |}
    :: map (λ hours, {| option_value := Hours hours; option_label := formatLabel hours |})
         (List.filter (λ hours, hours <=? safeMax) baseHours
          ++ if bool_decide (safeMax ∈ baseHours) then [] else [safeMax]).
Proof.
  unfold hidden, options, buildRangeOptions. fold safeMax. intros Hshown.
  assert (match hideMaxWhenBelowOrEqual with
          | Some h => safeMax <=? h
          | None => false
          end = false) as ->.
  { destruct hideMaxWhenBelowOrEqual as [h|]; [|done]. apply Z.leb_gt. lia. }
  assert (existsb (Z.eqb safeMax) (List.filter (λ hours, hours <=? safeMax) baseHours)
          = bool_decide (safeMax ∈ baseHours)) as ->.
  { destruct (bool_decide (safeMax ∈ baseHours)) eqn:E.
    - apply bool_decide_eq_true in E. apply existsb_exists. exists safeMax.
      split; [|apply Z.eqb_refl]. apply filter_In.
      split; [by apply list_elem_of_In|apply Z.leb_refl].
    - apply bool_decide_eq_false in E. apply not_true_is_false.
      intros (x & [Hx _]%filter_In & ->%Z.eqb_eq)%existsb_exists.
      by apply E, list_elem_of_In. }
  destruct (bool_decide (safeMax ∈ baseHours)); simpl.
  - by rewrite app_nil_r.
  - by rewrite map_app.
Qed.

Lemma hidden_dec : hidden ∨ ¬ hidden.
Proof.
  unfold hidden. destruct hideMaxWhenBelowOrEqual as [h|]; [|tauto].
  destruct (decide (safeMax <= h)); tauto.
Qed.

Lemma buildRangeOptions_head :
  head options = Some {| option_value := Realtime; option_label := realtimeLabel |}.
Proof.
  destruct hidden_dec as [Hh|Hs];
    [by rewrite (buildRangeOptions_hidden Hh)|by rewrite (buildRangeOptions_shown Hs)].
Qed.

(** The numeric options: the base ranges that do not exceed the retention,
    and the retention itself. *)
Lemma buildRangeOptions_hours h :
  Hours h ∈ map option_value options
  ↔ ¬ hidden ∧ ((h ∈ baseHours ∧ h <= safeMax) ∨ h = safeMax).
Proof.
  destruct hidden_dec as [Hh|Hs].
  { rewrite (buildRangeOptions_hidden Hh). simpl. split; [|tauto].
    intros [?|?%elem_of_nil]%elem_of_cons; done. }
  rewrite (buildRangeOptions_shown Hs). simpl. rewrite map_map. simpl.
  rewrite elem_of_cons, list_elem_of_In, in_map_iff. split.
  - intros [?|(x & [= <-] & Hx)]; [done|]. split; [done|].
    apply in_app_iff in Hx as [[Hx Hle]%filter_In|Hx].
    + left. apply Z.leb_le in Hle. split; [by apply list_elem_of_In|done].
    + destruct (bool_decide _); [done|]. destruct Hx as [<-|[]]. by right.
  - intros [_ Hh]. right. exists h. split; [done|]. apply in_app_iff.
    destruct Hh as [[Hin Hle]| ->].
    + left. apply filter_In. split; [by apply list_elem_of_In|by apply Z.leb_le].
    + destruct (bool_decide (safeMax ∈ baseHours)) eqn:E.
      * apply bool_decide_eq_true in E. left. apply filter_In.
        split; [by apply list_elem_of_In|apply Z.leb_refl].
      * right. by left.
Qed.

Lemma buildRangeOptions_labels option h :
  option ∈ options → option_value option = Hours h → option_label option = formatLabel h.
Proof.
  destruct hidden_dec as [Hh|Hs].
  { rewrite (buildRangeOptions_hidden Hh). intros ->%list_elem_of_singleton. done. }
  rewrite (buildRangeOptions_shown Hs).
  intros [->|Hin]%elem_of_cons; [done|].
  apply list_elem_of_In, in_map_iff in Hin as (x & <- & _). simpl. by intros [= ->].
Qed.

Lemma buildRangeOptions_NoDup : NoDup baseHours → NoDup (map option_value options).
Proof.
  intros Hnd. destruct hidden_dec as [Hh|Hs].
  { rewrite (buildRangeOptions_hidden Hh). simpl. apply NoDup_singleton. }
  rewrite (buildRangeOptions_shown Hs). simpl. rewrite map_map. simpl.
  constructor.
  { intros (x & ? & _)%list_elem_of_In%in_map_iff. done. }
  change (map (λ x, Hours x) ?l) with (Hours <$> l).
  apply NoDup_fmap_2; [by intros ?? [= ->]|].
  pose proof (filter_leb_NoDup safeMax baseHours Hnd) as Hf.
  destruct (bool_decide (safeMax ∈ baseHours)) eqn:E; [by rewrite app_nil_r|].
  apply bool_decide_eq_false in E.
  apply NoDup_app. split_and!; [done| |apply NoDup_singleton].
  intros x [Hin _]%list_elem_of_In%filter_In ->%list_elem_of_singleton.
  by apply E, list_elem_of_In.
Qed.

(** X21: the range options start with the realtime option; the numeric
    options are the base ranges that do not exceed the retention
    [safeMax], followed by the retention itself when it is not a base
    range, each labelled by [formatLabel]; none is offered when the
    retention is at or below the hiding threshold; no range is offered
    twice when the base ranges are distinct.  The retention is the floor of
    [maxHours] when that is a positive finite number, and the largest base
    range (24 without base ranges) otherwise. *)
Theorem buildRangeOptions_spec :
  head options = Some {| option_value := Realtime; option_label := realtimeLabel |}
  ∧ (∀ h, Hours h ∈ map option_value options
          ↔ ¬ hidden ∧ ((h ∈ baseHours ∧ h <= safeMax) ∨ h = safeMax))
  ∧ (∀ option h, option ∈ options → option_value option = Hours h →
       option_label option = formatLabel h)
  ∧ (hidden → options = [{| option_value := Realtime; option_label := realtimeLabel |}])
  ∧ (NoDup baseHours → NoDup (map option_value options))
  ∧ (∀ q, maxHours = Num q → (0 < q)%Q → safeMax = Qfloor q)
  ∧ ((∀ q, maxHours = Num q → (q <= 0)%Q) →
     match baseHours with
     | [] => safeMax = 24
     | _ => safeMax ∈ baseHours ∧ ∀ h, h ∈ baseHours → h <= safeMax
     end).
Proof.
  split_and!.
  - apply buildRangeOptions_head.
  - apply buildRangeOptions_hours.
  - apply buildRangeOptions_labels.
  - apply buildRangeOptions_hidden.
  - apply buildRangeOptions_NoDup.
  - intros q -> Hq. unfold safeMax, safeMax_of.
    assert (Qgt_bool q 0 = true) as -> by (by apply Qgt_bool_true). done.
  - intros Hbad.
    assert (safeMax = match baseHours with [] => 24 | h :: hs => foldl Z.max h hs end) as ->.
    { unfold safeMax, safeMax_of. destruct maxHours as [q| | |]; try done.
      assert (Qgt_bool q 0 = false) as -> by (apply Qgt_bool_false; by apply Hbad). done. }
    destruct baseHours as [|h hs]; [done|].
    by apply (max_of_spec (h :: hs)).
Qed.
End buildRangeOptions_facts.

Lemma reconcileRange_kept (opts : list RangeOption) (range : RangeValue) :
  range ∈ map option_value opts → reconcileRange opts range = range.
Proof.
  intros Hin. unfold reconcileRange.
  assert (existsb (λ option, RangeValue_eqb (option_value option) range) opts = true) as ->;
    [|done].
  apply list_elem_of_In, in_map_iff in Hin as (option & Hv & Hin).
  apply existsb_exists. exists option. split; [done|]. by apply RangeValue_eqb_eq.
Qed.

Lemma reconcileRange_offered (opts : list RangeOption) (range : RangeValue) :
  opts ≠ [] → reconcileRange opts range ∈ map option_value opts.
Proof.
  intros Hne. unfold reconcileRange.
  destruct (existsb _ opts) eqn:E.
  - apply existsb_exists in E as (option & Hin & Hv). apply RangeValue_eqb_eq in Hv as <-.
    apply list_elem_of_In, in_map, Hin.
  - destruct (last opts) as [option|] eqn:Hl; [|by apply last_None in Hl].
    apply last_Some in Hl as [l' ->]. rewrite map_app. set_solver.
Qed.

(** X22: on the network tab, where the retention is hidden at or below one
    hour and the base ranges are 6, 12, 24 and 168 hours, the effect that
    repairs the selection leaves an offered range alone and replaces any
    other by an offered one; the hours then given to the chart are at least
    1, and they are at most 1, which the chart takes for realtime, only for
    the realtime selection. *)
Theorem networkRange_reconciled (maxHours : number) (formatLabel : Z → string)
    (realtimeLabel : string) (range : RangeValue) :
  let opts := networkOptions maxHours formatLabel realtimeLabel in
  let selected := reconcileRange opts range in
  selected ∈ map option_value opts
  ∧ (range ∈ map option_value opts → selected = range)
  ∧ reconcileRange opts selected = selected
  ∧ 1 <= networkRangeHours selected
  ∧ (networkRangeHours selected <= 1 ↔ selected = Realtime).
Proof.
  intros opts selected.
  assert (opts ≠ []) as Hne.
  { intros He. pose proof (buildRangeOptions_head maxHours [6; 12; 24; 168] formatLabel
                             realtimeLabel (Some 1)) as Hhd.
    fold (networkOptions maxHours formatLabel realtimeLabel) in Hhd. fold opts in Hhd.
    by rewrite He in Hhd. }
  assert (selected ∈ map option_value opts) as Hin by (by apply reconcileRange_offered).
  assert (∀ h, selected = Hours h → 2 <= h) as Hhours.
  { intros h Hh. rewrite Hh in Hin. unfold opts, networkOptions in Hin.
    apply buildRangeOptions_hours in Hin as [Hshown Hcases]. simpl in Hshown.
    destruct Hcases as [[Hbase _]| ->]; [|lia].
    repeat (apply elem_of_cons in Hbase as [->|Hbase]; [lia|]).
    by apply elem_of_nil in Hbase. }
  split_and!; [done|apply reconcileRange_kept|by apply reconcileRange_kept| |].
  - destruct selected as [|h] eqn:E; simpl; [lia|]. specialize (Hhours h eq_refl). lia.
  - destruct selected as [|h] eqn:E; simpl; [done|]. specialize (Hhours h eq_refl).
    split; [lia|done].
Qed.

(** ** ServerDetailChart: the realtime buffers and the history records *)

Local Open Scope Z_scope.

Lemma pushRealtimePoint_nonempty {A} (prevData : list A) (point : A) :
  prevData ≠ [] → (length prevData <= 30)%nat →
  pushRealtimePoint prevData point
  = drop (length (prevData ++ [point]) - 30) (prevData ++ [point]).
Proof.
  intros Hne Hlen. unfold pushRealtimePoint.
  destruct prevData as [|x l] eqn:E; [done|]. rewrite <- E in *. clear E x l.
  rewrite length_app. simpl.
  destruct (30 <? length prevData + 1)%nat eqn:Hc.
  - apply Nat.ltb_lt in Hc. replace (length prevData + 1 - 30)%nat with 1%nat by lia.
    by destruct (prevData ++ [point]).
  - apply Nat.ltb_ge in Hc. by replace (length prevData + 1 - 30)%nat with 0%nat by lia.
Qed.

Lemma foldl_pushRealtimePoint_nonempty {A} (points init : list A) :
  init ≠ [] → (length init <= 30)%nat →
  foldl pushRealtimePoint init points
  = drop (length (init ++ points) - 30) (init ++ points).
Proof.
  revert init. induction points as [|p points IH]; intros init Hne Hlen; simpl.
  { rewrite app_nil_r. by replace (length init - 30)%nat with 0%nat by lia. }
  rewrite pushRealtimePoint_nonempty by done.
  set (fed := init ++ [p]).
  assert (length fed = S (length init)) as Hfed
    by (unfold fed; rewrite length_app; simpl; lia).
  rewrite IH.
  - rewrite <- drop_app_le by lia. rewrite drop_drop, length_drop.
    unfold fed. rewrite <- !app_assoc. simpl.
    f_equal. rewrite !length_app. simpl. lia.
  - intros He. apply (f_equal length) in He. rewrite length_drop in He. simpl in He. lia.
  - rewrite length_drop. lia.
Qed.

(** X23: a realtime chart keeps a sliding window of the points it is fed:
    started from a buffer of at most 30 points, the buffer always holds the
    last 30 points of what it held at the start followed by the points
    received since, in that order, the first point being entered twice when
    the buffer starts empty; it never holds more than 30 points. *)
Theorem realtime_buffer_window {A} (init points : list A) :
  (length init <= 30)%nat →
  let buffer := foldl pushRealtimePoint init points in
  let fed := match init, points with
             | [], p :: _ => p :: points
             | _, _ => init ++ points
             end in
  buffer = drop (length fed - 30) fed ∧ (length buffer <= 30)%nat.
Proof.
  intros Hlen buffer fed.
  assert (buffer = drop (length fed - 30) fed) as Heq.
  { unfold buffer, fed. destruct init as [|x init].
    - destruct points as [|p points]; [done|]. simpl foldl.
      rewrite (foldl_pushRealtimePoint_nonempty points [p; p]); [done|done|simpl; lia].
    - by rewrite (foldl_pushRealtimePoint_nonempty points (x :: init)). }
  split; [done|]. rewrite Heq, length_drop. lia.
Qed.

Section historyRecords_facts.
Context `{Runtime}.
Context {NezhaLoadRecord : Type} (record_time : NezhaLoadRecord → string).
Variable records : list NezhaLoadRecord.

Let withTs := historyRecordsWithTs record_time records.
Let parsed :=
  omap (λ record, (λ ts, (record, ts)) <$> Date_parse (record_time record)) records.

Lemma historyRecordsWithTs_sort :
  withTs = sort_by (λ a b, snd a <=? snd b) parsed.
Proof.
  unfold withTs, parsed, historyRecordsWithTs. by destruct records.
Qed.

Lemma historyRecordsWithTs_Sorted : StronglySorted Z.le (map snd withTs).
Proof.
  rewrite historyRecordsWithTs_sort.
  apply Sorted_StronglySorted; [intros ???; lia|].
  change (map snd ?l) with (snd <$> l).
  apply (Sorted_fmap_mono (λ a b : NezhaLoadRecord * Z, (snd a <=? snd b) = true)).
  - intros a b. apply Z.leb_le.
  - apply sort_by_Sorted. intros a b. rewrite Z.leb_gt, Z.leb_le. lia.
Qed.

Lemma elem_of_historyRecordsWithTs record ts :
  (record, ts) ∈ withTs ↔ record ∈ records ∧ Date_parse (record_time record) = Some ts.
Proof.
  rewrite historyRecordsWithTs_sort, sort_by_elem_of. unfold parsed.
  rewrite list_elem_of_omap. split.
  - intros (r & Hr & Hp). destruct (Date_parse (record_time r)) as [t|] eqn:E; [|done].
    simpl in Hp. injection Hp as -> ->. done.
  - intros [Hr Hp]. exists record. split; [done|]. by rewrite Hp.
Qed.

(** X24: the history records are the records whose time parses, each kept
    once with its timestamp, in ascending order of the timestamps, the
    records with the same timestamp staying in their order; the record the
    charts take for the current values, the last one, has the greatest
    timestamp. *)
Theorem historyRecords_sorted :
  Sorted Z.le (map snd withTs)
  ∧ withTs = sort_by (λ a b, snd a <=? snd b) parsed
  ∧ withTs ≡ₚ parsed
  ∧ (∀ record ts, (record, ts) ∈ withTs
                  ↔ record ∈ records ∧ Date_parse (record_time record) = Some ts)
  ∧ (∀ latest, getLastRecord (historyRecords record_time records) = Some latest →
       ∃ ts, Date_parse (record_time latest) = Some ts
             ∧ ∀ record ts', record ∈ records →
                 Date_parse (record_time record) = Some ts' → ts' <= ts)
  ∧ (getLastRecord (historyRecords record_time records) = None ↔ parsed = []).
Proof.
  split_and!.
  - apply StronglySorted_Sorted, historyRecordsWithTs_Sorted.
  - apply historyRecordsWithTs_sort.
  - rewrite historyRecordsWithTs_sort. apply sort_by_Permutation.
  - apply elem_of_historyRecordsWithTs.
  - intros latest Hlast. unfold getLastRecord, historyRecords in Hlast. fold withTs in Hlast.
    destruct (0 <? length (map fst withTs))%nat; [|done].
    rewrite length_map in Hlast.
    change (map fst withTs) with (fst <$> withTs) in Hlast.
    apply list_lookup_fmap_Some in Hlast as ([r ts] & -> & Hl). simpl.
    exists ts.
    assert ((r, ts) ∈ withTs) as Hin by (by eapply list_elem_of_lookup_2).
    split; [by apply elem_of_historyRecordsWithTs in Hin as [_ ?]|].
    intros record ts' Hr Hp.
    assert ((record, ts') ∈ withTs) as Hin'
      by (by apply elem_of_historyRecordsWithTs).
    apply (StronglySorted_le_last (map snd withTs)).
    + apply historyRecordsWithTs_Sorted.
    + rewrite last_lookup, length_map.
      change (map snd withTs) with (snd <$> withTs).
      rewrite list_lookup_fmap.
      replace (Nat.pred (length withTs)) with (length withTs - 1)%nat by lia.
      by rewrite Hl.
    + change ts' with (snd (record, ts')). apply list_elem_of_In, in_map, list_elem_of_In.
      done.
  - unfold getLastRecord, historyRecords. fold withTs. rewrite length_map.
    assert (length withTs = length parsed) as Hlen
      by (rewrite historyRecordsWithTs_sort; apply sort_by_length).
    destruct (0 <? length withTs)%nat eqn:E.
    + apply Nat.ltb_lt in E. split.
      * intros Hnone. apply lookup_ge_None in Hnone. rewrite length_map in Hnone. lia.
      * intros He. rewrite He in Hlen. simpl in Hlen. lia.
    + apply Nat.ltb_ge in E. split; [|done]. intros _.
      destruct parsed; [done|simpl in Hlen; lia].
Qed.
End historyRecords_facts.

(* ===================================================================== *)
(** * Part IV: the properties on concrete inputs                         *)
(* ===================================================================== *)

Local Open Scope Z_scope.

(** ** The adapter and the assembler *)

(** The response for the node 1 of the demo upstream. *)
Lemma demo_fetch_returns :
  demo_fetch = (Returned demo_response, snd demo_fetch).
Proof. vm_compute. reflexivity. Defined.

(** The well-formedness of the series of that response, from C7. *)
Lemma fetchMonitor_series_wellformed_witness :
  (∀ s, s ∈ data demo_response →
     length (created_at s) = length (avg_delay s)
     ∧ Sorted Z.le (created_at s)
     ∧ (NoDup (created_at s) → Sorted Z.lt (created_at s))
     ∧ (0 < length (avg_delay s))%nat)
  ∧ (∀ data0 w0, ∃ data' w1,
       @padEmpty demo_runtime data0 w0 = (Returned data', w1)
       ∧ Forall2 (@padded demo_runtime) data0 data').
Proof.
  apply (@fetchMonitor_series_wellformed demo_runtime demo_upstream 1 24 demo_world
           demo_response (snd demo_fetch)).
  exact demo_fetch_returns.
Defined.

(** Two records of one task at the same instant give a series whose
    timestamps are not strictly ascending. *)
Lemma fetchMonitor_duplicate_timestamps :
  ∃ resp w' s,
    @fetchMonitor demo_runtime demo_upstream 1 24 demo_world = (Returned resp, w')
    ∧ s ∈ data resp
    ∧ created_at s = [1000; 1000]
    ∧ ¬ Sorted Z.lt (created_at s).
Proof.
  eexists _, _, _. split; [vm_compute; reflexivity|].
  split; [left|]. split; [reflexivity|]. simpl.
  intros Hs. apply Sorted_inv in Hs as [_ Hhd]. apply HdRel_inv in Hhd. lia.
Qed.

(** No node of the demo upstream is numbered 2 and its listing carries no
    error: the response is the empty one. *)
Lemma fetchMonitor_unknown_server_witness :
  @fetchMonitor demo_runtime demo_upstream 2 24 demo_world =
    (Returned {| success := true; data := []; from := None; to := None |},
     {| ticks := 0; calls := [EvGetKomariNodes] |}).
Proof.
  apply (@fetchMonitor_unknown_server demo_runtime demo_upstream 2 24 demo_world).
  intros uuid Hin. simpl in Hin. apply list_elem_of_singleton in Hin. subst uuid.
  vm_compute. discriminate.
Defined.

(** The listing of the failing upstream has one key, [error], which is no
    node of number 2; [fetchMonitor] throws the listing's error instead of
    returning the empty response. *)
Lemma fetchMonitor_unknown_server_throws :
  Forall (λ uuid, @uuidToNumber failing_upstream uuid ≠ 2)
    (map fst (@getKomariNodes failing_upstream))
  ∧ @fetchMonitor demo_runtime failing_upstream 2 24 demo_world =
      (Thrown "boom", {| ticks := 0; calls := [EvGetKomariNodes] |})
  ∧ @fetchMonitor demo_runtime failing_upstream 2 24 demo_world ≠
      (Returned {| success := true; data := []; from := None; to := None |},
       {| ticks := 0; calls := [EvGetKomariNodes] |}).
Proof.
  split; [|split].
  - repeat constructor. vm_compute. discriminate.
  - vm_compute. reflexivity.
  - vm_compute. discriminate.
Qed.

(** ** The time range *)

(** With a reported start of 120000 and no reported end, the range starts at
    the reported start and ends at the greatest observed timestamp; the
    derivation in three tiers would take both ends from the observed
    timestamps. *)
Lemma getTimeRange_mixes_reported_and_observed :
  let from := Some "1970-01-01T00:02:00.000Z"%string in
  @getTimeRange demo_runtime [scenario_series] 24 from None 1700000000000 = (120000, 300000)
  ∧ @getTimeRange_spec demo_runtime [scenario_series] 24 from None 1700000000000 = (0, 300000)
  ∧ @getTimeRange demo_runtime [scenario_series] 24 from None 1700000000000
    ≠ @getTimeRange_spec demo_runtime [scenario_series] 24 from None 1700000000000.
Proof. split_and!; [vm_compute; reflexivity..|vm_compute; discriminate]. Qed.

(** ** The scenario *)

(** On the scenario the interval is not 60000 ms, and 120000 is not on the
    timeline: no formatted row has that timestamp. *)
Lemma scenario_interval_is_not_60000 :
  let r := buildTimelineData [scenario_series] 0 300000 in
  intervalMs r ≠ 60000
  ∧ (120000 ∉ timeline r)
  ∧ ∀ row, row ∈ @formatData demo_runtime [scenario_series] (timeline r) (observedSet r)
                   (intervalMs r) →
      row !! "created_at"%string ≠ Some (Some 120000%Q).
Proof.
  intros r.
  assert (intervalMs r = 150000) as Hiv by (vm_compute; reflexivity).
  assert (timeline r = [0; 60000; 210000; 300000]) as Htl by (vm_compute; reflexivity).
  split_and!.
  - rewrite Hiv. discriminate.
  - rewrite Htl. intros Hin.
    repeat (apply elem_of_cons in Hin as [Hin|Hin]; [discriminate|]).
    by apply elem_of_nil in Hin.
  - set (rows := @formatData demo_runtime [scenario_series] (timeline r) (observedSet r)
                   (intervalMs r)).
    assert ((λ row : ResultItem, row !! "created_at"%string) <$> rows
            = [Some (Some 0%Q); Some (Some 60000%Q); Some (Some 210000%Q);
               Some (Some 300000%Q)]) as Hrows by (vm_compute; reflexivity).
    clearbody rows. clear Hiv Htl. clearbody r.
    intros row Hrow Hcreated.
    apply (list_elem_of_fmap_2 (λ row : ResultItem, row !! "created_at"%string)) in Hrow.
    rewrite Hrows, Hcreated in Hrow.
    repeat (apply elem_of_cons in Hrow as [Hrow|Hrow]; [discriminate Hrow|]).
    by apply elem_of_nil in Hrow.
Qed.

(** ** The peak-cut filter *)

(** The eleventh row has no value for the monitor, but the window ending at
    it has ten: the filter gives the row a number. *)
Lemma peak_cut_fabricates_value :
  let point := offline_row 10000 in
  let smoothed : ResultItem :=
    default ∅ (processedData true [] eleven_rows ["ping"%string] !! 10%nat) in
  let v := default 0%Q (or_null (smoothed !! "ping"%string)) in
  baseData [] eleven_rows !! 10%nat = Some point
  ∧ point !! "ping"%string = Some None
  ∧ processedData true [] eleven_rows ["ping"%string] !! 10%nat = Some smoothed
  ∧ smoothed !! "ping"%string = Some (Some v)
  ∧ (v == 5)%Q.
Proof.
  intros point smoothed v. split_and!.
  - reflexivity.
  - reflexivity.
  - vm_compute. reflexivity.
  - vm_compute. reflexivity.
  - vm_compute. reflexivity.
Qed.

(** ** The formatter *)

Lemma two_series_keys_separate : keys_separate two_series 0.
Proof.
  split.
  - intros other Hin. unfold two_series in Hin.
    apply elem_of_cons in Hin as [->|Hin]; [by vm_compute|].
    apply list_elem_of_singleton in Hin as ->. by vm_compute.
  - intros item j other Hitem Hother Hj key Hkey.
    injection Hitem as <-.
    destruct j as [|[|j]]; [done| |done].
    injection Hother as <-. unfold keys_of in *. simpl in *.
    apply elem_of_cons in Hkey as [->|Hkey];
      [|apply list_elem_of_singleton in Hkey as ->];
      intros Hin; apply elem_of_cons in Hin as [Hin|Hin]; try discriminate;
      apply list_elem_of_singleton in Hin; discriminate.
Defined.

Lemma series_a_valid_points q :
  valid_point series_a q ↔
  q = {| point_time := 0; point_value := 10 |} ∨ q = {| point_time := 2000; point_value := 10 |}.
Proof.
  unfold valid_point. split.
  - intros (i & Ht & Hv). destruct q as [qt qv].
    destruct i as [|[|i]]; simpl in *; [left|right|done]; congruence.
  - intros [-> | ->]; [exists 0%nat|exists 1%nat]; done.
Qed.

(** The value of [series_a] at 1000, from C1. *)
Lemma formatData_interpolated_between_witness :
  ∃ row w,
    @formatTable demo_runtime two_series [0; 1000; 2000] {[ 0; 1000; 2000 ]} 2000 !! 1000
      = Some row
    ∧ row ∈ @formatData demo_runtime two_series [0; 1000; 2000] {[ 0; 1000; 2000 ]} 2000
    ∧ row !! "created_at"%string = Some (Some (inject_Z 1000))
    ∧ row !! OFFLINE_KEY = Some None
    ∧ row !! (monitor_name series_a +:+ "_packet_loss") = Some None
    ∧ row !! monitor_name series_a = Some w
    ∧ (∀ v, w = Some v →
         ∃ p n, nearest_preceding series_a 1000 p ∧ nearest_following series_a 1000 n
           ∧ 0 < 2000 ∧ 2 * (point_time n - point_time p) <= 3 * 2000
           ∧ (v = point_value p
                  + inject_Z (1000 - point_time p) / inject_Z (point_time n - point_time p)
                    * (point_value n - point_value p)
              ∧ (point_value p <= point_value n → point_value p <= v <= point_value n)
              ∧ (point_value n <= point_value p → point_value n <= v <= point_value p)
              ∧ (point_value p < point_value n → point_value p < v < point_value n)
              ∧ (point_value n < point_value p → point_value n < v < point_value p)
              ∧ (point_value p == point_value n → v == point_value p))%Q)
    ∧ ((∀ q, valid_point series_a q → ¬ point_time q < 1000) → w = None)
    ∧ ((∀ q, valid_point series_a q → ¬ 1000 < point_time q) → w = None)
    ∧ (∀ p n, nearest_preceding series_a 1000 p → nearest_following series_a 1000 n →
         3 * 2000 < 2 * (point_time n - point_time p) → w = None).
Proof.
  apply (@formatData_interpolated_between demo_runtime two_series [0; 1000; 2000]
           {[ 0; 1000; 2000 ]} 2000 0%nat series_a 1000).
  - exact two_series_keys_separate.
  - reflexivity.
  - repeat constructor; lia.
  - repeat constructor; lia.
  - right. left.
  - apply elem_of_union_l, elem_of_union_r, elem_of_singleton. reflexivity.
  - intros Hin. apply elem_of_cons in Hin as [Hin|Hin]; [discriminate|].
    apply list_elem_of_singleton in Hin. discriminate.
Defined.

(** At 1000 the value of [series_a] is interpolated between its points at 0
    and at 2000, which both have the value 10: the value is 10, not strictly
    between the two. *)
Lemma formatData_interpolation_not_strict :
  let r := two_series_timeline in
  let p := {| point_time := 0; point_value := 10 |} in
  let n := {| point_time := 2000; point_value := 10 |} in
  1000 ∈ timeline r ∧ 1000 ∈ observedSet r ∧ (1000 ∉ created_at series_a)
  ∧ nearest_preceding series_a 1000 p ∧ nearest_following series_a 1000 n
  ∧ ∃ row v,
      row ∈ @formatData demo_runtime two_series (timeline r) (observedSet r) (intervalMs r)
      ∧ row !! "created_at"%string = Some (Some 1000%Q)
      ∧ row !! "a"%string = Some (Some v)
      ∧ (v == 10)%Q
      ∧ ¬ (point_value p < v ∧ v < point_value n)%Q.
Proof.
  intros r p n. split_and!.
  - assert (timeline r = [0; 1000; 2000]) as -> by (vm_compute; reflexivity). right. left.
  - apply elem_of_observedSet. split; [lia|]. exists series_b. split; [right; left|left].
  - intros Hin. apply elem_of_cons in Hin as [Hin|Hin]; [discriminate|].
    apply list_elem_of_singleton in Hin. discriminate.
  - split_and!; [apply series_a_valid_points; by left|simpl; lia|].
    intros q [-> | ->]%series_a_valid_points; simpl; lia.
  - split_and!; [apply series_a_valid_points; by right|simpl; lia|].
    intros q [-> | ->]%series_a_valid_points; simpl; lia.
  - set (rows := @formatData demo_runtime two_series (timeline r) (observedSet r) (intervalMs r)).
    exists (default ∅ (rows !! 1%nat)), (20000 # 2000)%Q. split_and!.
    + apply (list_elem_of_lookup_2 _ 1%nat). vm_compute. reflexivity.
    + vm_compute. reflexivity.
    + vm_compute. reflexivity.
    + reflexivity.
    + simpl. intros [Hlo _]. revert Hlo. unfold Qlt. simpl. lia.
Qed.

(** ** Further properties on concrete inputs *)

Local Open Scope Z_scope.

Lemma formatData_offline_row_witness :
  ∃ row,
    @formatTable demo_runtime two_series [0; 1000; 2000] {[ 0; 2000 ]} 2000 !! 1000 = Some row
    ∧ row ∈ @formatData demo_runtime two_series [0; 1000; 2000] {[ 0; 2000 ]} 2000
    ∧ row !! "created_at"%string = Some (Some (inject_Z 1000))
    ∧ row !! OFFLINE_KEY = Some (Some 1%Q)
    ∧ row !! monitor_name series_a = Some None
    ∧ row !! (monitor_name series_a +:+ "_packet_loss") = Some None.
Proof.
  apply (@formatData_offline_row demo_runtime two_series [0; 1000; 2000] {[ 0; 2000 ]} 2000
           0%nat series_a 1000).
  - exact two_series_keys_separate.
  - reflexivity.
  - right. left.
  - intros Hin. apply elem_of_union in Hin as [Hin|Hin];
      apply elem_of_singleton in Hin; discriminate.
Defined.

Lemma formatData_sample_row_witness :
  ∃ i row,
    created_at series_a !! i = Some 2000
    ∧ (∀ j, (i < j)%nat → created_at series_a !! j ≠ Some 2000)
    ∧ @formatTable demo_runtime two_series [0; 1000; 2000] {[ 0; 1000; 2000 ]} 2000 !! 2000
      = Some row
    ∧ row ∈ @formatData demo_runtime two_series [0; 1000; 2000] {[ 0; 1000; 2000 ]} 2000
    ∧ row !! "created_at"%string = Some (Some (inject_Z 2000))
    ∧ row !! OFFLINE_KEY = Some None
    ∧ row !! monitor_name series_a = Some (or_null (avg_delay series_a !! i))
    ∧ row !! (monitor_name series_a +:+ "_packet_loss")
      = Some (default (@calculatePacketLoss demo_runtime (avg_delay series_a))
                      (packet_loss series_a) !! i).
Proof.
  apply (@formatData_sample_row demo_runtime two_series [0; 1000; 2000] {[ 0; 1000; 2000 ]}
           2000 0%nat series_a 2000).
  - exact two_series_keys_separate.
  - reflexivity.
  - right. right. left.
  - apply elem_of_union_r, elem_of_singleton. reflexivity.
  - right. left.
Defined.

Lemma formatData_rows_ascending_witness :
  ∃ ts, Sorted Z.lt ts
    ∧ (∀ t, t ∈ ts ↔ t ∈ [2000; 0; 1000; 0])
    ∧ Forall2 (λ t row,
                 @formatTable demo_runtime two_series [2000; 0; 1000; 0] {[ 0; 2000 ]} 2000 !! t
                   = Some row
                 ∧ row !! "created_at"%string = Some (Some (inject_Z t)))
        ts (@formatData demo_runtime two_series [2000; 0; 1000; 0] {[ 0; 2000 ]} 2000).
Proof.
  apply (@formatData_rows_ascending demo_runtime two_series [2000; 0; 1000; 0] {[ 0; 2000 ]}
           2000).
  intros item Hin. unfold two_series in Hin.
  apply elem_of_cons in Hin as [->|Hin]; [discriminate|].
  apply list_elem_of_singleton in Hin as ->. discriminate.
Defined.

Lemma formatData_rows_have_chart_keys_witness :
  let rows := @formatData demo_runtime two_series [0; 1000; 2000] {[ 0; 2000 ]} 2000 in
  let row : ResultItem := default ∅ (rows !! 1%nat) in
  is_Some (row !! "b"%string) ∧ is_Some (row !! ("b" +:+ "_packet_loss")%string).
Proof.
  intros rows row.
  apply (@formatData_rows_have_chart_keys demo_runtime two_series [0; 1000; 2000]
           {[ 0; 2000 ]} 2000 row "b"%string).
  - apply (list_elem_of_lookup_2 rows 1%nat). vm_compute. reflexivity.
  - vm_compute. eexists. reflexivity.
Defined.

Lemma timeline_gap_points_witness :
  let r := buildTimelineData [scenario_series] 0 300000 in
  (3 * intervalMs r < 2 * (300000 - 60000) →
     {| start := 60000 + intervalMs r; end_ := 300000 |} ∈ offlineSpans r
     ∧ ∀ t, 60000 < t < 300000 →
         (t ∈ timeline r ↔ ∃ k, 0 < k ∧ t = 60000 + k * intervalMs r))
  ∧ (2 * (300000 - 60000) <= 3 * intervalMs r →
     ∀ t, 60000 < t < 300000 → t ∉ timeline r).
Proof.
  apply (timeline_gap_points [scenario_series] 0 300000 60000 300000).
  - apply elem_of_observedSet. split; [lia|].
    exists scenario_series. split; [left|]. right. left.
  - apply elem_of_observedSet. split; [lia|].
    exists scenario_series. split; [left|]. right. right. left.
  - lia.
  - intros x Hx. apply elem_of_observedSet in Hx as [_ (item & Hitem & Hin)].
    apply list_elem_of_singleton in Hitem as ->. simpl in Hin.
    apply elem_of_cons in Hin as [->|Hin]; [lia|].
    apply elem_of_cons in Hin as [->|Hin]; [lia|].
    apply list_elem_of_singleton in Hin as ->. lia.
Defined.

Lemma calculatePacketLoss_steady_link_witness :
  Forall (λ x, (x == 0)%Q)
    (@calculatePacketLoss demo_runtime [Some 20%Q; Some 20%Q; Some 20%Q; Some 20%Q]).
Proof.
  apply Forall_forall.
  apply (@calculatePacketLoss_steady_link demo_runtime
           [Some 20%Q; Some 20%Q; Some 20%Q; Some 20%Q] 20%Q).
  - intros q Hq. unfold Math_sqrt, demo_runtime.
    rewrite (Qfloor_comp _ 0%Q) by (rewrite Hq; reflexivity). reflexivity.
  - reflexivity.
  - reflexivity.
  - intros x Hx. repeat (apply elem_of_cons in Hx as [->|Hx]; [reflexivity|]).
    by apply elem_of_nil in Hx.
Defined.

Lemma fetchMonitor_series_per_task_witness :
  ∃ resp w',
    @fetchMonitor demo_runtime demo_upstream 1 24 demo_world = (Returned resp, w')
    ∧ map monitor_id (data resp)
      = first_occurrences
          (payload_ids (@getRecords demo_upstream (ping_request "node-1" 24)))
    ∧ NoDup (map monitor_id (data resp))
    ∧ ∀ id, id ∈ map monitor_id (data resp)
            ↔ id ∈ payload_ids (@getRecords demo_upstream (ping_request "node-1" 24)).
Proof.
  apply (@fetchMonitor_series_per_task demo_runtime demo_upstream 1 24 demo_world
           "node-1"%string); [reflexivity|reflexivity|discriminate|reflexivity].
Defined.

Lemma fetchMonitor_series_points_witness :
  ∃ resp w',
    @fetchMonitor demo_runtime demo_upstream 1 24 demo_world = (Returned resp, w')
    ∧ ∀ s, s ∈ data resp →
        let pts :=
          @points_of demo_runtime (monitor_id s)
            (payload_records (@getRecords demo_upstream (ping_request "node-1" 24))) in
        (pts ≠ [] →
           zip (created_at s) (avg_delay s) = sort_by (λ a b, fst a <=? fst b) pts
           ∧ zip (created_at s) (avg_delay s) ≡ₚ pts)
        ∧ (pts = [] → avg_delay s = [None] ∧ ∃ k, created_at s = [@Date_now demo_runtime k]).
Proof.
  apply (@fetchMonitor_series_points demo_runtime demo_upstream 1 24 demo_world
           "node-1"%string); [reflexivity|reflexivity|discriminate|reflexivity].
Defined.

Lemma avgPacketLoss_percentage_witness :
  let points := default [] (@transformData demo_runtime two_series !! "a"%string) in
  let a := default 0%Q (avgPacketLoss points) in
  (0 <= a <= 100)%Q.
Proof.
  intros points a.
  apply (@avgPacketLoss_percentage demo_runtime two_series "a"%string points a).
  - intros item losses x Hin Hl. unfold two_series in Hin.
    apply elem_of_cons in Hin as [->|Hin]; [discriminate|].
    apply list_elem_of_singleton in Hin as ->. discriminate.
  - vm_compute. reflexivity.
  - vm_compute. reflexivity.
Defined.

Lemma lastValidDelay_skips_lost_witness :
  let p := {| chart_created_at := 1000; chart_avg_delay := Some (Some 12%Q);
              chart_packet_loss := Some 0%Q |} in
  let lost := {| chart_created_at := 2000; chart_avg_delay := Some None;
                 chart_packet_loss := Some 100%Q |} in
  (chart_avg_delay p = Some (Some 12%Q) → lastValidDelay ([] ++ p :: [lost]) = 12%Q)
  ∧ lastValidDelay [lost] = 0%Q.
Proof.
  intros p lost. apply (lastValidDelay_skips_lost [] [lost] p 12%Q).
  repeat constructor.
Defined.

Lemma realtime_buffer_window_witness :
  let init : list nat := [] in
  let points := seq 0 40 in
  let buffer := foldl pushRealtimePoint init points in
  let fed := match init, points with
             | [], p :: _ => p :: points
             | _, _ => init ++ points
             end in
  buffer = drop (length fed - 30) fed ∧ (length buffer <= 30)%nat.
Proof.
  intros init points. apply (realtime_buffer_window init points). simpl. lia.
Defined.
